(** * Gesture-to-page-turn pipeline of the book reader

    A shallow embedding of the three pieces of the repository that turn a
    noisy input into a page turn:

    - [BookView]    : the per-frame flip controller ([loop] in
                      src/components/BookView.tsx);
    - [OpticalFlow] : the block-matching motion estimator ([processFrame] in
                      src/karma---the-living-book/hooks/useOpticalFlow.ts);
    - [Book3D]      : the page-turn animator
                      (src/karma---the-living-book/components/Book3D.tsx).

    Around them, the code they work with:

    - [BookViewInput], [BookViewModes] : the wheel, keyboard and touch
                      handlers of BookView.tsx and the orientation and swipe
                      modes of [loop];
    - [BookPages], [TurnComplete] : [buildBook] and [handleTurnComplete] of
                      BookView.tsx;
    - [OpticalFlowRun] : the grayscale conversion and the sequence of frames
                      of useOpticalFlow.ts;
    - [App]         : the gesture and key handlers of
                      src/karma---the-living-book/App.tsx and the shading of
                      the render of Book3D.tsx.

    JavaScript numbers are modelled as exact rationals ([Q]); timestamps,
    rotations and gesture deltas are therefore free of rounding, and the
    signed zero and NaN are not represented.  Pixel values are integers in
    [0, 255] and are modelled in [Z]. *)

From Stdlib Require Import ZArith QArith Qabs Qminmax Lqa Lia List Bool.
From Stdlib Require String Ascii.
Import ListNotations.
Local Open Scope Q_scope.

(** The direction of a flip: the argument of [triggerFlip] in BookView.tsx and
    the value of [turningDirection] in Book3D.tsx. *)
Inductive Direction : Type := next | prev.

(** Comparisons of JavaScript numbers, as booleans. *)
Definition Qltb (a b : Q) : bool := negb (Qle_bool b a).

(* ================================================================== *)
(** * The flip controller of BookView.tsx *)
(* ================================================================== *)

Module BookView.

(** Values of the globals the tracking component writes and [loop] reads. *)
Inductive HandSide : Type := left_hand | right_hand.
Inductive Orient : Type := front | back | neutral.
Inductive FlipMode : Type := hand | swipe | orientation.

(** [swipeStateRef.current]. *)
Record SwipeState : Type := mkSwipe {
  startX : option Q;
  lastX : Q;
  active : bool
}.

(** The refs of the component that [loop] reads and writes. *)
Record Refs : Type := mkRefs {
  cooldownRef : Q;
  prevOrientRef : Orient;
  swipeStateRef : SwipeState;
  holdStartRef : option Q;
  latchedRef : bool
}.

(** What one run of [loop] reads from its environment: [performance.now()],
    the globals [__BOOK_FLIP_MODE] (after its default), [__HAND_ORIENT],
    [__HAND_FIST], [__HAND_SIDE], and [pointer.x]. *)
Record Frame : Type := mkFrame {
  now : Q;
  flipMode : FlipMode;
  HAND_ORIENT : Orient;
  HAND_FIST : bool;
  HAND_SIDE : option HandSide;
  pointer_x : Q
}.

(** The refs at mount. *)
Definition initial : Refs :=
  mkRefs 0 neutral (mkSwipe None 0 false) None false.

(** [state.startX || x], and [holdStartRef.current] after
    [if (!holdStartRef.current) holdStartRef.current = now]: a number that is
    null or zero is falsy and is replaced. *)
Definition or_else (o : option Q) (d : Q) : Q :=
  match o with
  | Some v => if Qeq_bool v 0 then d else v
  | None => d
  end.

Definition Orient_eqb (a b : Orient) : bool :=
  match a, b with
  | front, front | back, back | neutral, neutral => true
  | _, _ => false
  end.

Definition set_cooldown (r : Refs) (c : Q) : Refs :=
  mkRefs c (prevOrientRef r) (swipeStateRef r) (holdStartRef r) (latchedRef r).

Definition set_prevOrient (r : Refs) (o : Orient) : Refs :=
  mkRefs (cooldownRef r) o (swipeStateRef r) (holdStartRef r) (latchedRef r).

Definition set_swipe (r : Refs) (s : SwipeState) : Refs :=
  mkRefs (cooldownRef r) (prevOrientRef r) s (holdStartRef r) (latchedRef r).

Definition set_hold (r : Refs) (h : option Q) (l : bool) : Refs :=
  mkRefs (cooldownRef r) (prevOrientRef r) (swipeStateRef r) h l.

(** The orientation branch of [loop]. *)
Definition loop_orientation (f : Frame) (r : Refs) : Refs * option Direction :=
  let orient := HAND_ORIENT f in
  let fist := HAND_FIST f in
  let '(r1, out) :=
    if Qle_bool (cooldownRef r) (now f) then
      if Orient_eqb (prevOrientRef r) neutral && Orient_eqb orient front && fist
      then (set_cooldown r (now f + 500), Some next)
      else if Orient_eqb (prevOrientRef r) neutral && Orient_eqb orient back && fist
      then (set_cooldown r (now f + 500), Some prev)
      else (r, None)
    else (r, None) in
  (set_prevOrient r1 (if negb fist then neutral else orient), out).

(** The swipe branch of [loop]. *)
Definition loop_swipe (f : Frame) (r : Refs) : Refs * option Direction :=
  let x := pointer_x f in
  let state := swipeStateRef r in
  if negb (active state) then
    (set_swipe r (mkSwipe (Some x) x true), None)
  else
    let dx := x - or_else (startX state) x in
    let r1 := set_swipe r (mkSwipe (startX state) x true) in
    if Qle_bool (cooldownRef r) (now f) then
      match HAND_SIDE f with
      | Some right_hand =>
          if Qltb 120 dx then
            (set_swipe (set_cooldown r1 (now f + 500))
                       (mkSwipe (startX state) x false), Some next)
          else (r1, None)
      | Some left_hand =>
          if Qltb dx (-120) then
            (set_swipe (set_cooldown r1 (now f + 500))
                       (mkSwipe (startX state) x false), Some prev)
          else (r1, None)
      | None => (r1, None)
      end
    else (r1, None).

(** [rawSide === 'left' ? 'next' : 'prev']. *)
Definition flip_of (s : HandSide) : Direction :=
  match s with left_hand => next | right_hand => prev end.

(** The hand branch of [loop]: hold timer, latch and cooldown.
    [setDetectedSide] and the console output only feed the display. *)
Definition loop_hand (f : Frame) (r : Refs) : Refs * option Direction :=
  match HAND_SIDE f with
  | None => (set_hold r None false, None)
  | Some rawSide =>
      let start := or_else (holdStartRef r) (now f) in
      let r1 := set_hold r (Some start) (latchedRef r) in
      let held := now f - start in
      if negb (latchedRef r) && Qle_bool 200 held
         && Qle_bool (cooldownRef r) (now f)
      then
        (set_cooldown (set_hold r1 (Some start) true) (now f + 1000),
         Some (flip_of rawSide))
      else (r1, None)
  end.

(** One run of [loop]: the new refs and the flip it triggers, if any. *)
Definition loop (f : Frame) (r : Refs) : Refs * option Direction :=
  match flipMode f with
  | orientation => loop_orientation f r
  | swipe => loop_swipe f r
  | hand => loop_hand f r
  end.

(** A sequence of animation frames: the refs at the end and the flips
    triggered, oldest first. *)
Fixpoint run (fs : list Frame) (r : Refs) : Refs * list Direction :=
  match fs with
  | [] => (r, [])
  | f :: fs' =>
      let '(r1, out) := loop f r in
      let '(r2, outs) := run fs' r1 in
      (r2, match out with Some d => d :: outs | None => outs end)
  end.

Definition intents (fs : list Frame) (r : Refs) : list Direction :=
  snd (run fs r).

(** A frame of the hand mode: only the time and the detected side matter. *)
Definition hand_frame (t : Q) (s : option HandSide) : Frame :=
  mkFrame t hand neutral false s 0.

(** The frames of a hold: hand mode, with a hand in every frame. *)
Definition present (f : Frame) : Prop :=
  flipMode f = hand /\ HAND_SIDE f <> None.

(** The frames of an uninterrupted hold of the one side [s]. *)
Definition shows (s : HandSide) (f : Frame) : Prop :=
  flipMode f = hand /\ HAND_SIDE f = Some s.

(** No hold is in progress: the state after a frame without a hand, and the
    state at mount. *)
Definition released (r : Refs) : Prop :=
  holdStartRef r = None /\ latchedRef r = false.

End BookView.

(* ================================================================== *)
(** * The motion estimator of useOpticalFlow.ts *)
(* ================================================================== *)

Module OpticalFlow.

Local Open Scope Z_scope.

Definition width : Z := 64.
Definition height : Z := 48.

(** A grayscale buffer ([Uint8Array]) of [width * height] pixels.  Every index
    [processFrame] reads lies inside a buffer of that size; the default of
    [px] is never reached on one. *)
Definition Buffer : Type := list Z.

Definition px (b : Buffer) (i : Z) : Z := nth (Z.to_nat i) b 0.

(** The values [start, start + step, ...] below [stop] that a [for] loop
    visits. *)
Fixpoint steps (n : nat) (start step : Z) : list Z :=
  match n with
  | O => []
  | S k => start :: steps k (start + step) step
  end.

Definition range (start stop step : Z) : list Z :=
  steps (Z.to_nat ((stop - start + step - 1) / step)) start step.

(** The body of the search loop over [dx]: the state is [(minDiff, bestDx)]. *)
Definition search_step (currentFrame : Buffer) (y x prevVal : Z)
    (st : Z * Z) (dx : Z) : Z * Z :=
  if dx =? 0 then st
  else
    let currVal := px currentFrame (y * width + (x + dx)) in
    let diff := Z.abs (currVal - prevVal) in
    if Qltb (inject_Z diff) (inject_Z (fst st) * 0.8)%Q then (diff, dx) else st.

(** The search of one sample point: [(minDiff, bestDx)] after the loop. *)
Definition search (currentFrame : Buffer) (y x prevVal zeroDiff : Z) : Z * Z :=
  fold_left (search_step currentFrame y x prevVal) (range (-4) 5 1) (zeroDiff, 0).

(** The match error of an offset at a sample point. *)
Definition match_error (prevFrame currentFrame : Buffer) (y x dx : Z) : Z :=
  Z.abs (px currentFrame (y * width + (x + dx)) - px prevFrame (y * width + x)).

(** The offset a sample point contributes: [None] when the gradient check
    skips it, otherwise [bestDx]. *)
Definition bestDx_at (prevFrame currentFrame : Buffer) (y x : Z) : option Z :=
  let idx := y * width + x in
  let gx := Z.abs (px prevFrame (idx - 1) - px prevFrame (idx + 1)) in
  if gx <? 30 then None
  else
    let prevVal := px prevFrame idx in
    let zeroDiff := Z.abs (px currentFrame idx - prevVal) in
    Some (snd (search currentFrame y x prevVal zeroDiff)).

(** The body of the grid loops: the state is [(deltaX, validPoints)]. *)
Definition sample (prevFrame currentFrame : Buffer) (y : Z)
    (st : Z * Z) (x : Z) : Z * Z :=
  match bestDx_at prevFrame currentFrame y x with
  | None => st
  | Some bestDx =>
      if negb (bestDx =? 0) then (fst st + bestDx, snd st + 1) else st
  end.

Definition sample_row (prevFrame currentFrame : Buffer)
    (st : Z * Z) (y : Z) : Z * Z :=
  fold_left (sample prevFrame currentFrame y) (range 10 (width - 10) 4) st.

(** [(deltaX, validPoints)] after the sample grid. *)
Definition flow (prevFrame currentFrame : Buffer) : Z * Z :=
  fold_left (sample_row prevFrame currentFrame) (range 10 (height - 10) 4) (0, 0).

Definition deltaX (p c : Buffer) : Z := fst (flow p c).
Definition validPoints (p c : Buffer) : Z := snd (flow p c).
Definition avgDx (p c : Buffer) : Q :=
  (inject_Z (deltaX p c) / inject_Z (validPoints p c))%Q.

(** What the hook calls back. *)
Inductive Callback : Type :=
| onGesture (delta : Q)
| onGestureEnd.

(** The refs of the hook. *)
Record Refs : Type := mkRefs {
  prevFrameRef : option Buffer;
  isActiveRef : bool;
  motionAccumulator : Q;
  lastMotionTime : Q
}.

Definition initial : Refs := mkRefs None false 0 0.

(** One processed frame: the grayscale buffer of the frame and the two
    readings of [Date.now()]. *)
Record Input : Type := mkInput {
  currentFrame : Buffer;
  now_motion : Q;
  now_check : Q
}.

(** [rawInput]: the average offset of the frame when it is accepted as
    motion. *)
Definition rawInput (prevFrame currentFrame : Buffer) : option Q :=
  if 5 <? validPoints prevFrame currentFrame then
    let avg := avgDx prevFrame currentFrame in
    if Qltb 0.5 (Qabs avg) then Some avg else None
  else None.

(** [processFrame] once the frame has been drawn and converted: the new refs
    and the callbacks made, in order. *)
Definition processFrame (i : Input) (r : Refs) : Refs * list Callback :=
  let '(r1, out1) :=
    match prevFrameRef r with
    | Some prevFrame =>
        match rawInput prevFrame (currentFrame i) with
        | Some raw =>
            (mkRefs (prevFrameRef r) true (motionAccumulator r + raw)%Q
                    (now_motion i),
             [onGesture (raw * 30)%Q])
        | None => (r, [])
        end
    | None => (r, [])
    end in
  let '(r2, out2) :=
    if isActiveRef r1 && Qltb 150 (now_check i - lastMotionTime r1)%Q then
      (mkRefs (prevFrameRef r1) false 0 (lastMotionTime r1), [onGestureEnd])
    else (r1, []) in
  (mkRefs (Some (currentFrame i)) (isActiveRef r2) (motionAccumulator r2)
          (lastMotionTime r2),
   out1 ++ out2).

(** The deltas passed to [onGesture] among the callbacks of a frame. *)
Definition gestures (cs : list Callback) : list Q :=
  flat_map (fun c => match c with onGesture d => [d] | onGestureEnd => [] end) cs.

(** The error of offset [dx] against the previous value of the point. *)
Definition offset_error (currentFrame : Buffer) (y x prevVal dx : Z) : Z :=
  Z.abs (px currentFrame (y * width + (x + dx)) - prevVal).

(** What the search loop maintains over the offsets [seen] so far: the offset
    kept is zero and no offset seen passes the noise gate against the
    zero-offset error, or it is an offset seen that passes it. *)
Definition search_inv (currentFrame : Buffer) (y x prevVal zeroDiff : Z)
    (seen : list Z) (st : Z * Z) : Prop :=
  fst st <= zeroDiff
  /\ (snd st = 0 ->
      fst st = zeroDiff
      /\ forall dx, In dx seen -> dx <> 0 ->
           8 * zeroDiff <= 10 * offset_error currentFrame y x prevVal dx)
  /\ (snd st <> 0 ->
      In (snd st) seen
      /\ fst st = offset_error currentFrame y x prevVal (snd st)
      /\ 10 * offset_error currentFrame y x prevVal (snd st) < 8 * zeroDiff).

(** Test frames.  [paint pts bg] is the buffer whose pixel [i] is [v] for the
    first [(i, v)] of [pts] and [bg] elsewhere. *)
Definition paint (pts : list (Z * Z)) (bg : Z) : Buffer :=
  map (fun i => match find (fun p => fst p =? i) pts with
                | Some p => snd p
                | None => bg
                end)
      (range 0 (width * height) 1).

(** Sample points [(y, x)] with the offset each is made to move by. *)
Definition moved : list (Z * Z * Z) :=
  [(10, 10, 1); (10, 30, 1); (10, 50, 1); (14, 10, 1); (14, 30, 1);
   (14, 50, 2); (18, 10, -1); (18, 30, -1); (18, 50, -1); (22, 10, -1)].

(** A previous frame with a strong edge at each of the points, and the frame
    after it in which each edge has moved by its offset: ten confident points
    whose offsets sum to 3. *)
Definition edges_before (pts : list (Z * Z * Z)) : Buffer :=
  paint (flat_map (fun p => let '(y, x, _) := p in
                            [(y * width + x - 1, 100); (y * width + x, 50)]) pts)
        0.

Definition edges_after (pts : list (Z * Z * Z)) : Buffer :=
  paint (map (fun p => let '(y, x, dx) := p in (y * width + x + dx, 50)) pts)
        200.

End OpticalFlow.


(* ================================================================== *)
(** * The page-turn animator of Book3D.tsx *)
(* ================================================================== *)

(** The component is a function of its props with two pieces of state
    ([useState]), one ref ([useRef]) and three effects ([useEffect]).  The
    model follows React's rules for them:

    - a render captures the props and the state in the closures of its
      effects;
    - a state setter called from an effect or from a callback queues an
      update, and the next render applies the queue: the updates to one piece
      of state apply in the order they were made, and an updater function
      runs in that render, with the state the updates before it have left,
      and with its side effects;
    - only when the component has no update pending, and its last render
      either had none to apply or changed nothing (no lanes on the fiber and
      none on its alternate), React computes the update at the call: an
      updater function then runs at once, and an update that leaves the state
      as it is schedules no render;
    - a setter called while the component renders, from an updater function,
      applies in that same render;
    - React renders the component when its parent has rendered or an update
      is pending; after the commit the effects whose dependency array holds
      a changed value run in the order they are declared, the cleanups of
      those effects first;
    - a ref is an ordinary mutable cell;
    - a callback requested from [requestAnimationFrame] stays pending until
      the browser runs it or the cleanup of the snap effect cancels it;
    - the parent ([BookView], or the [App] of the living book) passes a new
      [onPageTurnComplete] closure whenever it renders, and answers a call of
      it with [setCurrentPage(newPage)], which makes it render when the page
      is a new one. *)

Module Book3D.

(** [gestureSignal]: [addr] is the identity of the object, which is what a
    dependency array compares. *)
Record GestureSignal : Type := mkSignal {
  value : Q;
  id : Z;
  addr : nat
}.

(** [Book3DProps]; of [content] only [content.pages.length] is used by the
    effects, and of [onPageTurnComplete] the model keeps the identity of the
    closure. *)
Record Props : Type := mkProps {
  content_pages_length : Z;
  gestureSignal : GestureSignal;
  isGestureActive : bool;
  onPageTurnComplete : nat;
  currentPage : Z
}.

(** The two [useState] cells. *)
Record State : Type := mkState {
  currentRotation : Q;
  turningDirection : option Direction
}.

(** The variables [animateSnap] closes over: [targetRot], [targetPage], and
    the [turningDirection] and [currentRotation] of the render. *)
Record Snap : Type := mkSnap {
  targetRot : Q;
  targetPage : Z;
  snapDirection : Direction;
  snapRotation : Q
}.

(** An update in the queue of [currentRotation]: a value, passed to
    [setCurrentRotation] or left by an updater function that React has run at
    the call; or the updater function of [animateSnap], still to run, which
    is known by the variables it closes over. *)
Inductive RotationUpdate : Type :=
| Value (v : Q)
| Updater (a : Snap).

(** The work React holds for the component. *)
Record Fiber : Type := mkFiber {
  pendingProps : bool;                       (* the parent has rendered since the last render *)
  rotationQueue : list RotationUpdate;       (* queue of [currentRotation] *)
  directionQueue : list (option Direction);  (* queue of [turningDirection] *)
  alternateLanes : bool                      (* lanes left on the alternate fiber *)
}.

Record World : Type := mkWorld {
  shell : Props;                     (* props the parent passes at its next render *)
  fresh : nat;                       (* next unused object identity *)
  state : State;                     (* hook state of the last render *)
  fiber : Fiber;                     (* work waiting for the next render *)
  dragAccumulator : Q;               (* [dragAccumulator.current] *)
  rendered : option (Props * State); (* props and state of the last commit *)
  animationFrame : option Snap;      (* callback requested from requestAnimationFrame *)
  completed : list Z                 (* arguments of the calls of onPageTurnComplete *)
}.

(** ** A state monad over the world, for the bodies of the effects *)

Definition M (A : Type) : Type := World -> A * World.

Definition ret {A : Type} (a : A) : M A := fun w => (a, w).

Definition bind {A B : Type} (m : M A) (k : A -> M B) : M B :=
  fun w => let '(a, w1) := m w in k a w1.

Notation "x <- m ;; k" := (bind m (fun x => k))
  (at level 61, m at next level, right associativity).
Notation "m ;; k" := (bind m (fun _ => k))
  (at level 61, right associativity).

Definition exec {A : Type} (m : M A) (w : World) : World := snd (m w).

Definition getDragAccumulator : M Q := fun w => (dragAccumulator w, w).

Definition setDragAccumulator (v : Q) : M unit := fun w =>
  (tt, mkWorld (shell w) (fresh w) (state w) (fiber w) v (rendered w)
               (animationFrame w) (completed w)).

Definition setState (s : State) : M unit := fun w =>
  (tt, mkWorld (shell w) (fresh w) s (fiber w) (dragAccumulator w)
               (rendered w) (animationFrame w) (completed w)).

Definition setFiber (u : Fiber) : M unit := fun w =>
  (tt, mkWorld (shell w) (fresh w) (state w) u (dragAccumulator w)
               (rendered w) (animationFrame w) (completed w)).

Definition getDirectionQueue : M (list (option Direction)) := fun w =>
  (directionQueue (fiber w), w).

Definition setPendingProps (b : bool) : M unit := fun w =>
  setFiber (mkFiber b (rotationQueue (fiber w)) (directionQueue (fiber w))
                    (alternateLanes (fiber w))) w.

Definition setQueues (us : list RotationUpdate)
    (ds : list (option Direction)) (lanes : bool) : M unit := fun w =>
  setFiber (mkFiber (pendingProps (fiber w)) us ds lanes) w.

Definition requestAnimationFrame (s : Snap) : M unit := fun w =>
  (tt, mkWorld (shell w) (fresh w) (state w) (fiber w) (dragAccumulator w)
               (rendered w) (Some s) (completed w)).

Definition cancelAnimationFrame : M unit := fun w =>
  (tt, mkWorld (shell w) (fresh w) (state w) (fiber w) (dragAccumulator w)
               (rendered w) None (completed w)).

(** The parent's state changes: it renders, and passes these props, with a
    new [onPageTurnComplete] closure. *)
Definition setShell (f : Props -> nat -> Props) : M unit := fun w =>
  let p := f (shell w) (fresh w) in
  (tt, mkWorld (mkProps (content_pages_length p) (gestureSignal p)
                        (isGestureActive p) (fresh w) (currentPage p))
               (S (fresh w)) (state w)
               (mkFiber true (rotationQueue (fiber w))
                        (directionQueue (fiber w))
                        (alternateLanes (fiber w)))
               (dragAccumulator w) (rendered w) (animationFrame w)
               (completed w)).

(** A call of [onPageTurnComplete(newPage)]: both parents answer with
    [setCurrentPage(newPage)], and render if that changes their page.  What
    [BookView] asks of its own parent with [onChapterQuiz] is not followed;
    a render it leads to is a [ParentRender]. *)
Definition callPageTurnComplete (newPage : Z) : M unit := fun w =>
  let w1 := mkWorld (shell w) (fresh w) (state w) (fiber w)
                    (dragAccumulator w) (rendered w) (animationFrame w)
                    (completed w ++ [newPage]) in
  if (newPage =? currentPage (shell w))%Z then (tt, w1)
  else
    setShell (fun p _ => mkProps (content_pages_length p) (gestureSignal p)
                                 (isGestureActive p) (onPageTurnComplete p)
                                 newPage) w1.

Definition Direction_eqb (a b : Direction) : bool :=
  match a, b with
  | next, next | prev, prev => true
  | _, _ => false
  end.

Definition turning_eqb (a b : option Direction) : bool :=
  match a, b with
  | Some x, Some y => Direction_eqb x y
  | None, None => true
  | _, _ => false
  end.

(** ** The state setters *)

(** An update is pending. *)
Definition hasUpdates (w : World) : bool :=
  match rotationQueue (fiber w), directionQueue (fiber w) with
  | [], [] => false
  | _, _ => true
  end.

(** React's test for computing an update at the call:
    [fiber.lanes === NoLanes &&
     (alternate === null || alternate.lanes === NoLanes)]. *)
Definition noLanes (w : World) : bool :=
  negb (hasUpdates w) && negb (alternateLanes (fiber w)).

Definition enqueueRotation (u : RotationUpdate) : M unit := fun w =>
  setFiber (mkFiber (pendingProps (fiber w))
                    (rotationQueue (fiber w) ++ [u])
                    (directionQueue (fiber w))
                    (alternateLanes (fiber w))) w.

Definition enqueueDirection (d : option Direction) : M unit := fun w =>
  setFiber (mkFiber (pendingProps (fiber w))
                    (rotationQueue (fiber w))
                    (directionQueue (fiber w) ++ [d])
                    (alternateLanes (fiber w))) w.

(** [setCurrentRotation(v)] and [setTurningDirection(d)], called from an
    effect or a callback. *)
Definition setCurrentRotation (v : Q) : M unit := fun w =>
  if noLanes w && Qeq_bool v (currentRotation (state w)) then (tt, w)
  else enqueueRotation (Value v) w.

Definition setTurningDirection (d : option Direction) : M unit := fun w =>
  if noLanes w && turning_eqb d (turningDirection (state w)) then (tt, w)
  else enqueueDirection d w.

(** ** The three effects *)

(** "Initialize or reset when page changes strictly via logic". *)
Definition resetEffect : M unit :=
  setDragAccumulator 0 ;;
  setCurrentRotation 0 ;;
  setTurningDirection None.

(** The rotation a drag shows for a given accumulator. *)
Definition dragRotation (d : Direction) (acc : Q) : Q :=
  match d with
  | next =>
      let rot := Qmax (-180) (Qmin 0 acc) in
      let progress := Qabs rot / 180 in
      let eased := 1 - (1 - progress) ^ 3 in
      -180 * eased
  | prev =>
      let rot := Qmax (-180) (Qmin 0 (-180 + acc)) in
      let progress := (180 + rot) / 180 in
      let eased := 1 - (1 - progress) ^ 3 in
      -180 + 180 * eased
  end.

(** "Handle Gesture Physics". *)
Definition gestureEffect (p : Props) (s : State) : M unit :=
  if negb (isGestureActive p) then ret tt
  else
    let delta := value (gestureSignal p) in
    if Qeq_bool delta 0 then ret tt
    else
      let sensitivity := 1 in
      acc0 <- getDragAccumulator ;;
      setDragAccumulator (acc0 + delta * sensitivity) ;;
      acc <- getDragAccumulator ;;
      match turningDirection s with
      | None =>
          if Qle_bool acc (-10)
             && (currentPage p <? content_pages_length p - 1)%Z
          then setTurningDirection (Some next)
          else if Qle_bool 10 acc && (0 <? currentPage p)%Z
          then setTurningDirection (Some prev)
          else ret tt
      | Some d => setCurrentRotation (dragRotation d acc)
      end.

(** The target of the snap: [(targetRot, targetPage)]. *)
Definition snapTarget (d : Direction) (rot : Q) (page : Z) : Q * Z :=
  let threshold := -90 in
  match d with
  | next => if Qltb rot threshold then (-180, (page + 1)%Z) else (0, page)
  | prev => if Qltb threshold rot then (0, (page - 1)%Z) else (-180, page)
  end.

(** The updater [animateSnap] passes to [setCurrentRotation], without its
    side effects. *)
Definition snapStep (target prevRot : Q) : Q :=
  let diff := target - prevRot in
  if Qltb (Qabs diff) 2 then target else prevRot + diff * 0.22.

(** The updater function [prev => ...] of [animateSnap], with its side
    effects.  [setDirection] is what [setTurningDirection] does where the
    function runs: at the call of [setCurrentRotation], or in a render.  The
    page-flip sound played before [onPageTurnComplete] is left out. *)
Definition snapUpdater (setDirection : option Direction -> M unit)
    (a : Snap) (prevRot : Q) : M Q :=
  let diff := targetRot a - prevRot in
  if Qltb (Qabs diff) 2 then
    (if Qeq_bool (targetRot a) (-180) && Direction_eqb (snapDirection a) next
     then callPageTurnComplete (targetPage a)
     else if Qeq_bool (targetRot a) 0 && Direction_eqb (snapDirection a) prev
     then callPageTurnComplete (targetPage a)
     else setDirection None ;; setDragAccumulator 0) ;;
    ret (targetRot a)
  else ret (prevRot + diff * 0.22).

(** [setCurrentRotation(prev => ...)], called from an effect or a callback:
    with no lanes the updater function runs now, on the state of the last
    render, and what it returns is queued unless it is that state; otherwise
    the function itself is queued. *)
Definition setCurrentRotationWith (a : Snap) : M unit := fun w =>
  if noLanes w then
    (v <- snapUpdater setTurningDirection a (currentRotation (state w)) ;;
     if Qeq_bool v (currentRotation (state w)) then ret tt
     else enqueueRotation (Value v)) w
  else enqueueRotation (Updater a) w.

(** [animateSnap]: the update of the rotation, then the request of the next
    frame. *)
Definition animateSnap (a : Snap) : M unit :=
  setCurrentRotationWith a ;;
  if Qltb 0.5 (Qabs (targetRot a - snapRotation a))
  then requestAnimationFrame a
  else ret tt.

(** "Handle Gesture Release (Snap)". *)
Definition snapEffect (p : Props) (s : State) : M unit :=
  match turningDirection s with
  | Some d =>
      if negb (isGestureActive p) then
        let '(tr, tp) := snapTarget d (currentRotation s) (currentPage p) in
        animateSnap (mkSnap tr tp d (currentRotation s))
      else ret tt
  | None => ret tt
  end.

(** ** Dependency arrays *)

Definition resetDeps (a b : Props * State) : bool :=
  (currentPage (fst a) =? currentPage (fst b))%Z.

Definition gestureDeps (a b : Props * State) : bool :=
  Nat.eqb (addr (gestureSignal (fst a))) (addr (gestureSignal (fst b)))
  && Bool.eqb (isGestureActive (fst a)) (isGestureActive (fst b))
  && (currentPage (fst a) =? currentPage (fst b))%Z
  && (content_pages_length (fst a) =? content_pages_length (fst b))%Z
  && turning_eqb (turningDirection (snd a)) (turningDirection (snd b)).

Definition snapDeps (a b : Props * State) : bool :=
  Bool.eqb (isGestureActive (fst a)) (isGestureActive (fst b))
  && turning_eqb (turningDirection (snd a)) (turningDirection (snd b))
  && Qeq_bool (currentRotation (snd a)) (currentRotation (snd b))
  && (currentPage (fst a) =? currentPage (fst b))%Z
  && Nat.eqb (onPageTurnComplete (fst a)) (onPageTurnComplete (fst b)).

(** Whether an effect runs after the commit of render [c]. *)
Definition runs (same : Props * State -> Props * State -> bool)
    (w : World) (c : Props * State) : bool :=
  match rendered w with
  | None => true
  | Some c0 => negb (same c0 c)
  end.

Definition when (b : bool) (m : M unit) : M unit := if b then m else ret tt.

Definition setRendered (c : Props * State) : M unit := fun w =>
  (tt, mkWorld (shell w) (fresh w) (state w) (fiber w) (dragAccumulator w)
               (Some c) (animationFrame w) (completed w)).

(** ** Transitions *)

(** The queue of [currentRotation] applied to the state [prevRot].  An
    updater function runs here; what it passes to [setTurningDirection] joins
    the queue of the direction, which the render applies next. *)
Fixpoint reduceRotation (us : list RotationUpdate) (prevRot : Q) : M Q :=
  match us with
  | [] => ret prevRot
  | Value v :: rest => reduceRotation rest v
  | Updater a :: rest =>
      v <- snapUpdater enqueueDirection a prevRot ;;
      reduceRotation rest v
  end.

Definition State_eqb (a b : State) : bool :=
  Qeq_bool (currentRotation a) (currentRotation b)
  && turning_eqb (turningDirection a) (turningDirection b).

(** React renders the component with the props the parent has passed: the
    two [useState] calls apply their queues.  The alternate fiber keeps its
    lanes when updates were pending and the render received an update, that
    is, new props or a changed state. *)
Definition render : M (Props * State) := fun w =>
  let p := shell w in
  (setPendingProps false ;;
   rot <- reduceRotation (rotationQueue (fiber w))
                         (currentRotation (state w)) ;;
   ds <- getDirectionQueue ;;
   let s := mkState rot (last ds (turningDirection (state w))) in
   let didReceiveUpdate :=
     pendingProps (fiber w) || negb (State_eqb s (state w)) in
   setState s ;;
   setQueues [] [] (hasUpdates w && didReceiveUpdate) ;;
   ret (p, s)) w.

(** React has the component to render. *)
Definition scheduled (w : World) : bool :=
  pendingProps (fiber w) || hasUpdates w.

(** React renders the component if it has to, commits, and runs the
    effects. *)
Definition commit (w : World) : World :=
  if scheduled w then
    exec (c <- render ;;
          when (runs snapDeps w c) cancelAnimationFrame ;;
          when (runs resetDeps w c) resetEffect ;;
          when (runs gestureDeps w c) (gestureEffect (fst c) (snd c)) ;;
          when (runs snapDeps w c) (snapEffect (fst c) (snd c)) ;;
          setRendered c) w
  else w.

Inductive Event : Type :=
| Gesture (delta : Q) (i : Z)  (* setGestureSignal({value, id}); setIsGestureActive(true) *)
| GestureEnd                   (* setIsGestureActive(false) *)
| ParentRender                 (* the parent renders for a reason of its own *)
| Commit                       (* React renders and commits *)
| AnimationFrame.              (* the browser runs the requested callback *)

Definition step (e : Event) (w : World) : World :=
  match e with
  | Gesture delta i =>
      exec (setShell (fun p n =>
              mkProps (content_pages_length p) (mkSignal delta i n) true
                      (onPageTurnComplete p) (currentPage p))) w
  | GestureEnd =>
      exec (setShell (fun p _ =>
              mkProps (content_pages_length p) (gestureSignal p) false
                      (onPageTurnComplete p) (currentPage p))) w
  | ParentRender => exec (setShell (fun p _ => p)) w
  | Commit => commit w
  | AnimationFrame =>
      match animationFrame w with
      | Some a => exec (cancelAnimationFrame ;; animateSnap a) w
      | None => w
      end
  end.

Definition steps (es : list Event) (w : World) : World :=
  fold_left (fun w e => step e w) es w.

(** The component before its first render, on page [page] of a book of [len]
    pages. *)
Definition mount (len page : Z) : World :=
  mkWorld (mkProps len (mkSignal 0 0 0%nat) false 1%nat page) 2%nat
          (mkState 0 None) (mkFiber true [] [] false) 0 None None [].

(** React renders until nothing is left to render: [n] commits in a row. *)
Definition settle (n : nat) (w : World) : World := Nat.iter n commit w.

(** Nothing is left to render, and no animation frame is pending. *)
Definition quiescent (w : World) : Prop :=
  commit w = w /\ animationFrame w = None.

(** [triggerFlip] of BookView.tsx, as the animator sees it: a gesture of
    -190 or 190 with the next id, React rendering until it is done, the
    timer setting the gesture inactive 120ms later, and React rendering
    again. *)
Definition triggerFlip (d : Direction) (w : World) : World :=
  step (Gesture (match d with next => -190 | prev => 190 end)
                (id (gestureSignal (shell w)) + 1)) w.

Definition flip (d : Direction) (w : World) : World :=
  settle 5 (step GestureEnd (settle 5 (triggerFlip d w))).

(** The animator at rest on page [page] of a book of [len] pages. *)
Definition opened (len page : Z) : World := settle 2 (mount len page).

(** ** Predicates and worlds the properties are stated with *)

(** The interval of the rotation. *)
Definition in_range (q : Q) : Prop := -180 <= q /\ q <= 0.

(** An effect body preserves a property of the world. *)
Definition preserves (J : World -> Prop) {A : Type} (m : M A) : Prop :=
  forall w, J w -> J (snd (m w)).

(** A queued update of the rotation is as the clamp wants it: a value in the
    interval, or an updater function whose target is an end of it. *)
Definition good_update (u : RotationUpdate) : Prop :=
  match u with
  | Value v => in_range v
  | Updater a => targetRot a = 0 \/ targetRot a = -180
  end.

(** The rotation of the state, that of the last render, the queued updates
    and the target of a requested animation frame are all as the clamp wants
    them. *)
Definition good (w : World) : Prop :=
  in_range (currentRotation (state w))
  /\ (forall c, rendered w = Some c -> in_range (currentRotation (snd c)))
  /\ (forall a, animationFrame w = Some a ->
       targetRot a = 0 \/ targetRot a = -180)
  /\ Forall good_update (rotationQueue (fiber w)).

(** The guard of the gesture effect: the book has a page in direction [d]
    from the page of the props [p]. *)
Definition allowed (d : Direction) (p : Props) : Prop :=
  match d with
  | next => (currentPage p < content_pages_length p - 1)%Z
  | prev => (0 < currentPage p)%Z
  end.

(** Every direction in the queue of [turningDirection] satisfies [K]. *)
Definition queued (K : Direction -> Prop) (w : World) : Prop :=
  forall d, In (Some d) (directionQueue (fiber w)) -> K d.

(** The state is [s0] and the directions queued satisfy [K]. *)
Definition kept (K : Direction -> Prop) (s0 : State) (w : World) : Prop :=
  state w = s0 /\ queued K w.

(** An effect body preserves [J] and returns a value with property [P]. *)
Definition yields (J : World -> Prop) {A : Type} (P : A -> Prop) (m : M A)
  : Prop :=
  forall w, J w -> J (snd (m w)) /\ P (fst (m w)).

(** Powers of the damping factor. *)
Fixpoint damp (k : nat) (d : Q) : Q :=
  match k with
  | O => d
  | S k' => damp k' (0.78 * d)
  end.

(** The snap is under way: the gesture is inactive, a turn in direction [d]
    shows rotation [r], its snap goes to [t] (and to page [tp]), and the snap
    effect has queued its update for this render. *)
Definition snapping (d : Direction) (t : Q) (tp : Z) (r : Q) (w : World)
  : Prop :=
  isGestureActive (shell w) = false
  /\ state w = mkState r (Some d)
  /\ rendered w = Some (shell w, state w)
  /\ rotationQueue (fiber w) = [Updater (mkSnap t tp d r)]
  /\ directionQueue (fiber w) = []
  /\ snapTarget d r (currentPage (shell w)) = (t, tp)
  /\ in_range r.

(** Nothing is left to render: the last render shows the props and the
    state, no work waits, and no animation frame is pending. *)
Definition settled (w : World) : Prop :=
  rendered w = Some (shell w, state w)
  /\ scheduled w = false
  /\ animationFrame w = None.

(** From [w] React has come to rest in [w']: [onPageTurnComplete] was called
    with [calls], the parent is on page [page], the gesture is inactive, the
    direction is null, the rotation is [rot] and the accumulator is empty. *)
Definition landed (calls : list Z) (page : Z) (rot : Q) (w w' : World)
  : Prop :=
  settled w'
  /\ completed w' = completed w ++ calls
  /\ currentPage (shell w') = page
  /\ content_pages_length (shell w') = content_pages_length (shell w)
  /\ isGestureActive (shell w') = false
  /\ turningDirection (state w') = None
  /\ currentRotation (state w') == rot
  /\ dragAccumulator w' = 0.

(** A turn in direction [d] shows rotation [r]: the last render had the
    gesture active on the page the parent is on, and no update is queued. *)
Definition turning (d : Direction) (r : Q) (w : World) : Prop :=
  (exists c0, rendered w = Some c0
              /\ isGestureActive (fst c0) = true
              /\ currentPage (fst c0) = currentPage (shell w))
  /\ state w = mkState r (Some d)
  /\ rotationQueue (fiber w) = []
  /\ directionQueue (fiber w) = []
  /\ in_range r.

(** The drag of the witnesses: page 2 of a 5-page book, the gesture active,
    the direction 'next' and the rotation [r] rendered. *)
Definition dragged (r : Q) : World :=
  let q := mkProps 5 (mkSignal (-30) 7 3%nat) true 4%nat 2 in
  mkWorld q 5%nat (mkState r (Some next)) (mkFiber false [] [] true) (-100)
          (Some (q, mkState r (Some next))) None [].

(** ** Tactics that evaluate a commit *)

(** Evaluation that leaves the numbers as they are. *)
Ltac crunch :=
  cbn -[Qltb Qabs Qplus Qminus Qmult Qeq_bool Qle_bool Qmax Qmin Qdiv Qpower
        dragRotation snapTarget Z.sub Z.add Z.ltb Z.eqb Nat.eqb].

(** Comparisons of closed numbers. *)
Ltac mentions_hyp t :=
  match goal with
  | x : _ |- _ => lazymatch t with context [x] => idtac end
  end.

Ltac is_closed t := tryif mentions_hyp t then fail else idtac.

Ltac numbers :=
  repeat match goal with
  | |- context [Qltb ?a ?b] =>
      is_closed (Qltb a b);
      let v := eval vm_compute in (Qltb a b) in
      change (Qltb a b) with v
  | |- context [Qeq_bool ?a ?b] =>
      is_closed (Qeq_bool a b);
      let v := eval vm_compute in (Qeq_bool a b) in
      change (Qeq_bool a b) with v
  | |- context [Qle_bool ?a ?b] =>
      is_closed (Qle_bool a b);
      let v := eval vm_compute in (Qle_bool a b) in
      change (Qle_bool a b) with v
  end.

(** Comparisons of a value with itself. *)
Ltac same :=
  rewrite ?Z.eqb_refl, ?Nat.eqb_refl;
  repeat match goal with
  | |- context [Qeq_bool ?a ?a] =>
      replace (Qeq_bool a a) with true
        by (symmetry; apply Qeq_bool_iff; reflexivity)
  | |- context [Direction_eqb ?d ?d] =>
      replace (Direction_eqb d d) with true by (destruct d; reflexivity)
  end.

Ltac unfold_effects :=
  unfold scheduled, hasUpdates, noLanes, exec, render, runs, when,
    bind, ret, getDirectionQueue, getDragAccumulator, setDragAccumulator,
    setPendingProps, setQueues,
    setState, setFiber, setRendered, setShell, cancelAnimationFrame,
    requestAnimationFrame, enqueueRotation, enqueueDirection,
    setCurrentRotation, setTurningDirection, setCurrentRotationWith,
    animateSnap, snapEffect, resetEffect, gestureEffect, snapUpdater,
    callPageTurnComplete, snapDeps, resetDeps, gestureDeps, State_eqb.

(** The tests the hypotheses decide. *)
Ltac decided :=
  repeat match goal with
  | H : _ = true |- _ => rewrite H
  | H : _ = false |- _ => rewrite H
  | H : snapTarget _ _ _ = _ |- _ => rewrite H
  | H : forall p : Z, snapTarget _ _ _ = _ |- _ => rewrite H
  end.

Ltac simplify :=
  repeat (progress (unfold_effects; crunch; same; numbers; decided;
                    rewrite ?orb_true_r, ?orb_false_r, ?andb_true_r,
                      ?andb_false_r)).

(** One commit of an explicit world, evaluated. *)
Ltac commit_once :=
  match goal with
  | |- context [commit ?W] =>
      lazymatch W with
      | context [commit _] => fail
      | _ => idtac
      end;
      let E := fresh "E" in
      eassert (E : commit W = _);
      [ unfold commit; simplify;
        lazymatch goal with
        | |- mkWorld _ _ _ _ _ _ _ _ = _ => reflexivity
        end
      | rewrite E; clear E ]
  end.

(** The conjuncts of [landed], for an explicit world. *)
Ltac landed_done :=
  unfold landed, settled;
  cbn [shell state rendered fiber completed animationFrame dragAccumulator
       currentPage content_pages_length isGestureActive turningDirection
       currentRotation];
  repeat match goal with |- _ /\ _ => split end;
  try reflexivity;
  try (rewrite <- !app_assoc; reflexivity);
  try (apply Qeq_bool_iff; assumption).

Ltac open_snapping w :=
  destruct w as [[len sig act cb page] fr st [pp rq dq al] acc rd af cp];
  cbn [shell state rendered fiber rotationQueue directionQueue
       isGestureActive currentPage] in *;
  subst act st rd rq dq.

Ltac open_release w c0 :=
  destruct w as [[len sig act cb page] fr st [pp rq dq al] acc rd af cp];
  destruct c0 as [[len0 sig0 act0 cb0 page0] s0];
  cbn [shell state rendered fiber rotationQueue directionQueue
       isGestureActive currentPage fst snd] in *;
  subst act0 page0 st rd rq dq.

Ltac release_start w c0 :=
  open_release w c0;
  unfold step, exec, setShell;
  cbn [snd shell fresh state fiber rotationQueue directionQueue
       alternateLanes dragAccumulator rendered animationFrame completed
       content_pages_length gestureSignal isGestureActive currentPage
       onPageTurnComplete].

Ltac open_idle w :=
  destruct w as [[len sig act cb page] fr [rot dir] [pp rq dq al] acc rd af
                 cp];
  cbn [shell state rendered fiber rotationQueue directionQueue pendingProps
       isGestureActive currentPage turningDirection animationFrame
       dragAccumulator completed fresh content_pages_length gestureSignal
       currentRotation] in *.

Ltac gesture_start :=
  unfold step, exec, setShell;
  cbn [snd shell fresh state fiber rotationQueue directionQueue
       alternateLanes dragAccumulator rendered animationFrame completed
       content_pages_length gestureSignal isGestureActive currentPage
       onPageTurnComplete].

End Book3D.


(* ================================================================== *)
(** * The other inputs of BookView.tsx: wheel, keyboard and touch *)
(* ================================================================== *)

Module BookViewInput.
Import BookView.
Import String.StringSyntax.

(** [touchStartRef.current]. *)
Record TouchStart : Type := mkTouchStart {
  touch_x : Q;
  touch_y : Q;
  touch_time : Q
}.

(** The refs of the component: those of [loop] and [touchStartRef]. *)
Record Controller : Type := mkController {
  refs : Refs;
  touchStartRef : option TouchStart
}.

Definition mounted : Controller := mkController initial None.

(** [handleWheel]: [now] is [performance.now()], [deltaY] is [e.deltaY]. *)
Definition handleWheel (now deltaY : Q) (r : Refs) : Refs * option Direction :=
  if Qltb now (cooldownRef r) then (r, None)
  else if Qltb 30 (Qabs deltaY) then
    (set_cooldown r (now + 800), Some (if Qltb 0 deltaY then next else prev))
  else (r, None).

Local Open Scope string_scope.

(** [handleKey]: [key] is [e.key]. *)
Definition handleKey (key : String.string) : option Direction :=
  let pressed (name : String.string) := String.eqb key name in
  if pressed "ArrowRight" || pressed "ArrowDown" then Some next
  else if pressed "ArrowLeft" || pressed "ArrowUp" then Some prev
  else None.

Local Close Scope string_scope.

(** [handleTouchStart]: the first of [e.touches] and [performance.now()]. *)
Definition handleTouchStart (clientX clientY now : Q) : option TouchStart :=
  Some (mkTouchStart clientX clientY now).

(** [handleTouchEnd]: the first of [e.changedTouches], [performance.now()]
    and [window.innerWidth]. *)
Definition handleTouchEnd (clientX clientY now innerWidth : Q)
    (start : option TouchStart) : option TouchStart * option Direction :=
  match start with
  | None => (None, None)
  | Some s =>
      let dx := clientX - touch_x s in
      let dy := clientY - touch_y s in
      let dt := now - touch_time s in
      (None,
       if Qltb 50 (Qabs dx) && Qltb (Qabs dy * 2) (Qabs dx) && Qltb dt 500 then
         if Qltb 0 dx then Some prev else Some next
       else if Qltb (Qabs dx) 10 && Qltb (Qabs dy) 10 && Qltb dt 300 then
         let width := innerWidth in
         if Qltb clientX (width * 0.2) then Some prev
         else if Qltb (width * 0.8) clientX then Some next
         else None
       else None)
  end.

(** What the component reacts to. *)
Inductive Input : Type :=
| AnimationFrame (f : Frame)
| Wheel (now deltaY : Q)
| KeyDown (key : String.string)
| TouchStarted (clientX clientY now : Q)
| TouchEnded (clientX clientY now innerWidth : Q).

(** One input: the new refs and the flip it triggers, if any. *)
Definition handle (i : Input) (c : Controller) : Controller * option Direction :=
  match i with
  | AnimationFrame f =>
      let '(r, out) := loop f (refs c) in (mkController r (touchStartRef c), out)
  | Wheel now deltaY =>
      let '(r, out) := handleWheel now deltaY (refs c) in
      (mkController r (touchStartRef c), out)
  | KeyDown key => (c, handleKey key)
  | TouchStarted x y now => (mkController (refs c) (handleTouchStart x y now), None)
  | TouchEnded x y now w =>
      let '(t, out) := handleTouchEnd x y now w (touchStartRef c) in
      (mkController (refs c) t, out)
  end.

(** A sequence of inputs: the refs at the end and the flips triggered, oldest
    first. *)
Fixpoint handleAll (inputs : list Input) (c : Controller)
  : Controller * list Direction :=
  match inputs with
  | [] => (c, [])
  | i :: rest =>
      let '(c1, out) := handle i c in
      let '(c2, outs) := handleAll rest c1 in
      (c2, match out with Some d => d :: outs | None => outs end)
  end.

Definition flips (inputs : list Input) (c : Controller) : list Direction :=
  snd (handleAll inputs c).

(** The inputs the cooldown gates, with their time. *)
Definition gated (i : Input) : option Q :=
  match i with
  | AnimationFrame f => Some (now f)
  | Wheel t _ => Some t
  | _ => None
  end.

Definition is_gated (i : Input) : bool :=
  match gated i with Some _ => true | None => false end.

(** A gated input comes before the end of the cooldown [c]. *)
Definition before (c : Q) (i : Input) : Prop :=
  match gated i with Some t => t < c | None => True end.

Definition is_touch_start (i : Input) : bool :=
  match i with TouchStarted _ _ _ => true | _ => false end.

Definition is_touch_end (i : Input) : bool :=
  match i with TouchEnded _ _ _ _ => true | _ => false end.

(** The flips triggered by the touch ends of a sequence of inputs. *)
Fixpoint touchFlips (inputs : list Input) (c : Controller) : nat :=
  match inputs with
  | [] => O
  | i :: rest =>
      ((if is_touch_end i then
          match snd (handle i c) with Some _ => 1 | None => 0 end
        else 0)
       + touchFlips rest (fst (handle i c)))%nat
  end.

(** Whether a touch start is stored. *)
Definition pending (c : Controller) : nat :=
  match touchStartRef c with Some _ => 1%nat | None => 0%nat end.

End BookViewInput.

(** ** The orientation and swipe modes of the loop *)

Module BookViewModes.
Import BookView.

(** A frame of the orientation mode that shows a fist, palm or back. *)
Definition fist_held (f : Frame) : Prop :=
  flipMode f = orientation /\ HAND_FIST f = true /\ HAND_ORIENT f <> neutral.

(** A frame of the swipe mode with the pointer in [a, a + 120]. *)
Definition within (a x : Q) : Prop := a <= x /\ x <= a + 120.

Definition swipe_within (a : Q) (f : Frame) : Prop :=
  flipMode f = swipe /\ within a (pointer_x f).

(** The swipe in progress, if there is one, started in [a, a + 120]. *)
Definition anchored (a : Q) (r : Refs) : Prop :=
  active (swipeStateRef r) = true ->
  forall s, startX (swipeStateRef r) = Some s -> within a s.

End BookViewModes.

(* ================================================================== *)
(** * The pages of the book: buildBook of BookView.tsx *)
(* ================================================================== *)

Module BookPages.
Local Open Scope nat_scope.

(** A JavaScript string, as the sequence of its UTF-16 code units; its
    [length] is the length of the list. *)
Definition Str : Type := list N.

(** The code units of an ASCII literal. *)
Definition str (s : String.string) : Str :=
  map Ascii.N_of_ascii (String.list_ascii_of_string s).

(** [Boolean(s)] for a string: only the empty string is falsy. *)
Definition truthy (s : Str) : bool :=
  match s with [] => false | _ :: _ => true end.

(** White space and line terminators: what [trim] strips and [\s] matches. *)
Definition isSpace (c : N) : bool :=
  existsb (N.eqb c)
    [9; 10; 11; 12; 13; 32; 160; 5760; 8232; 8233; 8239; 8287; 12288; 65279]%N
  || (8192 <=? c)%N && (c <=? 8202)%N.

Fixpoint trimStart (s : Str) : Str :=
  match s with
  | [] => []
  | c :: rest => if isSpace c then trimStart rest else s
  end.

Definition trimEnd (s : Str) : Str := rev (trimStart (rev s)).

Definition trim (s : Str) : Str := trimEnd (trimStart s).

Fixpoint startsWith (prefix s : Str) : bool :=
  match prefix, s with
  | [], _ => true
  | _ :: _, [] => false
  | a :: prefix', b :: s' => (a =? b)%N && startsWith prefix' s'
  end.

(** [\d] and [[.!?]]. *)
Definition isDigit (c : N) : bool := (48 <=? c)%N && (c <=? 57)%N.
Definition endsSentence (c : N) : bool :=
  (c =? 46)%N || (c =? 33)%N || (c =? 63)%N.

(** [p.match(/^\d+\./)]: digits, at least one, and then a dot, at the start
    of the string. *)
Fixpoint digitsThenDot (s : Str) : bool :=
  match s with
  | [] => false
  | c :: rest => if isDigit c then digitsThenDot rest else (c =? 46)%N
  end.

Definition matchNumbered (s : Str) : bool :=
  match s with
  | [] => false
  | c :: rest => isDigit c && digitsThenDot rest
  end.

(** [s.split(/\n\n/)]: the pieces between the occurrences of two line feeds,
    found from left to right without overlap; [piece] holds the piece being
    read, in reverse. *)
Fixpoint splitBlankLines (s piece : Str) : list Str :=
  match s with
  | [] => [rev piece]
  | c :: rest =>
      match rest with
      | c' :: rest' =>
          if (c =? 10)%N && (c' =? 10)%N
          then rev piece :: splitBlankLines rest' []
          else splitBlankLines rest (c :: piece)
      | [] => splitBlankLines rest (c :: piece)
      end
  end.

(** [para.split(/(?<=[.!?])\s+/)]: a separator is a run of white space that
    starts right after '.', '!' or '?', and takes all the white space that
    follows.  The scanner is after such a mark, inside a separator, or
    neither. *)
Inductive Scan : Type := plain | afterMark | inSeparator.

Definition scanned (c : N) : Scan :=
  if endsSentence c then afterMark else plain.

Fixpoint splitSentences (s piece : Str) (at_ : Scan) : list Str :=
  match s with
  | [] => [rev piece]
  | c :: rest =>
      match at_ with
      | inSeparator =>
          if isSpace c then splitSentences rest [] inSeparator
          else splitSentences rest [c] (scanned c)
      | afterMark =>
          if isSpace c then rev piece :: splitSentences rest [] inSeparator
          else splitSentences rest (c :: piece) (scanned c)
      | plain => splitSentences rest (c :: piece) (scanned c)
      end
  end.

(** The part of [Level] (src/types.ts) that [buildBook] reads. *)
Inductive Content : Type :=
| Text (s : Str)
| Points (ps : list Str).

Record Level : Type := mkLevel {
  level_title : Str;
  level_content : Content
}.

Inductive PageType : Type := chapter_title | text.

Record BookPage : Type := mkPage {
  pageNumber : nat;
  title : Str;
  content : list Str;
  type : PageType
}.

Record BookContent : Type := mkBook {
  book_title : Str;
  author : Str;
  pages : list BookPage
}.

(** [pages] and [pageNo] while the book is built. *)
Record Builder : Type := mkBuilder {
  built : list BookPage;
  pageNo : nat
}.

(** [pages.push({ pageNumber: pageNo++, title, content, type })]. *)
Definition push (b : Builder) (t : Str) (c : list Str) (ty : PageType)
    : Builder :=
  mkBuilder (built b ++ [mkPage (pageNo b) t c ty]) (S (pageNo b)).

Definition maxCharsPerPage : nat := 600.

(** [lvl.content && !Array.isArray(lvl.content) &&
     lvl.content.trim().startsWith('<')]. *)
Definition isHtml (c : Content) : bool :=
  match c with
  | Text s => truthy s && startsWith [60%N] (trim s)
  | Points _ => false
  end.

(** The marker of a point: itself when it starts with a bullet, a dash or a
    number and a dot, and otherwise after '• '. *)
Definition bullet (p : Str) : Str :=
  if startsWith [8226%N] p || startsWith [45%N] p || matchNumbered p
  then p else [8226; 32]%N ++ p.

Definition paras (c : Content) : list Str :=
  match c with
  | Points ps => map bullet (filter truthy ps)
  | Text s => filter truthy (map trim (splitBlankLines s []))
  end.

(** One sentence of a long paragraph: state [chunk] and [finalParas]. *)
Definition chunkStep (st : Str * list Str) (sentence : Str)
    : Str * list Str :=
  let (chunk, finalParas) := st in
  if length (chunk ++ sentence) <=? maxCharsPerPage then
    (chunk ++ (if truthy chunk then [32%N] else []) ++ sentence, finalParas)
  else
    (sentence, if truthy chunk then finalParas ++ [chunk] else finalParas).

(** One paragraph: kept when it fits, and else cut at sentence ends. *)
Definition splitLong (finalParas : list Str) (para : Str) : list Str :=
  if length para <=? maxCharsPerPage then finalParas ++ [para]
  else
    let (chunk, finalParas') :=
      fold_left chunkStep (splitSentences para [] plain) ([], finalParas) in
    if truthy chunk then finalParas' ++ [chunk] else finalParas'.

(** The state of the grouping of paragraphs into pages. *)
Record Group : Type := mkGroup {
  builder : Builder;
  currentPageContent : list Str;
  currentLength : nat
}.

Definition groupStep (t : Str) (g : Group) (para : Str) : Group :=
  let g' :=
    if (0 <? length (currentPageContent g))
       && (maxCharsPerPage <? currentLength g + length para)
    then mkGroup (push (builder g) t (currentPageContent g) text) [] 0
    else g in
  mkGroup (builder g') (currentPageContent g' ++ [para])
          (currentLength g' + length para).

(** The body of [levels.forEach]. *)
Definition addLevel (b : Builder) (lvl : Level) : Builder :=
  let b := push b (level_title lvl) [] chapter_title in
  if isHtml (level_content lvl) then
    match level_content lvl with
    | Text s => push b (level_title lvl) [s] text
    | Points _ => b
    end
  else
    let finalParas := fold_left splitLong (paras (level_content lvl)) [] in
    let g := fold_left (groupStep (level_title lvl)) finalParas
                       (mkGroup b [] 0) in
    if 0 <? length (currentPageContent g)
    then push (builder g) (level_title lvl) (currentPageContent g) text
    else builder g.

Local Open Scope string_scope.
Import String.StringSyntax.

Definition buildBook (levels : list Level) (bookTitle : option Str)
    : BookContent * nat :=
  let b := fold_left addLevel levels (mkBuilder [] 1) in
  let given := match bookTitle with Some t => truthy t | None => false end in
  (mkBook
     (match bookTitle with
      | Some t => if truthy t then t
                  else str "North Star " ++ [8211%N] ++ str " Living Book"
      | None => str "North Star " ++ [8211%N] ++ str " Living Book"
      end)
     (if given then str "Your Document" else str "SAP")
     (built b),
   0).

Local Close Scope string_scope.

(** ** What the properties speak of *)

(** The pages of the book built from [levels]. *)
Definition book_pages (levels : list Level) (bookTitle : option Str)
    : list BookPage :=
  pages (fst (buildBook levels bookTitle)).

(** The paragraphs a level is to show. *)
Definition paragraphs (lvl : Level) : list Str :=
  match level_content lvl with
  | Text s =>
      if isHtml (Text s) then [s]
      else fold_left splitLong (paras (Text s)) []
  | Points ps => fold_left splitLong (paras (Points ps)) []
  end.

(** The chunks a long paragraph is cut into. *)
Definition chunks (para : Str) : list Str :=
  splitLong [] para.

Definition total (ps : list Str) : nat := list_sum (map (@length N) ps).

Definition is_chapter_title (p : BookPage) : bool :=
  match type p with chapter_title => true | text => false end.

Definition visible (s : Str) : Str := filter (fun c => negb (isSpace c)) s.

(** Text pages numbered from [n] on, one per group of paragraphs. *)
Fixpoint textPages (n : nat) (t : Str) (groups : list (list Str))
    : list BookPage :=
  match groups with
  | [] => []
  | c :: rest => mkPage n t c text :: textPages (S n) t rest
  end.

(** A page's paragraphs fit: there is one only, or they have at most
    [maxCharsPerPage] code units together. *)
Definition fits (c : list Str) : Prop :=
  length c = 1 \/ total c <= maxCharsPerPage.

(** What a level is made of, before white space is dropped: its text, or its
    points with their markers. *)
Definition source (lvl : Level) : Str :=
  match level_content lvl with
  | Text s => s
  | Points ps => concat (map bullet (filter truthy ps))
  end.

(** [pieces.join(sep)]. *)
Definition join (sep : Str) (pieces : list Str) : Str :=
  match pieces with
  | [] => []
  | p :: rest => p ++ flat_map (fun q => sep ++ q) rest
  end.

(** Whether a string holds two line feeds in a row. *)
Fixpoint hasBlankLine (s : Str) : bool :=
  match s with
  | [] => false
  | c :: rest =>
      match rest with
      | c' :: _ => (c =? 10)%N && (c' =? 10)%N || hasBlankLine rest
      | [] => false
      end
  end.

(** A paragraph of 601 code units in two sentences of 300. *)
Definition twoSentences : Str :=
  repeat 97%N 299 ++ [46; 32]%N ++ repeat 98%N 299 ++ [46%N].

(** The first and the last code unit of a string. *)
Definition first (s : Str) : option N := hd_error s.
Definition last_ (s : Str) : option N := hd_error (rev s).

(** What a page of the book may look like. *)
Definition well_formed (p : BookPage) : Prop :=
  match type p with
  | chapter_title => content p = []
  | text => content p <> [] /\ fits (content p)
            /\ Forall (fun para => para <> []) (content p)
  end.

End BookPages.

(* ================================================================== *)
(** * The end of a page turn: handleTurnComplete of BookView.tsx *)
(* ================================================================== *)

Module TurnComplete.
Import BookPages.
Local Open Scope Z_scope.

(** [list[i]], which is undefined out of range. *)
Definition item {A : Type} (l : list A) (i : Z) : option A :=
  if i <? 0 then None else nth_error l (Z.to_nat i).

(** [a === b] for strings. *)
Definition same (a b : Str) : bool :=
  if list_eq_dec N.eq_dec a b then true else false.

(** [levels.findIndex(f)], counting from [i]. *)
Fixpoint findIndex (f : Level -> bool) (levels : list Level) (i : Z) : Z :=
  match levels with
  | [] => -1
  | l :: rest => if f l then i else findIndex f rest (i + 1)
  end.

(** What a call leaves: [prevPageRef.current], the new [currentPage], and the
    argument of the call of [onChapterQuiz], if it is called; the parent is
    taken to pass that prop. *)
Record Turned : Type := mkTurned {
  prevPageRef : Z;
  currentPage : Z;
  onChapterQuiz : option Z
}.

Section Titles.

(** [String.prototype.toLowerCase], of which nothing is assumed. *)
Variable toLowerCase : Str -> Str.

Definition handleTurnComplete (levels : list Level) (book : BookContent)
    (current newPage : Z) : Turned :=
  let prevPageRef := current in
  mkTurned prevPageRef newPage
    match item (pages book) prevPageRef, item (pages book) newPage with
    | Some prevPage, Some newPg =>
        let newTitle := title newPg in
        match type prevPage, type newPg with
        | text, chapter_title =>
            if prevPageRef <? newPage then
              let idx :=
                Z.max 0
                  (findIndex
                     (fun l => same (toLowerCase (level_title l))
                                    (toLowerCase newTitle))
                     levels 0 - 1) in
              Some (if 0 <=? idx then idx else 0)
            else None
        | _, _ => None
        end
    | _, _ => None
    end.

End Titles.

(** The index of the chapter-title page of level [k]: the number of pages of
    the levels before it. *)
Definition titlePage (levels : list Level) (k : nat) : Z :=
  Z.of_nat (length (book_pages (firstn k levels) None)).

End TurnComplete.

(* ================================================================== *)
(** * The frames of useOpticalFlow.ts, from pixels to callbacks *)
(* ================================================================== *)

Module OpticalFlowRun.
Import OpticalFlow.
Local Open Scope Z_scope.

(** The store of a number in a [Uint8Array]: the fraction is dropped and the
    integer taken modulo 256. *)
Definition toUint8 (num den : Z) : Z := (Z.quot num den) mod 256.

(** "Convert to grayscale": [frameData.data] holds four bytes per pixel, red,
    green, blue and alpha. *)
Fixpoint grayscale (data : list Z) : Buffer :=
  match data with
  | r :: g :: b :: _ :: rest => toUint8 (r + g + b) 3 :: grayscale rest
  | _ => []
  end.

(** The image data of two pixels, one coloured and one gray. *)
Definition twoPixels : list Z := [10; 20; 40; 255; 7; 7; 7; 0].

(** A byte of a [Uint8ClampedArray]. *)
Definition byte (v : Z) : Prop := 0 <= v <= 255.

(** The frames processed one after the other: the refs at the end and the
    callbacks made, oldest first. *)
Fixpoint run (inputs : list Input) (r : Refs) : Refs * list Callback :=
  match inputs with
  | [] => (r, [])
  | i :: rest =>
      let '(r1, out) := processFrame i r in
      let '(r2, outs) := run rest r1 in
      (r2, out ++ outs)
  end.

(** What the consumer of the callbacks may rely on: a gesture is open after
    [onGesture] and closed after [onGestureEnd], and [onGestureEnd] comes only
    when one is open.  [follows open cs] is the state after the callbacks
    [cs], and [None] when they break the rule. *)
Fixpoint follows (open : bool) (cs : list Callback) : option bool :=
  match cs with
  | [] => Some open
  | onGesture _ :: rest => follows true rest
  | onGestureEnd :: rest => if open then follows false rest else None
  end.

(** What the grid loops keep of [(deltaX, validPoints)] over [n] points: the
    offsets sum to at most 4 per point counted, and at most [n] points are
    counted. *)
Definition counted (n : Z) (st : Z * Z) : Prop :=
  Z.abs (fst st) <= 4 * snd st /\ 0 <= snd st <= n.

End OpticalFlowRun.

(* ================================================================== *)
(** * The animator driven by the living book's App.tsx *)
(* ================================================================== *)

Module App.
Import Book3D.
Import String.StringSyntax.
Local Open Scope string_scope.

Inductive AppState : Type := INIT | LOADING_CONTENT | READY | ERROR.

(** [handleGesture]: [now] is the reading of [Date.now()] that becomes the id
    of the signal. *)
Definition handleGesture (appState : AppState) (delta : Q) (now : Z)
    (w : World) : World :=
  match appState with
  | READY => step (Gesture delta now) w
  | _ => w
  end.

Definition handleGestureEnd (w : World) : World := step GestureEnd w.

(** [handleKey], up to the timer it sets. *)
Definition handleKey (appState : AppState) (key : String.string) (now : Z)
    (w : World) : World :=
  let w1 := if String.eqb key "ArrowRight"
            then handleGesture appState (-30) now w else w in
  if String.eqb key "ArrowLeft"
  then handleGesture appState 30 now w1 else w1.

(** A key press: [handleKey], React rendering until it is done, the timer
    calling [handleGestureEnd] 100ms later, and React rendering again. *)
Definition keyPress (appState : AppState) (key : String.string) (now : Z)
    (n : nat) (w : World) : World :=
  settle n (handleGestureEnd (settle n (handleKey appState key now w))).

Local Close Scope string_scope.

(** ** Worlds the properties are stated with *)

(** The animator at rest: the gesture inactive, no turn in progress, nothing
    left to render and no animation frame requested. *)
Definition idle (w : World) : Prop :=
  rendered w = Some (shell w, state w)
  /\ scheduled w = false
  /\ isGestureActive (shell w) = false
  /\ turningDirection (state w) = None
  /\ animationFrame w = None.

(** The direction the gesture effect starts a turn in, for the accumulator
    [acc]: how its two tests come out. *)
Definition starts (p : Props) (acc : Q) : option Direction :=
  if Qle_bool acc (-10) && (currentPage p <? content_pages_length p - 1)%Z
  then Some next
  else if Qle_bool 10 acc && (0 <? currentPage p)%Z then Some prev
  else None.

(** The props after the parent has taken the gesture [delta], [i]. *)
Definition gestured (delta : Q) (i : Z) (w : World) : Props :=
  mkProps (content_pages_length (shell w)) (mkSignal delta i (fresh w)) true
          (fresh w) (currentPage (shell w)).

(** A drag in progress in direction [d], with nothing left to render: the
    rotation is that of the accumulator. *)
Definition dragging (d : Direction) (w : World) : Prop :=
  rendered w = Some (shell w, state w)
  /\ scheduled w = false
  /\ isGestureActive (shell w) = true
  /\ turningDirection (state w) = Some d
  /\ currentRotation (state w) == dragRotation d (dragAccumulator w)
  /\ animationFrame w = None
  /\ (addr (gestureSignal (shell w)) < fresh w)%nat.

(** Gestures one after the other, each with its id, React rendering in
    between. *)
Fixpoint drag (gestures : list (Q * Z)) (w : World) : World :=
  match gestures with
  | [] => w
  | (delta, i) :: rest => drag rest (settle 2 (step (Gesture delta i) w))
  end.

Definition Qsum (l : list Q) : Q := fold_right Qplus 0 l.

(** The drag of the witnesses: page 2 of a 5-page book, the gesture active,
    the direction 'prev' and the rotation [r] rendered. *)
Definition dragged_back (r : Q) : World :=
  let q := mkProps 5 (mkSignal 30 7 3%nat) true 4%nat 2 in
  mkWorld q 5%nat (mkState r (Some prev)) (mkFiber false [] [] true) 100
          (Some (q, mkState r (Some prev))) None [].

(** ** What the render shows of the rotation *)

(** [rotAbs] and [curlT]. *)
Definition rotAbs (movingPageRotation : Q) : Q :=
  Qmin 180 (Qmax 0 (Qabs movingPageRotation)).

Definition curlT (movingPageRotation : Q) : Q :=
  rotAbs movingPageRotation / 180.

(** The opacities of the shadows on the left and the right static page, the
    alpha of the drop shadow of the moving page, and that of its shine. *)
Definition leftShadow (s : State) : Q :=
  match turningDirection s with
  | Some prev => 0.08 * curlT (currentRotation s)
  | _ => 0.04 * curlT (currentRotation s)
  end.

Definition rightShadow (s : State) : Q :=
  match turningDirection s with
  | Some next => 0.10 * curlT (currentRotation s)
  | _ => 0.05 * curlT (currentRotation s)
  end.

Definition dropShadow (s : State) : Q := 0.25 + curlT (currentRotation s) * 0.15.

Definition shine (s : State) : Q := rotAbs (currentRotation s) / 650.

(** [translateZ], in pixels. *)
Definition lift (s : State) : Q := Qabs (currentRotation s / 180) * 8.

End App.
(* ================================================================== *)
(** * Properties *)
(* ================================================================== *)

Lemma Qltb_lt (a b : Q) : Qltb a b = true <-> a < b.
Proof.
  unfold Qltb. rewrite negb_true_iff.
  destruct (Qle_bool b a) eqn:E.
  - apply Qle_bool_iff in E. split; [discriminate | intro H; lra].
  - split; [intros _ | reflexivity].
    destruct (Qlt_le_dec a b) as [H | H]; [exact H |].
    apply Qle_bool_iff in H. congruence.
Qed.

Lemma Qltb_ge (a b : Q) : Qltb a b = false <-> b <= a.
Proof.
  unfold Qltb. rewrite negb_false_iff. apply Qle_bool_iff.
Qed.

Lemma Qle_bool_false (a b : Q) : Qle_bool a b = false <-> b < a.
Proof.
  rewrite <- Qltb_lt. unfold Qltb. now rewrite negb_true_iff.
Qed.

Lemma Qeq_bool_false (a b : Q) : Qeq_bool a b = false <-> ~ a == b.
Proof.
  split.
  - intros E H. apply Qeq_bool_iff in H. congruence.
  - intro H. destruct (Qeq_bool a b) eqn:E; [| reflexivity].
    apply Qeq_bool_iff in E. contradiction.
Qed.

Module BookViewFacts.
Import BookView.

Lemma run_cons (f : Frame) (fs : list Frame) (r : Refs) :
  run (f :: fs) r =
  (fst (run fs (fst (loop f r))),
   match snd (loop f r) with
   | Some d => d :: snd (run fs (fst (loop f r)))
   | None => snd (run fs (fst (loop f r)))
   end).
Proof.
  simpl. destruct (loop f r) as [r1 out]. simpl.
  destruct (run fs r1) as [r2 outs]. reflexivity.
Qed.

Lemma or_else_some (h d : Q) : ~ h == 0 -> or_else (Some h) d = h.
Proof.
  intro H. simpl. apply Qeq_bool_false in H. now rewrite H.
Qed.

(** A frame of the hand mode without a hand clears the hold timer and the
    latch, and triggers nothing. *)
Lemma loop_hand_none (f : Frame) (r : Refs) :
  flipMode f = hand -> HAND_SIDE f = None ->
  loop f r = (set_hold r None false, None).
Proof.
  intros Hm Hs. unfold loop, loop_hand. now rewrite Hm, Hs.
Qed.

(** While the latch is set, frames that show a hand trigger nothing and leave
    the latch set, whatever their times and sides. *)
Lemma latched_silent (fs : list Frame) :
  forall r, latchedRef r = true -> Forall present fs ->
  intents fs r = [] /\ latchedRef (fst (run fs r)) = true.
Proof.
  induction fs as [| f fs IH]; intros r Hl Hp.
  - split; [reflexivity | exact Hl].
  - inversion Hp as [| ? ? [Hm Hs] Hp']; subst.
    unfold intents. rewrite run_cons.
    assert (E : snd (loop f r) = None /\ latchedRef (fst (loop f r)) = true).
    { unfold loop, loop_hand. rewrite Hm.
      destruct (HAND_SIDE f) as [s |]; [| contradiction].
      rewrite Hl. simpl. split; reflexivity. }
    destruct E as [E1 E2]. rewrite E1. simpl.
    exact (IH _ E2 Hp').
Qed.

(** A running hold of one side triggers exactly one flip as soon as a frame
    comes 200ms after its start and not before the end of the cooldown. *)
Lemma hold_fires_once (s : HandSide) (fs : list Frame) :
  forall r h,
  holdStartRef r = Some h -> ~ h == 0 -> latchedRef r = false ->
  Forall (shows s) fs ->
  Exists (fun f => h + 200 <= now f /\ cooldownRef r <= now f) fs ->
  intents fs r = [flip_of s] /\ latchedRef (fst (run fs r)) = true.
Proof.
  induction fs as [| f fs IH]; intros r h Hh Hnz Hl Hs Hex.
  - inversion Hex.
  - inversion Hs as [| ? ? [Hm Hside] Hs']; subst.
    assert (L : loop f r =
                if Qle_bool 200 (now f - h) && Qle_bool (cooldownRef r) (now f)
                then (set_cooldown (set_hold (set_hold r (Some h) false)
                                             (Some h) true) (now f + 1000),
                      Some (flip_of s))
                else (set_hold r (Some h) false, None)).
    { unfold loop, loop_hand. rewrite Hm, Hside, Hh, Hl.
      rewrite (or_else_some h (now f) Hnz). reflexivity. }
    unfold intents. rewrite run_cons, L.
    destruct (Qle_bool 200 (now f - h) && Qle_bool (cooldownRef r) (now f))
      eqn:E.
    + simpl snd. simpl fst.
      destruct (latched_silent fs
                  (set_cooldown (set_hold (set_hold r (Some h) false)
                                          (Some h) true) (now f + 1000)))
        as [S1 S2]; [reflexivity | |].
      { eapply Forall_impl; [| exact Hs'].
        intros g [Hg1 Hg2]. split; [exact Hg1 | congruence]. }
      unfold intents in S1. rewrite S1. split; [reflexivity | exact S2].
    + simpl snd. simpl fst.
      apply (IH _ h); try assumption; try reflexivity.
      inversion Hex as [? ? [H1 H2] | ? ? Hex']; subst; [| exact Hex'].
      exfalso. apply andb_false_iff in E. destruct E as [E | E].
      * apply Qle_bool_false in E. lra.
      * apply Qle_bool_false in E. lra.
Qed.

(** The cooldown never lies more than 1000ms after the latest frame. *)
Lemma cooldown_bound (T : Q) (fs : list Frame) :
  forall r, cooldownRef r <= T + 1000 ->
  Forall (fun f => now f <= T) fs ->
  cooldownRef (fst (run fs r)) <= T + 1000.
Proof.
  induction fs as [| f fs IH]; intros r Hc Ht.
  - exact Hc.
  - inversion Ht as [| ? ? Hf Ht']; subst. rewrite run_cons. simpl fst.
    apply IH; [| exact Ht'].
    unfold loop, loop_orientation, loop_swipe, loop_hand.
    destruct (flipMode f).
    + destruct (HAND_SIDE f); simpl; [| exact Hc].
      destruct (negb (latchedRef r) && _ && _); simpl; [lra | exact Hc].
    + destruct (negb (active (swipeStateRef r))); simpl; [exact Hc |].
      destruct (Qle_bool (cooldownRef r) (now f)); simpl; [| exact Hc].
      destruct (HAND_SIDE f) as [[|] |]; simpl; try exact Hc.
      * destruct (Qltb _ _); simpl; [lra | exact Hc].
      * destruct (Qltb _ _); simpl; [lra | exact Hc].
    + destruct (Qle_bool (cooldownRef r) (now f)); simpl; [| exact Hc].
      destruct (Orient_eqb (prevOrientRef r) neutral && _ && _); simpl; [lra |].
      destruct (Orient_eqb (prevOrientRef r) neutral && _ && _); simpl;
        [lra | exact Hc].
Qed.

Lemma run_app (fs gs : list Frame) :
  forall r, run (fs ++ gs) r =
            (fst (run gs (fst (run fs r))),
             snd (run fs r) ++ snd (run gs (fst (run fs r)))).
Proof.
  induction fs as [| f fs IH]; intro r.
  - simpl. now destruct (run gs r).
  - rewrite <- app_comm_cons, !run_cons, IH. simpl fst. simpl snd.
    now destruct (snd (loop f r)).
Qed.

Lemma intents_app (fs gs : list Frame) (r : Refs) :
  intents (fs ++ gs) r = intents fs r ++ intents gs (fst (run fs r)).
Proof.
  unfold intents. now rewrite run_app.
Qed.

(** Frames before the end of the cooldown trigger nothing, in any mode, and
    leave the cooldown as it is. *)
Lemma cooling_silent (fs : list Frame) :
  forall r, Forall (fun g => now g < cooldownRef r) fs ->
  intents fs r = [] /\ cooldownRef (fst (run fs r)) = cooldownRef r.
Proof.
  induction fs as [| f fs IH]; intros r Hc.
  - split; reflexivity.
  - inversion Hc as [| ? ? Hf Hc']; subst.
    apply Qle_bool_false in Hf.
    assert (L : snd (loop f r) = None
                /\ cooldownRef (fst (loop f r)) = cooldownRef r).
    { unfold loop, loop_orientation, loop_swipe, loop_hand.
      destruct (flipMode f).
      - destruct (HAND_SIDE f); [| split; reflexivity].
        rewrite Hf, andb_false_r. split; reflexivity.
      - destruct (negb (active (swipeStateRef r))); [split; reflexivity |].
        rewrite Hf. split; reflexivity.
      - rewrite Hf. split; reflexivity. }
    destruct L as [L1 L2]. unfold intents. rewrite run_cons, L1. simpl.
    rewrite <- L2 in Hc'. destruct (IH _ Hc') as [I1 I2].
    split; [exact I1 | now rewrite I2].
Qed.

(** A flip is triggered only at or after the end of the cooldown, and starts
    a cooldown of 1000ms in the hand mode and of 500ms in the other modes. *)
Lemma trigger_cooldown (f : Frame) (r : Refs) (d : Direction) :
  snd (loop f r) = Some d ->
  cooldownRef r <= now f
  /\ cooldownRef (fst (loop f r)) =
     now f + match flipMode f with hand => 1000 | _ => 500 end.
Proof.
  unfold loop, loop_orientation, loop_swipe, loop_hand.
  destruct (flipMode f).
  - destruct (HAND_SIDE f); [| discriminate].
    destruct (Qle_bool (cooldownRef r) (now f)) eqn:E;
      [| rewrite andb_false_r; discriminate].
    apply Qle_bool_iff in E.
    destruct (negb (latchedRef r) && _ && true); [| discriminate].
    intros _. split; [exact E | reflexivity].
  - destruct (negb (active (swipeStateRef r))); [discriminate |].
    destruct (Qle_bool (cooldownRef r) (now f)) eqn:E; [| discriminate].
    apply Qle_bool_iff in E.
    destruct (HAND_SIDE f) as [[|] |]; try discriminate;
      (destruct (Qltb _ _); [| discriminate]);
      intros _; (split; [exact E | reflexivity]).
  - destruct (Qle_bool (cooldownRef r) (now f)) eqn:E; [| discriminate].
    apply Qle_bool_iff in E.
    destruct (Orient_eqb (prevOrientRef r) neutral && _ && _);
      [intros _; split; [exact E | reflexivity] |].
    destruct (Orient_eqb (prevOrientRef r) neutral && _ && _);
      [intros _; split; [exact E | reflexivity] | discriminate].
Qed.

(** Frames that show a hand for less than 200ms after the first of them
    trigger nothing, whatever the sides. *)
Lemma short_hold_silent (t0 : Q) (fs : list Frame) :
  forall r,
  latchedRef r = false ->
  (forall h, holdStartRef r = Some h -> t0 <= h) ->
  Forall present fs ->
  Forall (fun f => t0 <= now f /\ now f < t0 + 200) fs ->
  intents fs r = [].
Proof.
  induction fs as [| f fs IH]; intros r Hl Hh Hp Ht.
  - reflexivity.
  - inversion Hp as [| ? ? [Hm Hs] Hp']; subst.
    inversion Ht as [| ? ? [Ht1 Ht2] Ht']; subst.
    destruct (HAND_SIDE f) as [s |] eqn:Hside; [| contradiction].
    assert (Hstart : t0 <= or_else (holdStartRef r) (now f)
                     /\ now f - or_else (holdStartRef r) (now f) < 200).
    { destruct (holdStartRef r) as [h |] eqn:E; simpl.
      - specialize (Hh h eq_refl).
        destruct (Qeq_bool h 0); split; lra.
      - split; lra. }
    destruct Hstart as [S1 S2]. apply Qle_bool_false in S2.
    assert (L : loop f r =
                (set_hold r (Some (or_else (holdStartRef r) (now f))) false,
                 None)).
    { unfold loop, loop_hand. rewrite Hm, Hside, Hl, S2. reflexivity. }
    unfold intents. rewrite run_cons, L. simpl snd. simpl fst.
    apply IH; try assumption; [reflexivity |].
    simpl. intros h Eh. injection Eh as <-. exact S1.
Qed.

(** Every state reached from mount by frames up to time [T] that end with a
    frame of the hand mode without a hand is released, with a cooldown that
    ends by [T + 1000]: the state in which a hold starts. *)
Lemma released_after_gap (T : Q) (before : list Frame) (gone : Frame) :
  0 <= T ->
  Forall (fun f => now f <= T) (before ++ [gone]) ->
  flipMode gone = hand -> HAND_SIDE gone = None ->
  released (fst (run (before ++ [gone]) initial))
  /\ cooldownRef (fst (run (before ++ [gone]) initial)) <= T + 1000.
Proof.
  intros HT Ht Hm Hs. split.
  - rewrite run_app. cbn [fst]. rewrite run_cons.
    rewrite (loop_hand_none gone _ Hm Hs). split; reflexivity.
  - apply cooldown_bound; [simpl; lra | exact Ht].
Qed.

(** ** C4 *)

(** C4. A hold of one side that starts from the released state and lasts
    2000ms triggers exactly one flip, in the direction of that side; and while
    the latch is set, frames that still show a hand, of either side and for
    however long, trigger no second one. *)
Theorem C4_one_flip_per_hold
    (s : HandSide) (f0 : Frame) (fs : list Frame) (r : Refs) :
  released r ->
  cooldownRef r <= now f0 + 1000 ->
  0 < now f0 ->
  Forall (shows s) (f0 :: fs) ->
  Exists (fun f => now f == now f0 + 2000) fs ->
  intents (f0 :: fs) r = [flip_of s]
  /\ (forall more, Forall present more ->
      intents ((f0 :: fs) ++ more) r = [flip_of s]).
Proof.
  intros [Hh Hl] Hc Hpos Hs Hex.
  inversion Hs as [| ? ? [Hm Hside] Hs']; subst.
  assert (L : loop f0 r = (set_hold r (Some (now f0)) false, None)).
  { unfold loop, loop_hand. rewrite Hm, Hside, Hh, Hl. simpl or_else.
    replace (Qle_bool 200 (now f0 - now f0)) with false; [reflexivity |].
    symmetry. apply Qle_bool_false. lra. }
  destruct (hold_fires_once s fs (set_hold r (Some (now f0)) false) (now f0))
    as [F1 F2]; try reflexivity; try assumption.
  { intro H. lra. }
  { eapply Exists_impl; [| exact Hex]. simpl. intros g Hg. lra. }
  assert (R : intents (f0 :: fs) r = [flip_of s]).
  { unfold intents. rewrite run_cons, L. exact F1. }
  split; [exact R |].
  intros more Hmore.
  assert (Hlatch : latchedRef (fst (run (f0 :: fs) r)) = true).
  { rewrite run_cons, L. exact F2. }
  destruct (latched_silent more _ Hlatch Hmore) as [S1 _].
  now rewrite intents_app, R, S1.
Qed.

Lemma C4_one_flip_per_hold_witness :
  let fs := [hand_frame 1000 (Some left_hand); hand_frame 1016 (Some left_hand);
             hand_frame 1200 (Some left_hand); hand_frame 2100 (Some left_hand);
             hand_frame 3000 (Some left_hand)] in
  intents fs initial = [next]
  /\ (forall more, Forall present more -> intents (fs ++ more) initial = [next]).
Proof.
  apply (C4_one_flip_per_hold left_hand (hand_frame 1000 (Some left_hand))
           [hand_frame 1016 (Some left_hand); hand_frame 1200 (Some left_hand);
            hand_frame 2100 (Some left_hand); hand_frame 3000 (Some left_hand)]
           initial).
  - split; reflexivity.
  - simpl. lra.
  - simpl. lra.
  - repeat constructor.
  - do 3 apply Exists_cons_tl. apply Exists_cons_hd. reflexivity.
Defined.

(** ** C5 *)

(** C5, as stated, fails: a change of side does not reset the hold timer.
    With the side alternating every 50ms from time 1000, the timer still holds
    1000 after the first change, and the frame at 1200 triggers a flip. *)
Lemma C5_alternation_fires :
  let fs := [hand_frame 1000 (Some left_hand); hand_frame 1050 (Some right_hand);
             hand_frame 1100 (Some left_hand); hand_frame 1150 (Some right_hand);
             hand_frame 1200 (Some left_hand)] in
  holdStartRef (fst (run (firstn 2 fs) initial)) = Some 1000
  /\ intents fs initial = [next].
Proof.
  split; vm_compute; reflexivity.
Qed.

(** C5, amended. The hold timer resets to null whenever the hand disappears,
    and a change of side alone leaves a running timer as it is; frames that
    show a hand for only 150ms after the released state, followed by a frame
    without a hand, trigger no flip and end in the released state. *)
Theorem C5_hold_timer_reset :
  (forall f r, flipMode f = hand -> HAND_SIDE f = None ->
     holdStartRef (fst (loop f r)) = None /\ snd (loop f r) = None)
  /\ (forall f r h, present f -> holdStartRef r = Some h -> ~ h == 0 ->
       holdStartRef (fst (loop f r)) = Some h)
  /\ (forall f0 fs gone r,
       released r ->
       Forall present (f0 :: fs) ->
       Forall (fun f => now f0 <= now f /\ now f <= now f0 + 150) fs ->
       flipMode gone = hand -> HAND_SIDE gone = None ->
       intents ((f0 :: fs) ++ [gone]) r = []
       /\ released (fst (run ((f0 :: fs) ++ [gone]) r))).
Proof.
  split; [| split].
  - intros f r Hm Hs. rewrite (loop_hand_none f r Hm Hs). split; reflexivity.
  - intros f r h [Hm Hs] Hh Hnz. unfold loop, loop_hand. rewrite Hm.
    destruct (HAND_SIDE f); [| contradiction].
    rewrite Hh, (or_else_some h (now f) Hnz).
    destruct (negb (latchedRef r) && _ && _); reflexivity.
  - intros f0 fs gone r [Hh Hl] Hp Ht Hm Hs.
    assert (S : intents (f0 :: fs) r = []).
    { apply (short_hold_silent (now f0)); try assumption.
      - rewrite Hh. discriminate.
      - constructor; [lra |].
        eapply Forall_impl; [| exact Ht]. simpl. intros g Hg. lra. }
    rewrite intents_app, S, run_app. unfold intents.
    rewrite run_cons, (loop_hand_none gone _ Hm Hs). simpl.
    split; [reflexivity | split; reflexivity].
Qed.

Lemma C5_hold_timer_reset_witness :
  let fs := [hand_frame 1000 (Some left_hand); hand_frame 1050 (Some right_hand);
             hand_frame 1150 (Some left_hand); hand_frame 1160 None] in
  intents fs initial = [] /\ released (fst (run fs initial)).
Proof.
  apply (proj2 (proj2 C5_hold_timer_reset)
           (hand_frame 1000 (Some left_hand))
           [hand_frame 1050 (Some right_hand); hand_frame 1150 (Some left_hand)]
           (hand_frame 1160 None) initial).
  - split; reflexivity.
  - repeat constructor; discriminate.
  - repeat constructor; unfold Qle; simpl; lia.
  - reflexivity.
  - reflexivity.
Defined.

(** ** C6 *)

(** C6. A flip is triggered only at or after the end of the cooldown; it
    starts a cooldown (1000ms in the hand mode, 500ms in the others) during
    which no frame of any mode, side or orientation triggers a flip; and once
    the cooldown is over, a hold of 200ms with the latch clear triggers one. *)
Theorem C6_cooldown (f : Frame) (r r' : Refs) (d : Direction) :
  loop f r = (r', Some d) ->
  cooldownRef r <= now f
  /\ cooldownRef r' = now f + match flipMode f with hand => 1000 | _ => 500 end
  /\ (forall fs, Forall (fun g => now g < cooldownRef r') fs ->
       intents fs r' = [])
  /\ (forall g s r0, shows s g -> latchedRef r0 = false ->
       or_else (holdStartRef r0) (now g) + 200 <= now g ->
       cooldownRef r0 <= now g ->
       snd (loop g r0) = Some (flip_of s)).
Proof.
  intro L.
  destruct (trigger_cooldown f r d) as [T1 T2]; [now rewrite L |].
  rewrite L in T2. simpl fst in T2.
  split; [exact T1 | split; [exact T2 | split]].
  - intros fs Hfs. now apply cooling_silent.
  - intros g s r0 [Hm Hs] Hl Hheld Hc.
    unfold loop, loop_hand. rewrite Hm, Hs, Hl.
    replace (Qle_bool 200 (now g - or_else (holdStartRef r0) (now g)))
      with true by (symmetry; apply Qle_bool_iff; lra).
    replace (Qle_bool (cooldownRef r0) (now g))
      with true by (symmetry; now apply Qle_bool_iff).
    reflexivity.
Qed.

Lemma C6_cooldown_witness :
  let r := mkRefs 0 neutral (mkSwipe None 0 false) (Some 1000) false in
  let f := hand_frame 1200 (Some left_hand) in
  cooldownRef r <= now f
  /\ cooldownRef (fst (loop f r)) = now f + 1000
  /\ (forall fs, Forall (fun g => now g < cooldownRef (fst (loop f r))) fs ->
       intents fs (fst (loop f r)) = [])
  /\ (forall g s r0, shows s g -> latchedRef r0 = false ->
       or_else (holdStartRef r0) (now g) + 200 <= now g ->
       cooldownRef r0 <= now g ->
       snd (loop g r0) = Some (flip_of s)).
Proof.
  intros r f.
  apply (C6_cooldown f r (fst (loop f r)) next).
  reflexivity.
Defined.

End BookViewFacts.

Module OpticalFlowFacts.
Import OpticalFlow.
Local Open Scope Z_scope.

Lemma noise_gate (a m : Z) :
  Qltb (inject_Z a) (inject_Z m * 0.8)%Q = true <-> 10 * a < 8 * m.
Proof.
  rewrite Qltb_lt. unfold Qlt. cbn [Qnum Qden inject_Z Qmult]. lia.
Qed.

Lemma noise_gate_Q (a m : Z) :
  (inject_Z a < 0.8 * inject_Z m)%Q <-> 10 * a < 8 * m.
Proof.
  unfold Qlt. cbn [Qnum Qden inject_Z Qmult]. lia.
Qed.

Section Search.

Variables (currentFrame : Buffer) (y x prevVal zeroDiff : Z).

Lemma search_step_inv (seen : list Z) (st : Z * Z) (dx : Z) :
  search_inv currentFrame y x prevVal zeroDiff seen st ->
  search_inv currentFrame y x prevVal zeroDiff (seen ++ [dx])
             (search_step currentFrame y x prevVal st dx).
Proof.
  unfold search_inv, search_step. intros (Hle & Hz & Hnz).
  change (Z.abs (px currentFrame (y * width + (x + dx)) - prevVal))
    with (offset_error currentFrame y x prevVal dx).
  assert (Hpos : 0 <= offset_error currentFrame y x prevVal dx)
    by apply Z.abs_nonneg.
  set (err := offset_error currentFrame y x prevVal) in *.
  destruct (Z.eqb_spec dx 0) as [-> | Hdx].
  - split; [exact Hle | split].
    + intro E. destruct (Hz E) as [E1 E2]. split; [exact E1 |].
      intros d Hd Hd0. apply in_app_or in Hd. destruct Hd as [Hd | [<- | []]].
      * now apply E2.
      * contradiction.
    + intro E. destruct (Hnz E) as (E1 & E2 & E3).
      split; [apply in_or_app; now left | split; assumption].
  - destruct (Qltb (inject_Z (err dx)) (inject_Z (fst st) * 0.8)%Q) eqn:G.
    + apply noise_gate in G. simpl fst. simpl snd.
      split; [lia | split; [intro; contradiction |]].
      intros _. split; [apply in_or_app; right; now left |].
      split; [reflexivity | lia].
    + assert (G' : 8 * fst st <= 10 * err dx).
      { destruct (Z_lt_le_dec (10 * err dx) (8 * fst st)) as [C | C];
          [| exact C].
        apply noise_gate in C. congruence. }
      split; [exact Hle | split].
      * intro E. destruct (Hz E) as [E1 E2]. split; [exact E1 |].
        intros d Hd Hd0. apply in_app_or in Hd.
        destruct Hd as [Hd | [<- | []]]; [now apply E2 | lia].
      * intro E. destruct (Hnz E) as (E1 & E2 & E3).
        split; [apply in_or_app; now left | split; assumption].
Qed.

Lemma search_fold_inv (dxs : list Z) :
  forall seen st,
  search_inv currentFrame y x prevVal zeroDiff seen st ->
  search_inv currentFrame y x prevVal zeroDiff (seen ++ dxs)
             (fold_left (search_step currentFrame y x prevVal) dxs st).
Proof.
  induction dxs as [| dx dxs IH]; intros seen st H.
  - now rewrite app_nil_r.
  - simpl. replace (seen ++ dx :: dxs) with ((seen ++ [dx]) ++ dxs)
      by now rewrite <- app_assoc.
    apply IH. now apply search_step_inv.
Qed.

Lemma search_spec :
  search_inv currentFrame y x prevVal zeroDiff (range (-4) 5 1)
             (search currentFrame y x prevVal zeroDiff).
Proof.
  unfold search. apply (search_fold_inv _ [] (zeroDiff, 0)).
  split; [simpl; lia | split].
  - intros _. split; [reflexivity | intros dx []].
  - simpl. intro E. contradiction.
Qed.

End Search.

Lemma range_offsets (dx : Z) : In dx (range (-4) 5 1) <-> -4 <= dx <= 4.
Proof.
  change (range (-4) 5 1) with [-4; -3; -2; -1; 0; 1; 2; 3; 4].
  simpl. lia.
Qed.

(** ** C8 *)

(** C8. At a sample point that passes the gradient check, the offset kept is
    one of [-4, 4]; it is nonzero only if its match error is strictly less than
    0.8 times the match error of offset zero, it is zero exactly when no
    nonzero offset of the window has such an error, and the point adds to
    [deltaX] and [validPoints] exactly when the offset kept is nonzero. *)
Theorem C8_sticky_zero (prevFrame currentFrame : Buffer) (y x b : Z) :
  bestDx_at prevFrame currentFrame y x = Some b ->
  (b <> 0 ->
     -4 <= b <= 4
     /\ (inject_Z (match_error prevFrame currentFrame y x b)
         < 0.8 * inject_Z (match_error prevFrame currentFrame y x 0))%Q)
  /\ (b = 0 <->
      forall dx, -4 <= dx <= 4 -> dx <> 0 ->
        ~ (inject_Z (match_error prevFrame currentFrame y x dx)
           < 0.8 * inject_Z (match_error prevFrame currentFrame y x 0))%Q)
  /\ (forall st, sample prevFrame currentFrame y st x =
                 if b =? 0 then st else (fst st + b, snd st + 1)).
Proof.
  intro H.
  assert (Hs : sample prevFrame currentFrame y = fun st x' =>
               match bestDx_at prevFrame currentFrame y x' with
               | None => st
               | Some bestDx =>
                   if negb (bestDx =? 0) then (fst st + bestDx, snd st + 1)
                   else st
               end) by reflexivity.
  pose proof H as H0. unfold bestDx_at in H.
  destruct (_ <? 30) eqn:G; [discriminate |].
  pose proof (search_spec currentFrame y x (px prevFrame (y * width + x))
                (Z.abs (px currentFrame (y * width + x)
                        - px prevFrame (y * width + x)))) as (Hle & Hz & Hnz).
  set (found := search _ _ _ _ _) in *.
  assert (H' : snd found = b) by congruence.
  clearbody found. rewrite H' in Hz, Hnz.
  assert (E0 : match_error prevFrame currentFrame y x 0 =
               Z.abs (px currentFrame (y * width + x)
                      - px prevFrame (y * width + x))).
  { unfold match_error. now rewrite Z.add_0_r. }
  split; [| split].
  - intro Hb. destruct (Hnz Hb) as (I1 & _ & I3).
    split; [now apply range_offsets |].
    apply noise_gate_Q. rewrite E0. exact I3.
  - split.
    + intros Hb dx Hdx Hdx0 C. apply noise_gate_Q in C. rewrite E0 in C.
      destruct (Hz Hb) as [_ I2].
      specialize (I2 dx (proj2 (range_offsets dx) Hdx) Hdx0).
      unfold match_error in C. unfold offset_error in I2. lia.
    + intro Hall. destruct (Z.eq_dec b 0) as [Hb | Hb]; [exact Hb |].
      exfalso. destruct (Hnz Hb) as (I1 & _ & I3).
      apply (Hall b); [now apply range_offsets | exact Hb |].
      apply noise_gate_Q. rewrite E0. exact I3.
  - intro st. rewrite Hs, H0. now destruct (b =? 0).
Qed.

Lemma gestures_In (d : Q) (cs : list Callback) :
  In (onGesture d) cs <-> In d (gestures cs).
Proof.
  unfold gestures. rewrite in_flat_map. split.
  - intro H. exists (onGesture d). split; [exact H | now left].
  - intros [[d' |] [H1 H2]]; simpl in H2.
    + destruct H2 as [<- | []]. exact H1.
    + contradiction.
Qed.

(** The deltas a processed frame passes to [onGesture]. *)
Lemma gestures_processFrame (i : Input) (r : Refs) :
  gestures (snd (processFrame i r)) =
  match prevFrameRef r with
  | Some prevFrame =>
      match rawInput prevFrame (currentFrame i) with
      | Some raw => [(raw * 30)%Q]
      | None => []
      end
  | None => []
  end.
Proof.
  unfold processFrame.
  destruct (prevFrameRef r) as [prevFrame |].
  - destruct (rawInput prevFrame (currentFrame i)) as [raw |].
    + match goal with |- context [if ?c then _ else _] => destruct c end;
        reflexivity.
    + match goal with |- context [if ?c then _ else _] => destruct c end;
        reflexivity.
  - match goal with |- context [if ?c then _ else _] => destruct c end;
      reflexivity.
Qed.

(** ** C7 *)

(** C7. A processed frame calls [onGesture] only when more than 5 sample
    points have a nonzero offset and the absolute average offset exceeds 0.5,
    and then with 30 times that average; a frame with at most 5 such points,
    or whose average offset is at most 0.5 in magnitude (0.3 in particular),
    makes no [onGesture] call at all. *)
Theorem C7_deadzone (i : Input) (r : Refs) :
  let cs := snd (processFrame i r) in
  (forall d, In (onGesture d) cs ->
     exists prevFrame,
       prevFrameRef r = Some prevFrame
       /\ 5 < validPoints prevFrame (currentFrame i)
       /\ (0.5 < Qabs (avgDx prevFrame (currentFrame i)))%Q
       /\ d = (avgDx prevFrame (currentFrame i) * 30)%Q)
  /\ (forall prevFrame, prevFrameRef r = Some prevFrame ->
      validPoints prevFrame (currentFrame i) <= 5
      \/ (Qabs (avgDx prevFrame (currentFrame i)) <= 0.5)%Q ->
      gestures cs = [])
  /\ (forall prevFrame, prevFrameRef r = Some prevFrame ->
      (Qabs (avgDx prevFrame (currentFrame i)) == 0.3)%Q ->
      gestures cs = []).
Proof.
  intro cs.
  assert (Quiet : forall prevFrame, prevFrameRef r = Some prevFrame ->
            validPoints prevFrame (currentFrame i) <= 5
            \/ (Qabs (avgDx prevFrame (currentFrame i)) <= 0.5)%Q ->
            gestures cs = []).
  { intros prevFrame Hp Hq. unfold cs.
    rewrite gestures_processFrame, Hp. unfold rawInput.
    destruct (Z.ltb_spec 5 (validPoints prevFrame (currentFrame i)))
      as [Hn | Hn]; [| reflexivity].
    destruct (Qltb 0.5 (Qabs (avgDx prevFrame (currentFrame i)))) eqn:E;
      [| reflexivity].
    apply Qltb_lt in E. destruct Hq as [Hq | Hq]; [lia | lra]. }
  split; [| split].
  - intros d Hd. apply gestures_In in Hd. unfold cs in Hd.
    rewrite gestures_processFrame in Hd.
    destruct (prevFrameRef r) as [prevFrame |]; [| contradiction].
    exists prevFrame. split; [reflexivity |].
    unfold rawInput in Hd.
    destruct (Z.ltb_spec 5 (validPoints prevFrame (currentFrame i)))
      as [Hn | Hn]; [| contradiction].
    destruct (Qltb 0.5 (Qabs (avgDx prevFrame (currentFrame i)))) eqn:E;
      [| contradiction].
    apply Qltb_lt in E. destruct Hd as [<- | []].
    split; [exact Hn | split; [exact E | reflexivity]].
  - exact Quiet.
  - intros prevFrame Hp Hq. apply (Quiet prevFrame Hp). right.
    rewrite Hq. unfold Qle. simpl. lia.
Qed.

Lemma C7_deadzone_witness :
  let r := mkRefs (Some (edges_before moved)) false 0 0 in
  let i := mkInput (edges_after moved) 1000 1000 in
  validPoints (edges_before moved) (edges_after moved) = 10
  /\ (Qabs (avgDx (edges_before moved) (edges_after moved)) == 0.3)%Q
  /\ gestures (snd (processFrame i r)) = [].
Proof.
  intros r i.
  assert (H : (Qabs (avgDx (edges_before moved) (edges_after moved)) == 0.3)%Q)
    by (vm_compute; reflexivity).
  split; [vm_compute; reflexivity | split; [exact H |]].
  exact (proj2 (proj2 (C7_deadzone i r)) (edges_before moved) eq_refl H).
Defined.

Lemma C8_sticky_zero_witness :
  bestDx_at (edges_before moved) (edges_after moved) 14 50 = Some 2
  /\ (inject_Z (match_error (edges_before moved) (edges_after moved) 14 50 2)
      < 0.8 * inject_Z (match_error (edges_before moved) (edges_after moved)
                                    14 50 0))%Q.
Proof.
  assert (H : bestDx_at (edges_before moved) (edges_after moved) 14 50 = Some 2)
    by (vm_compute; reflexivity).
  split; [exact H |].
  apply (proj1 (C8_sticky_zero _ _ 14 50 2 H)). discriminate.
Defined.

End OpticalFlowFacts.

Module Book3DFacts.
Import Book3D.

Lemma Qabs_cases (x : Q) :
  (0 <= x /\ Qabs x == x) \/ (x <= 0 /\ Qabs x == - x).
Proof.
  destruct (Qlt_le_dec x 0) as [H | H].
  - right. split; [lra | apply Qabs_neg; lra].
  - left. split; [exact H | now apply Qabs_pos].
Qed.

Lemma cube_range (u : Q) : 0 <= u -> u <= 1 -> 0 <= u ^ 3 /\ u ^ 3 <= 1.
Proof.
  intros H0 H1. simpl. split; nra.
Qed.

Lemma clamp_range (x : Q) : in_range (Qmax (-180) (Qmin 0 x)).
Proof.
  split.
  - apply Q.le_max_l.
  - apply Q.max_lub; [lra | apply Q.le_min_l].
Qed.

(** The rotation a drag shows lies in [-180, 0], whatever the accumulator. *)
Lemma dragRotation_range (d : Direction) (acc : Q) :
  in_range (dragRotation d acc).
Proof.
  unfold dragRotation. destruct d.
  - destruct (clamp_range acc) as [L U].
    set (rot := Qmax (-180) (Qmin 0 acc)) in *.
    destruct (Qabs_cases rot) as [[A1 A2] | [A1 A2]];
      (assert (P0 : 0 <= 1 - Qabs rot / 180)
         by (unfold Qdiv; change (/ 180) with (1 # 180); lra);
       assert (P1 : 1 - Qabs rot / 180 <= 1)
         by (unfold Qdiv; change (/ 180) with (1 # 180); lra);
       destruct (cube_range _ P0 P1) as [C0 C1];
       split; lra).
  - destruct (clamp_range (-180 + acc)) as [L U].
    set (rot := Qmax (-180) (Qmin 0 (-180 + acc))) in *.
    assert (P0 : 0 <= 1 - (180 + rot) / 180)
      by (unfold Qdiv; change (/ 180) with (1 # 180); lra).
    assert (P1 : 1 - (180 + rot) / 180 <= 1)
      by (unfold Qdiv; change (/ 180) with (1 # 180); lra).
    destruct (cube_range _ P0 P1) as [C0 C1].
    split; lra.
Qed.

(** ** The snap iteration *)

Lemma snapStep_near (t r : Q) : Qabs (t - r) < 2 -> snapStep t r = t.
Proof.
  intro H. unfold snapStep. apply Qltb_lt in H. now rewrite H.
Qed.

Lemma snapStep_far (t r : Q) :
  2 <= Qabs (t - r) -> snapStep t r = r + (t - r) * 0.22.
Proof.
  intro H. unfold snapStep. apply Qltb_ge in H. now rewrite H.
Qed.

Lemma snapStep_fixed (t : Q) : snapStep t t = t.
Proof.
  apply snapStep_near.
  destruct (Qabs_cases (t - t)) as [[_ A] | [_ A]]; lra.
Qed.

Lemma snapStep_iter_fixed (t : Q) (n : nat) : Nat.iter n (snapStep t) t = t.
Proof.
  induction n as [| n IH]; [reflexivity |].
  simpl. rewrite IH. apply snapStep_fixed.
Qed.

(** One step multiplies the remaining distance by 0.78, or ends the snap. *)
Lemma snapStep_distance (t r : Q) :
  Qabs (t - snapStep t r) <= 0.78 * Qabs (t - r).
Proof.
  destruct (Qlt_le_dec (Qabs (t - r)) 2) as [H | H].
  - rewrite (snapStep_near t r H).
    destruct (Qabs_cases (t - t)) as [[_ A] | [_ A]];
      destruct (Qabs_cases (t - r)) as [[B1 B2] | [B1 B2]]; lra.
  - rewrite (snapStep_far t r H).
    destruct (Qabs_cases (t - (r + (t - r) * 0.22))) as [[A1 A2] | [A1 A2]];
      destruct (Qabs_cases (t - r)) as [[B1 B2] | [B1 B2]]; lra.
Qed.

Lemma damp_mono (k : nat) : forall a b, a <= b -> damp k a <= damp k b.
Proof.
  induction k as [| k IH]; intros a b H; simpl; [exact H |].
  apply IH. lra.
Qed.

(** From a distance of at most [d], [k + 1] steps reach the target when
    [0.78 ^ k * d < 2]. *)
Lemma snapStep_reaches (t : Q) (k : nat) :
  forall r d, Qabs (t - r) <= d -> damp k d < 2 ->
  Nat.iter (S k) (snapStep t) r = t.
Proof.
  induction k as [| k IH]; intros r d Hd Hk.
  - change (snapStep t r = t). apply snapStep_near.
    change (d < 2) in Hk. lra.
  - rewrite Nat.iter_succ_r. change (damp k (0.78 * d) < 2) in Hk.
    apply (IH (snapStep t r) (0.78 * d)); [| exact Hk].
    pose proof (snapStep_distance t r). lra.
Qed.

(** ** Properties every effect preserves *)

Section Preserve.

Variable J : World -> Prop.

Lemma preserves_ret {A : Type} (a : A) : preserves J (ret a).
Proof.
  intros w H. exact H.
Qed.

Lemma preserves_bind {A B : Type} (m : M A) (k : A -> M B) :
  preserves J m -> (forall a, preserves J (k a)) -> preserves J (bind m k).
Proof.
  intros Hm Hk w H. unfold bind.
  specialize (Hm w H). destruct (m w) as [a w1]. now apply Hk.
Qed.

Lemma preserves_when (b : bool) (m : M unit) :
  preserves J m -> preserves J (when b m).
Proof.
  intro H. destruct b; [exact H | apply preserves_ret].
Qed.

Lemma preserves_if {A : Type} (b : bool) (m1 m2 : M A) :
  preserves J m1 -> preserves J m2 -> preserves J (if b then m1 else m2).
Proof.
  now destruct b.
Qed.

End Preserve.

(** ** The rotation stays in range *)

Lemma yields_ret (J : World -> Prop) {A : Type} (P : A -> Prop) (a : A) :
  P a -> yields J P (ret a).
Proof.
  intros Ha w H. split; [exact H | exact Ha].
Qed.

Lemma yields_bind (J : World -> Prop) {A B : Type} (P : A -> Prop)
    (R : B -> Prop) (m : M A) (k : A -> M B) :
  yields J P m -> (forall a, P a -> yields J R (k a)) ->
  yields J R (bind m k).
Proof.
  intros Hm Hk w H. unfold bind.
  destruct (Hm w H) as [H1 H2]. destruct (m w) as [a w1].
  now apply Hk.
Qed.

Lemma yields_preserves (J : World -> Prop) {A : Type} (P : A -> Prop)
    (m : M A) :
  yields J P m -> preserves J m.
Proof.
  intros Hm w H. now apply Hm.
Qed.

Lemma preserves_yields (J : World -> Prop) {A : Type} (m : M A) :
  preserves J m -> yields J (fun _ => True) m.
Proof.
  intros Hm w H. split; [now apply Hm | exact I].
Qed.

Lemma good_setDragAccumulator (v : Q) : preserves good (setDragAccumulator v).
Proof.
  intros w H. exact H.
Qed.

Lemma good_enqueueRotation (u : RotationUpdate) :
  good_update u -> preserves good (enqueueRotation u).
Proof.
  intros Hu w (H1 & H2 & H3 & H4).
  split; [exact H1 | split; [exact H2 | split; [exact H3 |]]].
  cbn. apply Forall_app. split; [exact H4 | now constructor].
Qed.

Lemma good_enqueueDirection (d : option Direction) :
  preserves good (enqueueDirection d).
Proof.
  intros w H. exact H.
Qed.

Lemma good_setCurrentRotation (v : Q) :
  in_range v -> preserves good (setCurrentRotation v).
Proof.
  intros Hv w H. unfold setCurrentRotation.
  destruct (noLanes w && Qeq_bool v (currentRotation (state w)));
    [exact H | now apply good_enqueueRotation].
Qed.

Lemma good_setTurningDirection (d : option Direction) :
  preserves good (setTurningDirection d).
Proof.
  intros w H. unfold setTurningDirection.
  destruct (noLanes w && turning_eqb d (turningDirection (state w)));
    exact H.
Qed.

Lemma good_cancelAnimationFrame : preserves good cancelAnimationFrame.
Proof.
  intros w (H1 & H2 & _ & H4).
  split; [exact H1 | split; [exact H2 | split; [| exact H4]]].
  intros a Ha. discriminate.
Qed.

Lemma good_requestAnimationFrame (a : Snap) :
  targetRot a = 0 \/ targetRot a = -180 ->
  preserves good (requestAnimationFrame a).
Proof.
  intros Ha w (H1 & H2 & _ & H4).
  split; [exact H1 | split; [exact H2 | split; [| exact H4]]].
  intros b Hb. simpl in Hb. now injection Hb as <-.
Qed.

Lemma good_setShell (f : Props -> nat -> Props) : preserves good (setShell f).
Proof.
  intros w H. exact H.
Qed.

Lemma good_callPageTurnComplete (n : Z) :
  preserves good (callPageTurnComplete n).
Proof.
  intros w H. unfold callPageTurnComplete.
  destruct (n =? currentPage (shell w))%Z; exact H.
Qed.

Lemma good_setRendered (c : Props * State) :
  in_range (currentRotation (snd c)) -> preserves good (setRendered c).
Proof.
  intros Hc w (H1 & _ & H3 & H4).
  split; [exact H1 | split; [| split; [exact H3 | exact H4]]].
  intros c' E. simpl in E. now injection E as <-.
Qed.

Lemma good_resetEffect : preserves good resetEffect.
Proof.
  unfold resetEffect.
  apply preserves_bind; [apply good_setDragAccumulator | intros _].
  apply preserves_bind; [| intros _; apply good_setTurningDirection].
  apply good_setCurrentRotation. split; lra.
Qed.

Lemma good_gestureEffect (p : Props) (s : State) :
  preserves good (gestureEffect p s).
Proof.
  unfold gestureEffect.
  apply preserves_if; [apply preserves_ret |].
  apply preserves_if; [apply preserves_ret |].
  apply preserves_bind; [intros w H; exact H | intros acc0].
  apply preserves_bind; [apply good_setDragAccumulator | intros _].
  apply preserves_bind; [intros w H; exact H | intros acc].
  destruct (turningDirection s) as [d |].
  - apply good_setCurrentRotation, dragRotation_range.
  - apply preserves_if; [apply good_setTurningDirection |].
    apply preserves_if; [apply good_setTurningDirection | apply preserves_ret].
Qed.

Lemma snapTarget_cases (d : Direction) (rot : Q) (page : Z) :
  fst (snapTarget d rot page) = 0 \/ fst (snapTarget d rot page) = -180.
Proof.
  unfold snapTarget. destruct d; destruct (Qltb _ _); simpl; auto.
Qed.

Lemma interpolate_range (t r : Q) :
  t = 0 \/ t = -180 -> in_range r -> in_range (r + (t - r) * 0.22).
Proof.
  intros [-> | ->] [L U]; split; lra.
Qed.

Lemma good_snapUpdater (setDirection : option Direction -> M unit)
    (a : Snap) (r : Q) :
  (forall d, preserves good (setDirection d)) ->
  targetRot a = 0 \/ targetRot a = -180 ->
  in_range r ->
  yields good in_range (snapUpdater setDirection a r).
Proof.
  intros Hd Ha Hr. unfold snapUpdater.
  destruct (Qltb (Qabs (targetRot a - r)) 2).
  - apply yields_bind with (P := fun _ => True).
    + apply preserves_yields.
      apply preserves_if; [apply good_callPageTurnComplete |].
      apply preserves_if; [apply good_callPageTurnComplete |].
      apply preserves_bind; [apply Hd | intros _].
      apply good_setDragAccumulator.
    + intros _ _. apply yields_ret.
      destruct Ha as [-> | ->]; split; lra.
  - apply yields_ret. now apply interpolate_range.
Qed.

Lemma good_setCurrentRotationWith (a : Snap) :
  targetRot a = 0 \/ targetRot a = -180 ->
  preserves good (setCurrentRotationWith a).
Proof.
  intros Ha w H. unfold setCurrentRotationWith.
  destruct (noLanes w).
  - revert w H.
    change (forall w, good w -> good (snd
             ((v <- snapUpdater setTurningDirection a
                      (currentRotation (state w)) ;;
               if Qeq_bool v (currentRotation (state w)) then ret tt
               else enqueueRotation (Value v)) w))).
    intros w H.
    refine (yields_preserves good (fun _ => True) _ _ w H).
    apply yields_bind with (P := in_range).
    + apply good_snapUpdater;
        [apply good_setTurningDirection | exact Ha | apply H].
    + intros v Hv. apply preserves_yields.
      apply preserves_if; [apply preserves_ret |].
      now apply good_enqueueRotation.
  - now apply good_enqueueRotation.
Qed.

Lemma good_animateSnap (a : Snap) :
  targetRot a = 0 \/ targetRot a = -180 -> preserves good (animateSnap a).
Proof.
  intro Ha. unfold animateSnap.
  apply preserves_bind; [now apply good_setCurrentRotationWith | intros _].
  apply preserves_if;
    [now apply good_requestAnimationFrame | apply preserves_ret].
Qed.

Lemma good_snapEffect (p : Props) (s : State) :
  preserves good (snapEffect p s).
Proof.
  unfold snapEffect. destruct (turningDirection s) as [d |];
    [| apply preserves_ret].
  apply preserves_if; [| apply preserves_ret].
  pose proof (snapTarget_cases d (currentRotation s) (currentPage p)) as Ht.
  destruct (snapTarget d (currentRotation s) (currentPage p)) as [tr tp].
  now apply good_animateSnap.
Qed.

Lemma good_reduceRotation (us : list RotationUpdate) :
  forall r, Forall good_update us -> in_range r ->
  yields good in_range (reduceRotation us r).
Proof.
  induction us as [| u us IH]; intros r Hus Hr.
  - now apply yields_ret.
  - inversion Hus as [| ? ? Hu Hus']; subst.
    destruct u as [v | a]; cbn [reduceRotation].
    + now apply IH.
    + apply yields_bind with (P := in_range).
      * apply good_snapUpdater;
          [apply good_enqueueDirection | exact Hu | exact Hr].
      * intros v Hv. now apply IH.
Qed.

Lemma good_render :
  yields good (fun c => in_range (currentRotation (snd c))) render.
Proof.
  intros w H. unfold render.
  match goal with |- good (snd (?m w)) /\ _ =>
    enough (Y : yields good (fun c => in_range (currentRotation (snd c))) m)
      by exact (Y w H)
  end.
  apply yields_bind with (P := fun _ => True);
    [apply preserves_yields; intros v Hv; exact Hv | intros _ _].
  apply yields_bind with (P := in_range);
    [apply good_reduceRotation; apply H |].
  intros rot Hrot.
  apply yields_bind with (P := fun _ => True);
    [apply preserves_yields; intros v Hv; exact Hv |].
  intros ds _.
  apply yields_bind with (P := fun _ => True).
  { apply preserves_yields. intros v (_ & H2 & H3 & H4).
    split; [exact Hrot | split; [exact H2 | split; [exact H3 | exact H4]]]. }
  intros _ _.
  apply yields_bind with (P := fun _ => True).
  { apply preserves_yields. intros v (H1 & H2 & H3 & _).
    split; [exact H1 | split; [exact H2 | split; [exact H3 | constructor]]]. }
  intros _ _. apply yields_ret. exact Hrot.
Qed.

Lemma good_commit (w : World) : good w -> good (commit w).
Proof.
  intro H. unfold commit. destruct (scheduled w); [| exact H].
  unfold exec.
  match goal with |- good (snd (?m w)) =>
    enough (P : preserves good m) by exact (P w H)
  end.
  apply yields_preserves with (P := fun _ => True).
  apply yields_bind with (P := fun c => in_range (currentRotation (snd c)));
    [apply good_render |].
  intros c Hc. apply preserves_yields.
  apply preserves_bind;
    [apply preserves_when, good_cancelAnimationFrame | intros _].
  apply preserves_bind; [apply preserves_when, good_resetEffect | intros _].
  apply preserves_bind; [apply preserves_when, good_gestureEffect | intros _].
  apply preserves_bind; [apply preserves_when, good_snapEffect | intros _].
  now apply good_setRendered.
Qed.

Lemma good_step (e : Event) (w : World) : good w -> good (step e w).
Proof.
  intro H. destruct e; cbn [step].
  - exact H.
  - exact H.
  - exact H.
  - now apply good_commit.
  - destruct (animationFrame w) as [a |] eqn:E; [| exact H].
    unfold exec.
    apply (preserves_bind good cancelAnimationFrame (fun _ => animateSnap a));
      [apply good_cancelAnimationFrame | | exact H].
    intros _. apply good_animateSnap. now apply H.
Qed.

Lemma good_steps (es : list Event) :
  forall w, good w -> good (steps es w).
Proof.
  induction es as [| e es IH]; intros w H; [exact H |].
  simpl. apply IH. now apply good_step.
Qed.

Lemma good_mount (len page : Z) : good (mount len page).
Proof.
  split; [split; simpl; lra |].
  split; [intros ? E; discriminate |].
  split; [intros ? E; discriminate | constructor].
Qed.

(** ** C1 *)

(** C1. Whatever gestures are injected and ended, and however React commits
    and animation frames interleave with them, the rotation lies in
    [-180, 0]: the one of the state, the one the last render shows, and
    every value queued for the next render. *)
Theorem C1_rotation_clamped (len page : Z) (es : list Event) :
  let w := steps es (mount len page) in
  in_range (currentRotation (state w))
  /\ (forall p s, rendered w = Some (p, s) -> in_range (currentRotation s))
  /\ (forall v, In (Value v) (rotationQueue (fiber w)) -> in_range v).
Proof.
  intro w.
  destruct (good_steps es _ (good_mount len page)) as (H1 & H2 & _ & H4).
  split; [exact H1 | split].
  - intros p s E. exact (H2 _ E).
  - intros v Hv. fold w in H4.
    exact (proj1 (Forall_forall _ _) H4 (Value v) Hv).
Qed.

(** ** The transition guard *)

Section Guard.

Variable K : Direction -> Prop.
Variable s0 : State.

Lemma kept_enqueueDirection (d : option Direction) :
  (forall x, d = Some x -> K x) -> preserves (kept K s0) (enqueueDirection d).
Proof.
  intros Hd w [Hs Hq]. split; [exact Hs |].
  intros x Hx. cbn in Hx. apply in_app_or in Hx.
  destruct Hx as [Hx | [Hx | []]]; [now apply Hq | now apply Hd].
Qed.

Lemma kept_setTurningDirection (d : option Direction) :
  (forall x, d = Some x -> K x) ->
  preserves (kept K s0) (setTurningDirection d).
Proof.
  intros Hd w H. unfold setTurningDirection.
  destruct (noLanes w && turning_eqb d (turningDirection (state w)));
    [exact H | now apply kept_enqueueDirection].
Qed.

Lemma kept_enqueueRotation (u : RotationUpdate) :
  preserves (kept K s0) (enqueueRotation u).
Proof.
  intros w H. exact H.
Qed.

Lemma kept_setCurrentRotation (v : Q) :
  preserves (kept K s0) (setCurrentRotation v).
Proof.
  intros w H. unfold setCurrentRotation.
  destruct (noLanes w && Qeq_bool v (currentRotation (state w))); exact H.
Qed.

Lemma kept_callPageTurnComplete (n : Z) :
  preserves (kept K s0) (callPageTurnComplete n).
Proof.
  intros w H. unfold callPageTurnComplete.
  destruct (n =? currentPage (shell w))%Z; exact H.
Qed.

Lemma kept_same {A : Type} (m : M A) :
  (forall w, state (snd (m w)) = state w
             /\ directionQueue (fiber (snd (m w)))
                = directionQueue (fiber w)) ->
  preserves (kept K s0) m.
Proof.
  intros Hm w [Hs Hq]. destruct (Hm w) as [E1 E2].
  split; [now rewrite E1 |]. intros x Hx. apply Hq. now rewrite <- E2.
Qed.

Lemma kept_snapUpdater (setDirection : option Direction -> M unit)
    (a : Snap) (r : Q) :
  preserves (kept K s0) (setDirection None) ->
  preserves (kept K s0) (snapUpdater setDirection a r).
Proof.
  intro Hd. unfold snapUpdater.
  apply preserves_if; [| apply preserves_ret].
  apply preserves_bind; [| intros _; apply preserves_ret].
  apply preserves_if; [apply kept_callPageTurnComplete |].
  apply preserves_if; [apply kept_callPageTurnComplete |].
  apply preserves_bind; [exact Hd | intros _].
  apply kept_same. intro w. split; reflexivity.
Qed.

Lemma kept_setCurrentRotationWith (a : Snap) :
  preserves (kept K s0) (setCurrentRotationWith a).
Proof.
  intros w H. unfold setCurrentRotationWith.
  destruct (noLanes w); [| exact H].
  match goal with |- kept K s0 (snd (?m w)) =>
    enough (P : preserves (kept K s0) m) by exact (P w H)
  end.
  apply preserves_bind.
  - apply kept_snapUpdater, kept_setTurningDirection. discriminate.
  - intro v. apply preserves_if;
      [apply preserves_ret | apply kept_enqueueRotation].
Qed.

Lemma kept_animateSnap (a : Snap) : preserves (kept K s0) (animateSnap a).
Proof.
  unfold animateSnap.
  apply preserves_bind; [apply kept_setCurrentRotationWith | intros _].
  apply preserves_if; [| apply preserves_ret].
  apply kept_same. intro w. split; reflexivity.
Qed.

Lemma kept_snapEffect (p : Props) (s : State) :
  preserves (kept K s0) (snapEffect p s).
Proof.
  unfold snapEffect. destruct (turningDirection s) as [d |];
    [| apply preserves_ret].
  apply preserves_if; [| apply preserves_ret].
  destruct (snapTarget d _ _) as [tr tp]. apply kept_animateSnap.
Qed.

Lemma kept_resetEffect : preserves (kept K s0) resetEffect.
Proof.
  unfold resetEffect.
  apply preserves_bind;
    [apply kept_same; intro w; split; reflexivity | intros _].
  apply preserves_bind; [apply kept_setCurrentRotation | intros _].
  apply kept_setTurningDirection. discriminate.
Qed.

Lemma kept_gestureEffect (p : Props) (s : State) :
  (forall d, turningDirection s = None -> allowed d p -> K d) ->
  preserves (kept K s0) (gestureEffect p s).
Proof.
  intro HK. unfold gestureEffect.
  apply preserves_if; [apply preserves_ret |].
  apply preserves_if; [apply preserves_ret |].
  apply preserves_bind; [intros w H; exact H | intros acc0].
  apply preserves_bind;
    [apply kept_same; intro w; split; reflexivity | intros _].
  apply preserves_bind; [intros w H; exact H | intros acc].
  destruct (turningDirection s) as [d |]; [apply kept_setCurrentRotation |].
  destruct (Qle_bool acc (-10)
            && (currentPage p <? content_pages_length p - 1)%Z) eqn:E1.
  - apply andb_true_iff in E1. destruct E1 as [_ E1].
    apply Z.ltb_lt in E1. apply kept_setTurningDirection.
    intros x Hx. injection Hx as <-. now apply HK.
  - destruct (Qle_bool 10 acc && (0 <? currentPage p)%Z) eqn:E2.
    + apply andb_true_iff in E2. destruct E2 as [_ E2].
      apply Z.ltb_lt in E2. apply kept_setTurningDirection.
      intros x Hx. injection Hx as <-. now apply HK.
    + apply preserves_ret.
Qed.

End Guard.

(** The queue of the rotation, applied: only null joins the queue of the
    direction. *)
Lemma queued_reduceRotation (K : Direction -> Prop)
    (us : list RotationUpdate) :
  forall r, preserves (queued K) (reduceRotation us r).
Proof.
  induction us as [| u us IH]; intros r; [apply preserves_ret |].
  destruct u as [v | a]; cbn [reduceRotation]; [apply IH |].
  apply preserves_bind; [| intro v; apply IH].
  intros w H.
  assert (G : kept K (state w) w) by (split; [reflexivity | exact H]).
  refine (proj2 (kept_snapUpdater K (state w) enqueueDirection a r _ w G)).
  apply kept_enqueueDirection. discriminate.
Qed.

(** What a render returns and leaves. *)
Lemma render_eq (w : World) :
  let r := reduceRotation (rotationQueue (fiber w))
                          (currentRotation (state w))
                          (snd (setPendingProps false w)) in
  let s := mkState (fst r) (last (directionQueue (fiber (snd r)))
                                 (turningDirection (state w))) in
  render w =
  ((shell w, s),
   mkWorld (shell (snd r)) (fresh (snd r)) s
           (mkFiber (pendingProps (fiber (snd r))) [] []
              (hasUpdates w
               && (pendingProps (fiber w) || negb (State_eqb s (state w)))))
           (dragAccumulator (snd r)) (rendered (snd r))
           (animationFrame (snd r)) (completed (snd r))).
Proof.
  unfold render, bind.
  destruct (setPendingProps false w) as [[] w'] eqn:E0. cbn [snd].
  destruct (reduceRotation (rotationQueue (fiber w))
              (currentRotation (state w)) w') as [rot w0].
  reflexivity.
Qed.

Lemma last_cases {A : Type} (l : list A) (x y : A) :
  last l x = y -> x = y \/ In y l.
Proof.
  revert x. induction l as [| a l IH]; intros x H; [now left |].
  destruct l as [| b l].
  - right. left. exact H.
  - destruct (IH x H) as [E | E]; [left; exact E | right; right; exact E].
Qed.

Lemma rendered_then {A : Type} (m : M A) (k : M unit) (c : Props * State) :
  (forall w, rendered (snd (k w)) = Some c) ->
  forall w, rendered (snd ((m ;; k) w)) = Some c.
Proof.
  intros Hk w. unfold bind. destruct (m w) as [a w1]. apply Hk.
Qed.

(** The effects of a commit leave the state of the render, ask for a
    direction only under the guard, and record the render. *)
Lemma commit_effects (w w1 : World) (c : Props * State) :
  state w1 = snd c ->
  directionQueue (fiber w1) = [] ->
  let w2 := exec (when (runs snapDeps w c) cancelAnimationFrame ;;
                  when (runs resetDeps w c) resetEffect ;;
                  when (runs gestureDeps w c) (gestureEffect (fst c) (snd c)) ;;
                  when (runs snapDeps w c) (snapEffect (fst c) (snd c)) ;;
                  setRendered c) w1 in
  kept (fun d => turningDirection (snd c) = None /\ allowed d (fst c))
       (snd c) w2
  /\ rendered w2 = Some c.
Proof.
  intros Hs Hq w2. subst w2. unfold exec.
  set (K := fun d => turningDirection (snd c) = None /\ allowed d (fst c)).
  assert (G : kept K (snd c) w1).
  { split; [exact Hs |]. intros d Hd. rewrite Hq in Hd. destruct Hd. }
  split.
  - revert G. generalize w1.
    apply preserves_bind;
      [apply preserves_when, kept_same; intro v; split; reflexivity
      | intros _].
    apply preserves_bind; [apply preserves_when, kept_resetEffect | intros _].
    apply preserves_bind; [apply preserves_when, kept_gestureEffect | intros _].
    { intros d Hd Ha. now split. }
    apply preserves_bind; [apply preserves_when, kept_snapEffect | intros _].
    apply kept_same. intro v. split; reflexivity.
  - do 4 apply rendered_then. reflexivity.
Qed.

(** A scheduled commit is the render and the effects. *)
Lemma commit_scheduled (w : World) :
  scheduled w = true ->
  let c := fst (render w) in
  commit w =
  exec (when (runs snapDeps w c) cancelAnimationFrame ;;
        when (runs resetDeps w c) resetEffect ;;
        when (runs gestureDeps w c) (gestureEffect (fst c) (snd c)) ;;
        when (runs snapDeps w c) (snapEffect (fst c) (snd c)) ;;
        setRendered c) (snd (render w)).
Proof.
  intros H c. unfold commit. rewrite H. unfold exec, bind at 1.
  subst c. destruct (render w) as [c w1]. reflexivity.
Qed.

Lemma commit_idle (w : World) : scheduled w = false -> commit w = w.
Proof.
  intro H. unfold commit. now rewrite H.
Qed.

(** A commit changes the direction to one that was queued, and leaves in
    the queue only directions the props of its render allow. *)
Lemma commit_guard (w : World) (d : Direction) :
  (turningDirection (state (commit w)) = Some d ->
   turningDirection (state w) = Some d
   \/ In (Some d) (directionQueue (fiber w)))
  /\ (In (Some d) (directionQueue (fiber (commit w))) ->
      In (Some d) (directionQueue (fiber w))
      \/ exists p s, rendered (commit w) = Some (p, s)
                     /\ turningDirection s = None /\ allowed d p).
Proof.
  destruct (scheduled w) eqn:S;
    [| rewrite (commit_idle w S); split; intro H; left; exact H].
  rewrite (commit_scheduled w S). cbv zeta.
  pose proof (render_eq w) as R. cbv zeta in R.
  set (r := reduceRotation (rotationQueue (fiber w))
                           (currentRotation (state w))
                           (snd (setPendingProps false w))) in *.
  set (s := mkState (fst r) (last (directionQueue (fiber (snd r)))
                                  (turningDirection (state w)))) in *.
  rewrite R. cbn [fst snd].
  match goal with |- context [exec ?m ?w1] =>
    destruct (commit_effects w w1 (shell w, s) eq_refl eq_refl) as [[Ks Kq] Kr]
  end.
  cbv zeta in Ks, Kq, Kr. cbn [fst snd] in Ks, Kq, Kr.
  split.
  - intro H. rewrite Ks in H. unfold s in H. cbn [turningDirection] in H.
    apply last_cases in H. destruct H as [H | H]; [left; exact H | right].
    assert (Q : queued (fun x => In (Some x) (directionQueue (fiber w)))
                       (snd r)).
    { apply queued_reduceRotation. intros x Hx. exact Hx. }
    now apply Q.
  - intro H. right. exists (shell w), s.
    split; [exact Kr |]. exact (Kq d H).
Qed.

(** ** C9 *)

(** C9 on the code.  The guard holds: whatever happens, the direction of the
    state changes only to one that was queued, and a direction joins the
    queue only in a commit whose render shows no direction and whose props
    have a page on that side ([currentPage < content.pages.length - 1] for
    'next', [currentPage > 0] for 'prev').  When the accumulated drag crosses
    a threshold and that page does not exist, the gesture effect raises
    nothing and leaves state, props, queues, pending animation frame and
    completion calls as they are.  But the gesture is not inert: the delta
    stays in the accumulator, which nothing resets.  On the last page of a
    5-page book a flip forward leaves the animator at rest as it was, except
    for an accumulator of -190; the flip back that follows, which starts a
    turn from the page at rest, then starts none: the direction stays null,
    [onPageTurnComplete] is not called and the page stays 4. *)
Theorem C9_transition_guard :
  (forall e w d,
     (turningDirection (state (step e w)) = Some d ->
      turningDirection (state w) = Some d
      \/ In (Some d) (directionQueue (fiber w)))
     /\ (In (Some d) (directionQueue (fiber (step e w))) ->
         In (Some d) (directionQueue (fiber w))
         \/ exists p s, e = Commit
                        /\ rendered (step e w) = Some (p, s)
                        /\ turningDirection s = None /\ allowed d p))
  /\ (forall p s w,
       turningDirection s = None ->
       isGestureActive p = true ->
       ~ value (gestureSignal p) == 0 ->
       let acc := dragAccumulator w + value (gestureSignal p) * 1 in
       (acc <= -10 /\ ~ allowed next p) \/ (10 <= acc /\ ~ allowed prev p) ->
       let w' := exec (gestureEffect p s) w in
       state w' = state w /\ shell w' = shell w /\ fiber w' = fiber w
       /\ rendered w' = rendered w
       /\ completed w' = completed w
       /\ animationFrame w' = animationFrame w
       /\ dragAccumulator w' = acc)
  /\ (let w0 := opened 5 4 in
      let w1 := flip next w0 in
      let w2 := flip prev w1 in
      (quiescent w0 /\ dragAccumulator w0 = 0)
      /\ (quiescent w1 /\ state w1 = state w0 /\ completed w1 = []
          /\ currentPage (shell w1) = 4%Z /\ dragAccumulator w1 == -190)
      /\ turningDirection (state (settle 5 (triggerFlip prev w0))) = Some prev
      /\ turningDirection (state (settle 5 (triggerFlip prev w1))) = None
      /\ (quiescent w2 /\ completed w2 = [] /\ currentPage (shell w2) = 4%Z)).
Proof.
  split; [| split].
  - intros e w d. destruct e; cbn [step].
    + split; intro H; left; exact H.
    + split; intro H; left; exact H.
    + split; intro H; left; exact H.
    + destruct (commit_guard w d) as [G1 G2]. split; [exact G1 |].
      intro H. destruct (G2 H) as [G | (p & s & G)]; [now left | right].
      exists p, s. split; [reflexivity | exact G].
    + destruct (animationFrame w) as [a |];
        [| split; intro H; left; exact H].
      assert (G : kept (fun x => In (Some x) (directionQueue (fiber w)))
                       (state w)
                       (exec (cancelAnimationFrame ;; animateSnap a) w)).
      { unfold exec.
        apply (preserves_bind _ cancelAnimationFrame
                 (fun _ => animateSnap a)).
        - apply kept_same. intro v. split; reflexivity.
        - intros _. apply kept_animateSnap.
        - split; [reflexivity | intros x Hx; exact Hx]. }
      destruct G as [Gs Gq]. split; intro H.
      * left. now rewrite <- Gs.
      * left. now apply Gq.
  - intros p s w Hs Ha Hv acc Hq w'. subst w'.
    unfold exec, gestureEffect. rewrite Ha, Hs.
    apply Qeq_bool_false in Hv. rewrite Hv.
    cbn [negb bind getDragAccumulator setDragAccumulator dragAccumulator snd].
    fold acc. unfold allowed in Hq.
    destruct Hq as [[Q1 Q2] | [Q1 Q2]].
    + replace (currentPage p <? content_pages_length p - 1)%Z with false
        by (symmetry; now apply Z.ltb_nlt).
      rewrite andb_false_r.
      replace (Qle_bool 10 acc) with false
        by (symmetry; apply Qle_bool_false; lra).
      repeat split.
    + replace (Qle_bool acc (-10)) with false
        by (symmetry; apply Qle_bool_false; lra).
      replace (0 <? currentPage p)%Z with false
        by (symmetry; now apply Z.ltb_nlt).
      rewrite andb_false_r. repeat split.
  - unfold quiescent.
    repeat match goal with |- _ /\ _ => split end; vm_compute; reflexivity.
Qed.

Lemma C9_transition_guard_witness :
  let p := mkProps 5 (mkSignal (-190) 1 2%nat) true 2%nat 4 in
  let w := mkWorld p 3%nat (mkState 0 None) (mkFiber false [] [] false) 0
                   None None [] in
  let w' := exec (gestureEffect p (mkState 0 None)) w in
  state w' = state w /\ shell w' = shell w /\ fiber w' = fiber w
  /\ rendered w' = rendered w /\ completed w' = completed w
  /\ animationFrame w' = animationFrame w
  /\ dragAccumulator w' = 0 + -190 * 1.
Proof.
  intros p w.
  apply (proj1 (proj2 C9_transition_guard) p (mkState 0 None) w).
  - reflexivity.
  - reflexivity.
  - intro H. discriminate H.
  - left. split; [unfold Qle; simpl; lia | simpl; lia].
Defined.

(** ** Commits, step by step *)

Lemma turning_eqb_refl (d : option Direction) : turning_eqb d d = true.
Proof.
  now destruct d as [[|] |].
Qed.

Lemma Direction_eqb_refl (d : Direction) : Direction_eqb d d = true.
Proof.
  now destruct d.
Qed.

Lemma Qeq_bool_refl (a : Q) : Qeq_bool a a = true.
Proof.
  apply Qeq_bool_iff. reflexivity.
Qed.

Lemma snapTarget_stable (d : Direction) (r t : Q) (page tp : Z) :
  snapTarget d r page = (t, tp) -> in_range r ->
  snapTarget d (r + (t - r) * 0.22) page = (t, tp).
Proof.
  unfold snapTarget. intros H [L U].
  destruct d;
    [destruct (Qltb r (-90)) eqn:E | destruct (Qltb (-90) r) eqn:E];
    injection H as <- <-.
  - apply Qltb_lt in E.
    replace (Qltb (r + (-180 - r) * 0.22) (-90)) with true;
      [reflexivity | symmetry; apply Qltb_lt; lra].
  - apply Qltb_ge in E.
    replace (Qltb (r + (0 - r) * 0.22) (-90)) with false;
      [reflexivity | symmetry; apply Qltb_ge; lra].
  - apply Qltb_lt in E.
    replace (Qltb (-90) (r + (0 - r) * 0.22)) with true;
      [reflexivity | symmetry; apply Qltb_lt; lra].
  - apply Qltb_ge in E.
    replace (Qltb (-90) (r + (-180 - r) * 0.22)) with false;
      [reflexivity | symmetry; apply Qltb_ge; lra].
Qed.

Lemma snapTarget_fst (d : Direction) (r t : Q) (page tp : Z) :
  snapTarget d r page = (t, tp) -> t = 0 \/ t = -180.
Proof.
  intro H. pose proof (snapTarget_cases d r page) as C.
  now rewrite H in C.
Qed.

Lemma far_moves (t r : Q) :
  Qltb (Qabs (t - r)) 2 = false -> Qeq_bool (r + (t - r) * 0.22) r = false.
Proof.
  intro H. apply Qltb_ge in H. apply Qeq_bool_false.
  destruct (Qabs_cases (t - r)) as [[A1 A2] | [A1 A2]]; lra.
Qed.

Lemma Qeq_bool_sym (a b : Q) : Qeq_bool a b = Qeq_bool b a.
Proof.
  destruct (Qeq_bool b a) eqn:E.
  - apply Qeq_bool_iff. apply Qeq_bool_iff in E. now symmetry.
  - apply Qeq_bool_false. apply Qeq_bool_false in E. intro H. apply E.
    now symmetry.
Qed.

(** While the target is at least 2 away, a commit of the snap moves the
    rotation 22% of the way, queues the next update and changes nothing
    else. *)
Lemma commit_snap_far (d : Direction) (t : Q) (tp : Z) (r : Q) (w : World) :
  snapping d t tp r w ->
  Qltb (Qabs (t - r)) 2 = false ->
  let r' := r + (t - r) * 0.22 in
  commit w =
  mkWorld (shell w) (fresh w) (mkState r' (Some d))
          (mkFiber false [Updater (mkSnap t tp d r')] [] true)
          (dragAccumulator w) (Some (shell w, mkState r' (Some d)))
          (if Qltb 0.5 (Qabs (t - r')) then Some (mkSnap t tp d r') else None)
          (completed w).
Proof.
  intros (Ha & Hs & Hr & Hq & Hd & Ht & Hrange) Hfar r'.
  pose proof (snapTarget_stable d r t _ tp Ht Hrange) as Ht'.
  pose proof (far_moves t r Hfar) as Hm.
  assert (Hm' : Qeq_bool r (r + (t - r) * 0.22) = false)
    by now rewrite Qeq_bool_sym.
  unfold r'. clear r'.
  destruct w as [[len sig act cb page] fr st [pp rq dq al] acc rd af cp].
  cbn [shell state rendered fiber rotationQueue directionQueue
       isGestureActive currentPage] in *.
  subst act st rd rq dq. clear Ht.
  unfold commit. simplify.
  destruct (Qltb 0.5 (Qabs (t - (r + (t - r) * 0.22)))); reflexivity.
Qed.

Lemma settle_succ_r (n : nat) (w : World) :
  settle (S n) w = settle n (commit w).
Proof.
  apply Nat.iter_succ_r.
Qed.

Lemma settle_add (a b : nat) (w : World) :
  settle (a + b) w = settle a (settle b w).
Proof.
  apply Nat.iter_add.
Qed.

Lemma settle_fixed (m : nat) (w : World) : commit w = w -> settle m w = w.
Proof.
  intro H. induction m as [| m IH]; [reflexivity |].
  change (settle (S m) w) with (commit (settle m w)). now rewrite IH.
Qed.

Lemma settled_commit (w : World) : settled w -> commit w = w.
Proof.
  intros (_ & H & _). now apply commit_idle.
Qed.

Lemma settled_quiescent (w : World) : settled w -> quiescent w.
Proof.
  intro H. split; [now apply settled_commit | apply H].
Qed.

(** Once at rest, more commits change nothing. *)
Lemma landed_later (calls : list Z) (page : Z) (rot : Q) (w w0 : World)
    (k n : nat) :
  landed calls page rot w (settle k w0) ->
  (k <= n)%nat ->
  landed calls page rot w (settle n w0).
Proof.
  intros H Hn. replace n with ((n - k) + k)%nat by lia.
  rewrite settle_add, settle_fixed; [exact H |].
  apply settled_commit, H.
Qed.

(** While the target is at least 2 away, a commit moves the rotation 22% of
    the way and changes nothing else. *)
Lemma snapping_step (d : Direction) (t : Q) (tp : Z) (r : Q) (w : World) :
  snapping d t tp r w ->
  Qltb (Qabs (t - r)) 2 = false ->
  snapping d t tp (r + (t - r) * 0.22) (commit w)
  /\ Qeq_bool (r + (t - r) * 0.22) t = false
  /\ shell (commit w) = shell w
  /\ fresh (commit w) = fresh w
  /\ dragAccumulator (commit w) = dragAccumulator w
  /\ completed (commit w) = completed w.
Proof.
  intros Hsn Hfar.
  rewrite (commit_snap_far d t tp r w Hsn Hfar).
  destruct Hsn as (Ha & Hs & Hr & Hq & Hd & Ht & Hrange).
  cbn [shell fresh state dragAccumulator completed rendered].
  split; [| split; [| repeat split]].
  - unfold snapping.
    cbn [shell fresh state dragAccumulator completed rendered fiber
         rotationQueue directionQueue].
    split; [exact Ha |]. do 4 (split; [reflexivity |]).
    split; [now apply snapTarget_stable |].
    apply interpolate_range; [| exact Hrange].
    exact (snapTarget_fst d r t _ tp Ht).
  - apply Qeq_bool_false. apply Qltb_ge in Hfar.
    destruct (Qabs_cases (t - r)) as [[A1 A2] | [A1 A2]]; lra.
Qed.

(** After at most [k] commits the snap is within 2 of its target, when
    [0.78 ^ k] times the distance is below 2. *)
Lemma snapping_lands (d : Direction) (t : Q) (tp : Z) (k : nat) :
  forall w r,
  snapping d t tp r w ->
  Qeq_bool r t = false ->
  damp k (Qabs (t - r)) < 2 ->
  exists j r',
    (j <= k)%nat
    /\ snapping d t tp r' (settle j w)
    /\ Qltb (Qabs (t - r')) 2 = true
    /\ Qeq_bool r' t = false
    /\ shell (settle j w) = shell w
    /\ fresh (settle j w) = fresh w
    /\ dragAccumulator (settle j w) = dragAccumulator w
    /\ completed (settle j w) = completed w.
Proof.
  induction k as [| k IH]; intros w r Hsn Hne Hk.
  - exists 0%nat, r. change (Qabs (t - r) < 2) in Hk.
    apply Qltb_lt in Hk.
    split; [lia |]. split; [exact Hsn |]. split; [exact Hk |].
    split; [exact Hne | repeat split].
  - destruct (Qltb (Qabs (t - r)) 2) eqn:E.
    + exists 0%nat, r.
      split; [lia |]. split; [exact Hsn |]. split; [exact E |].
      split; [exact Hne | repeat split].
    + destruct (snapping_step d t tp r w Hsn E)
        as (S1 & S0 & S2 & S3 & S4 & S5).
      change (damp k (0.78 * Qabs (t - r)) < 2) in Hk.
      destruct (IH (commit w) (r + (t - r) * 0.22) S1 S0)
        as (j & r' & Hj & I1 & I2 & I0 & I3 & I4 & I5 & I6).
      { eapply Qle_lt_trans; [| exact Hk]. apply damp_mono.
        apply Qltb_ge in E.
        destruct (Qabs_cases (t - (r + (t - r) * 0.22))) as [[A1 A2] | [A1 A2]];
          destruct (Qabs_cases (t - r)) as [[B1 B2] | [B1 B2]]; lra. }
      exists (S j), r'. rewrite settle_succ_r.
      split; [lia |]. split; [exact I1 |]. split; [exact I2 |].
      split; [exact I0 |].
      split; [congruence |]. split; [congruence |].
      split; congruence.
Qed.

(** ** The end of a snap *)

Lemma landed_from (calls : list Z) (page : Z) (rot : Q) (w w1 w' : World) :
  landed calls page rot w1 w' ->
  completed w1 = completed w ->
  content_pages_length (shell w1) = content_pages_length (shell w) ->
  landed calls page rot w w'.
Proof.
  intros (H1 & H2 & H3 & H4 & H5) E1 E2.
  split; [exact H1 |]. split; [now rewrite <- E1 |].
  split; [exact H3 |]. split; [now rewrite <- E2 | exact H5].
Qed.

(** A turn forward: the update that reaches -180 calls
    [onPageTurnComplete]; the render it ran in shows -180 with the old page,
    so the snap effect runs again and its update calls once more; the commit
    that delivers the new page resets, with one more step of the snap queued
    behind the reset. *)
Lemma snapping_turns_next (w : World) (r : Q) (tp : Z) :
  snapping next (-180) tp r w ->
  Qltb (Qabs (-180 - r)) 2 = true ->
  Qeq_bool r (-180) = false ->
  landed [tp; tp] tp (0 + (-180 - 0) * 0.22) w (settle 3 w).
Proof.
  intros (Ha & Hs & Hr & Hq & Hd & Ht & Hrange) Hnear Hne.
  assert (Hne' : Qeq_bool (-180) r = false) by now rewrite Qeq_bool_sym.
  open_snapping w.
  assert (Htp : tp = (page + 1)%Z).
  { unfold snapTarget in Ht. destruct (Qltb r (-90)); now injection Ht. }
  subst tp. clear Ht.
  assert (P1 : (page + 1 =? page)%Z = false) by (apply Z.eqb_neq; lia).
  assert (P2 : (page =? page + 1)%Z = false) by (apply Z.eqb_neq; lia).
  assert (T1 : forall p, snapTarget next (-180) p = (-180, (p + 1)%Z))
    by reflexivity.
  change (settle 3 ?X) with (commit (commit (commit X))).
  do 3 commit_once. landed_done.
Qed.

(** A snap back: the update that reaches the target clears the direction and
    the accumulator in the render it runs in. *)
Lemma snapping_cancels_next (w : World) (r : Q) (tp : Z) :
  snapping next 0 tp r w ->
  Qltb (Qabs (0 - r)) 2 = true ->
  landed [] (currentPage (shell w)) 0 w (settle 1 w).
Proof.
  intros (Ha & Hs & Hr & Hq & Hd & Ht & Hrange) Hnear.
  open_snapping w. clear Ht.
  change (settle 1 ?X) with (commit X).
  commit_once. landed_done. symmetry; apply app_nil_r.
Qed.

Lemma snapping_cancels_prev (w : World) (r : Q) (tp : Z) :
  snapping prev (-180) tp r w ->
  Qltb (Qabs (-180 - r)) 2 = true ->
  landed [] (currentPage (shell w)) (-180) w (settle 1 w).
Proof.
  intros (Ha & Hs & Hr & Hq & Hd & Ht & Hrange) Hnear.
  open_snapping w. clear Ht.
  change (settle 1 ?X) with (commit X).
  commit_once. landed_done. symmetry; apply app_nil_r.
Qed.

(** A turn back: as forward, the update that reaches 0 calls
    [onPageTurnComplete] and the snap effect of that render calls once more;
    in the commit that delivers the new page the snap effect runs again, and
    its update, queued behind the reset to 0, is at its target at once and
    calls with the page before. *)
Lemma snapping_turns_prev (w : World) (r : Q) (tp : Z) :
  snapping prev 0 tp r w ->
  Qltb (Qabs (0 - r)) 2 = true ->
  Qeq_bool r 0 = false ->
  landed [tp; tp; (tp - 1)%Z] (tp - 1) 0 w (settle 4 w).
Proof.
  intros (Ha & Hs & Hr & Hq & Hd & Ht & Hrange) Hnear Hne.
  assert (Hne' : Qeq_bool 0 r = false) by now rewrite Qeq_bool_sym.
  open_snapping w.
  assert (Htp : tp = (page - 1)%Z).
  { unfold snapTarget in Ht. destruct (Qltb (-90) r); now injection Ht. }
  subst tp. clear Ht.
  assert (P1 : (page - 1 =? page)%Z = false) by (apply Z.eqb_neq; lia).
  assert (P2 : (page =? page - 1)%Z = false) by (apply Z.eqb_neq; lia).
  assert (P3 : (page - 1 - 1 =? page - 1)%Z = false)
    by (apply Z.eqb_neq; lia).
  assert (P4 : (page - 1 =? page - 1 - 1)%Z = false)
    by (apply Z.eqb_neq; lia).
  assert (T1 : forall p, snapTarget prev 0 p = (0, (p - 1)%Z))
    by reflexivity.
  change (settle 4 ?X) with (commit (commit (commit (commit X)))).
  do 4 commit_once. landed_done.
Qed.

(** ** The release of a drag *)

(** The end of the gesture with the target at least 2 away: the snap effect
    runs after a render the parent has caused, so React computes its update
    at the call; the next render shows the rotation 22% of the way, and its
    snap effect queues the next update. *)
Lemma release_far (w : World) (c0 : Props * State) (d : Direction)
    (r t : Q) (tp : Z) :
  rendered w = Some c0 ->
  isGestureActive (fst c0) = true ->
  currentPage (fst c0) = currentPage (shell w) ->
  state w = mkState r (Some d) ->
  rotationQueue (fiber w) = [] ->
  directionQueue (fiber w) = [] ->
  in_range r ->
  snapTarget d r (currentPage (shell w)) = (t, tp) ->
  Qltb (Qabs (t - r)) 2 = false ->
  let w2 := settle 2 (step GestureEnd w) in
  snapping d t tp (r + (t - r) * 0.22) w2
  /\ Qeq_bool (r + (t - r) * 0.22) t = false
  /\ completed w2 = completed w
  /\ content_pages_length (shell w2) = content_pages_length (shell w)
  /\ currentPage (shell w2) = currentPage (shell w).
Proof.
  intros Hr Ha Hp Hs Hq Hd Hrange Ht Hfar.
  pose proof (snapTarget_stable d r t _ tp Ht Hrange) as Ht'.
  pose proof (far_moves t r Hfar) as Hm.
  assert (Hm' : Qeq_bool r (r + (t - r) * 0.22) = false)
    by now rewrite Qeq_bool_sym.
  assert (Hne : Qeq_bool (r + (t - r) * 0.22) t = false).
  { apply Qeq_bool_false. apply Qltb_ge in Hfar.
    destruct (Qabs_cases (t - r)) as [[A1 A2] | [A1 A2]]; lra. }
  assert (Hin : in_range (r + (t - r) * 0.22)).
  { apply interpolate_range; [| exact Hrange].
    exact (snapTarget_fst d r t _ tp Ht). }
  assert (Hhalf : Qltb 0.5 (Qabs (t - r)) = true).
  { apply Qltb_lt. apply Qltb_ge in Hfar. lra. }
  destruct (Qltb 0.5 (Qabs (t - (r + (t - r) * 0.22)))) eqn:Hf.
  all: open_release w c0.
  all: change (settle 2 ?X) with (commit (commit X)).
  all: unfold step, exec, setShell.
  all: cbn [snd shell fresh state fiber rotationQueue directionQueue
       alternateLanes dragAccumulator rendered animationFrame completed
       content_pages_length gestureSignal isGestureActive currentPage
       onPageTurnComplete].
  all: do 2 commit_once.
  all: unfold snapping.
  all: cbn [shell state rendered fiber completed rotationQueue directionQueue
       currentPage content_pages_length isGestureActive].
  all: repeat match goal with |- _ /\ _ => split end;
    try reflexivity; assumption.
Qed.

(** The end of the gesture within 2 of the end of a turn forward: React
    computes the update of the snap effect at the call, which is where
    [onPageTurnComplete] is called, once. *)
Lemma release_near_turn_next (w : World) (r : Q) :
  turning next r w ->
  Qltb r (-90) = true ->
  Qltb (Qabs (-180 - r)) 2 = true ->
  landed [(currentPage (shell w) + 1)%Z] (currentPage (shell w) + 1)
         (0 + (-180 - 0) * 0.22) w (settle 3 (step GestureEnd w)).
Proof.
  intros ((c0 & Hr & Ha & Hp) & Hs & Hq & Hd & Hrange) Hlow Hnear.
  assert (T : forall p, snapTarget next r p = (-180, (p + 1)%Z))
    by (intro p; unfold snapTarget; now rewrite Hlow).
  assert (T1 : forall p, snapTarget next (-180) p = (-180, (p + 1)%Z))
    by reflexivity.
  assert (Z0 : Qeq_bool 0 r = false).
  { apply Qeq_bool_false. apply Qltb_lt in Hlow. intro E. rewrite <- E in Hlow.
    lra. }
  pose proof (Qeq_bool_sym r (-180)) as Es.
  destruct (Qeq_bool r (-180)) eqn:E1; symmetry in Es;
    destruct (Qltb 0.5 (Qabs (-180 - r))) eqn:Hf.
  all: release_start w c0.
  all: assert (P1 : (page + 1 =? page)%Z = false) by (apply Z.eqb_neq; lia).
  all: assert (P2 : (page =? page + 1)%Z = false) by (apply Z.eqb_neq; lia).
  all: change (settle 3 ?X) with (commit (commit (commit X))).
  all: do 3 commit_once.
  all: landed_done.
Qed.

(** The end of the gesture within 2 of the start of a turn forward: the snap
    back clears the direction and the accumulator at once. *)
Lemma release_near_cancel_next (w : World) (r : Q) :
  turning next r w ->
  Qltb r (-90) = false ->
  Qltb (Qabs (0 - r)) 2 = true ->
  landed [] (currentPage (shell w)) 0 w (settle 2 (step GestureEnd w)).
Proof.
  intros ((c0 & Hr & Ha & Hp) & Hs & Hq & Hd & Hrange) Hhigh Hnear.
  assert (T : forall p, snapTarget next r p = (0, p))
    by (intro p; unfold snapTarget; now rewrite Hhigh).
  pose proof (Qeq_bool_sym r 0) as Es.
  destruct (Qeq_bool r 0) eqn:E1; symmetry in Es;
    destruct (Qltb 0.5 (Qabs (0 - r))) eqn:Hf.
  all: release_start w c0.
  all: change (settle 2 ?X) with (commit (commit X)).
  all: do 2 commit_once.
  all: landed_done.
  all: symmetry; apply app_nil_r.
Qed.

(** The end of the gesture within 2 of the end of a turn back. *)
Lemma release_near_turn_prev (w : World) (r : Q) :
  turning prev r w ->
  Qltb (-90) r = true ->
  Qltb (Qabs (0 - r)) 2 = true ->
  landed [(currentPage (shell w) - 1)%Z; (currentPage (shell w) - 1 - 1)%Z]
         (currentPage (shell w) - 1 - 1) 0 w
         (settle 4 (step GestureEnd w)).
Proof.
  intros ((c0 & Hr & Ha & Hp) & Hs & Hq & Hd & Hrange) Hhigh Hnear.
  assert (T : forall p, snapTarget prev r p = (0, (p - 1)%Z))
    by (intro p; unfold snapTarget; now rewrite Hhigh).
  assert (T1 : forall p, snapTarget prev 0 p = (0, (p - 1)%Z))
    by reflexivity.
  pose proof (Qeq_bool_sym r 0) as Es.
  destruct (Qeq_bool r 0) eqn:E1; symmetry in Es;
    destruct (Qltb 0.5 (Qabs (0 - r))) eqn:Hf.
  all: release_start w c0.
  all: assert (P1 : (page - 1 =? page)%Z = false) by (apply Z.eqb_neq; lia).
  all: assert (P2 : (page =? page - 1)%Z = false) by (apply Z.eqb_neq; lia).
  all: assert (P3 : (page - 1 - 1 =? page - 1)%Z = false)
         by (apply Z.eqb_neq; lia).
  all: assert (P4 : (page - 1 =? page - 1 - 1)%Z = false)
         by (apply Z.eqb_neq; lia).
  all: change (settle 4 ?X) with (commit (commit (commit (commit X)))).
  all: do 4 commit_once.
  all: landed_done.
Qed.

(** The end of the gesture within 2 of the start of a turn back. *)
Lemma release_near_cancel_prev (w : World) (r : Q) :
  turning prev r w ->
  Qltb (-90) r = false ->
  Qltb (Qabs (-180 - r)) 2 = true ->
  landed [] (currentPage (shell w)) (-180) w (settle 2 (step GestureEnd w)).
Proof.
  intros ((c0 & Hr & Ha & Hp) & Hs & Hq & Hd & Hrange) Hlow Hnear.
  assert (T : forall p, snapTarget prev r p = (-180, p))
    by (intro p; unfold snapTarget; now rewrite Hlow).
  pose proof (Qeq_bool_sym r (-180)) as Es.
  destruct (Qeq_bool r (-180)) eqn:E1; symmetry in Es;
    destruct (Qltb 0.5 (Qabs (-180 - r))) eqn:Hf.
  all: release_start w c0.
  all: change (settle 2 ?X) with (commit (commit X)).
  all: do 2 commit_once.
  all: landed_done.
  all: symmetry; apply app_nil_r.
Qed.

(** The snap goes to the nearer end. *)
Lemma snapTarget_distance (d : Direction) (r t : Q) (page tp : Z) :
  snapTarget d r page = (t, tp) -> in_range r -> Qabs (t - r) <= 90.
Proof.
  unfold snapTarget. intros H [L U].
  destruct d;
    [destruct (Qltb r (-90)) eqn:E | destruct (Qltb (-90) r) eqn:E];
    injection H as <- <-;
    first [apply Qltb_lt in E | apply Qltb_ge in E];
    match goal with |- Qabs ?x <= _ =>
      destruct (Qabs_cases x) as [[A1 A2] | [A1 A2]]
    end; lra.
Qed.

(** From the end of the gesture, at least 2 from the target, the snap is
    within 2 of it after at most 17 commits. *)
Lemma release_lands (w : World) (d : Direction) (r t : Q) (tp : Z) :
  turning d r w ->
  snapTarget d r (currentPage (shell w)) = (t, tp) ->
  Qltb (Qabs (t - r)) 2 = false ->
  exists j r',
    (j <= 15)%nat
    /\ snapping d t tp r' (settle (j + 2) (step GestureEnd w))
    /\ Qltb (Qabs (t - r')) 2 = true
    /\ Qeq_bool r' t = false
    /\ completed (settle (j + 2) (step GestureEnd w)) = completed w
    /\ content_pages_length (shell (settle (j + 2) (step GestureEnd w)))
       = content_pages_length (shell w)
    /\ currentPage (shell (settle (j + 2) (step GestureEnd w)))
       = currentPage (shell w).
Proof.
  intros ((c0 & Hr & Ha & Hp) & Hs & Hq & Hd & Hrange) Ht Hfar.
  destruct (release_far w c0 d r t tp Hr Ha Hp Hs Hq Hd Hrange Ht Hfar)
    as (Sn & Ne & C & L & P).
  pose proof (snapTarget_distance d r t _ tp Ht Hrange) as D.
  destruct (snapping_lands d t tp 15 _ _ Sn Ne)
    as (j & r' & Hj & I1 & I2 & I0 & I3 & I4 & I5 & I6).
  { apply Qle_lt_trans with (damp 15 (0.78 * 90));
      [| vm_compute; reflexivity].
    apply damp_mono.
    destruct (Qabs_cases (t - (r + (t - r) * 0.22))) as [[A1 A2] | [A1 A2]];
      destruct (Qabs_cases (t - r)) as [[B1 B2] | [B1 B2]]; lra. }
  exists j, r'. rewrite settle_add.
  split; [exact Hj |]. split; [exact I1 |]. split; [exact I2 |].
  split; [exact I0 |].
  split; [now rewrite I6 |]. rewrite I3. split; assumption.
Qed.

(** ** The release of a turn forward and of a turn back *)

(** When the gesture ends during a drag in direction 'next', the snap
    compares the rotation with -90.  Below it React comes to rest on the
    next page, at rotation -39.6; [onPageTurnComplete] is called with that
    page twice, or once when the rotation was within 2 of -180.  At or above
    it React comes to rest on the same page at rotation 0, with no call. *)
Lemma release_next (w : World) (r : Q) (n : nat) :
  turning next r w ->
  (20 <= n)%nat ->
  let w' := settle n (step GestureEnd w) in
  let page := currentPage (shell w) in
  (r < -90 ->
   landed (if Qltb (Qabs (-180 - r)) 2
           then [(page + 1)%Z] else [(page + 1)%Z; (page + 1)%Z])
          (page + 1) (0 + (-180 - 0) * 0.22) w w')
  /\ (-90 <= r -> landed [] page 0 w w').
Proof.
  intros Hw Hn w' page. subst w' page. split; intro Hside.
  - apply Qltb_lt in Hside.
    assert (Ht : snapTarget next r (currentPage (shell w))
                 = (-180, (currentPage (shell w) + 1)%Z))
      by (unfold snapTarget; now rewrite Hside).
    destruct (Qltb (Qabs (-180 - r)) 2) eqn:Hnear.
    + apply landed_later with (k := 3%nat); [| lia].
      apply (release_near_turn_next w r); assumption.
    + destruct (release_lands w next r (-180) _ Hw Ht Hnear)
        as (j & r' & Hj & Sn & Near & Ne & C & L & P).
      apply landed_later with (k := (3 + (j + 2))%nat); [| lia].
      rewrite settle_add.
      apply (landed_from _ _ _ _ _ _
               (snapping_turns_next _ r' _ Sn Near Ne) C L).
  - apply Qltb_ge in Hside.
    assert (Ht : snapTarget next r (currentPage (shell w))
                 = (0, currentPage (shell w)))
      by (unfold snapTarget; now rewrite Hside).
    destruct (Qltb (Qabs (0 - r)) 2) eqn:Hnear.
    + apply landed_later with (k := 2%nat); [| lia].
      apply (release_near_cancel_next w r); assumption.
    + destruct (release_lands w next r 0 _ Hw Ht Hnear)
        as (j & r' & Hj & Sn & Near & Ne & C & L & P).
      apply landed_later with (k := (1 + (j + 2))%nat); [| lia].
      rewrite settle_add. rewrite <- P.
      apply (landed_from _ _ _ _ _ _
               (snapping_cancels_next _ r' _ Sn Near) C L).
Qed.

(** When the gesture ends during a drag in direction 'prev', the snap
    compares the rotation with -90.  Above it React comes to rest two pages
    back, at rotation 0: [onPageTurnComplete] is called with the page before
    (twice, or once when the rotation was within 2 of 0) and then, in the
    commit that delivers that page, with the page before that one.  At or
    below it React comes to rest on the same page at rotation -180, with no
    call. *)
Lemma release_prev (w : World) (r : Q) (n : nat) :
  turning prev r w ->
  (21 <= n)%nat ->
  let w' := settle n (step GestureEnd w) in
  let page := currentPage (shell w) in
  (-90 < r ->
   landed (if Qltb (Qabs (0 - r)) 2
           then [(page - 1)%Z; (page - 1 - 1)%Z]
           else [(page - 1)%Z; (page - 1)%Z; (page - 1 - 1)%Z])
          (page - 1 - 1) 0 w w')
  /\ (r <= -90 -> landed [] page (-180) w w').
Proof.
  intros Hw Hn w' page. subst w' page. split; intro Hside.
  - apply Qltb_lt in Hside.
    assert (Ht : snapTarget prev r (currentPage (shell w))
                 = (0, (currentPage (shell w) - 1)%Z))
      by (unfold snapTarget; now rewrite Hside).
    destruct (Qltb (Qabs (0 - r)) 2) eqn:Hnear.
    + apply landed_later with (k := 4%nat); [| lia].
      apply (release_near_turn_prev w r); assumption.
    + destruct (release_lands w prev r 0 _ Hw Ht Hnear)
        as (j & r' & Hj & Sn & Near & Ne & C & L & P).
      apply landed_later with (k := (4 + (j + 2))%nat); [| lia].
      rewrite settle_add.
      apply (landed_from _ _ _ _ _ _
               (snapping_turns_prev _ r' _ Sn Near Ne) C L).
  - apply Qltb_ge in Hside.
    assert (Ht : snapTarget prev r (currentPage (shell w))
                 = (-180, currentPage (shell w)))
      by (unfold snapTarget; now rewrite Hside).
    destruct (Qltb (Qabs (-180 - r)) 2) eqn:Hnear.
    + apply landed_later with (k := 2%nat); [| lia].
      apply (release_near_cancel_prev w r); assumption.
    + destruct (release_lands w prev r (-180) _ Hw Ht Hnear)
        as (j & r' & Hj & Sn & Near & Ne & C & L & P).
      apply landed_later with (k := (1 + (j + 2))%nat); [| lia].
      rewrite settle_add. rewrite <- P.
      apply (landed_from _ _ _ _ _ _
               (snapping_cancels_prev _ r' _ Sn Near) C L).
Qed.

(** ** C3 *)

(** C3. When the gesture ends during a drag in direction 'next', the snap
    compares the rotation with -90.  Below it (at -91, say) the snap goes to
    -180 and React comes to rest with the parent on the next page and the
    direction null; [onPageTurnComplete] has been called with that page,
    twice: by the update that reaches -180, and again by the snap effect of
    the render that update ran in, which still has the old page (once only
    when the rotation was within 2 of -180 at the release).  At or above it
    (at -89, say) the snap goes back to 0 and React comes to rest with no
    call, the page unchanged, the rotation 0 and the direction null. *)
Theorem C3_midpoint (w : World) (r : Q) (n : nat) :
  turning next r w ->
  (20 <= n)%nat ->
  let w' := settle n (step GestureEnd w) in
  let page := currentPage (shell w) in
  (r < -90 ->
     snapTarget next r page = (-180, (page + 1)%Z)
     /\ completed w' =
        completed w ++ (if Qltb (Qabs (-180 - r)) 2
                        then [(page + 1)%Z]
                        else [(page + 1)%Z; (page + 1)%Z])
     /\ currentPage (shell w') = (page + 1)%Z
     /\ turningDirection (state w') = None
     /\ quiescent w')
  /\ (-90 <= r ->
      snapTarget next r page = (0, page)
      /\ completed w' = completed w
      /\ currentPage (shell w') = page
      /\ currentRotation (state w') == 0
      /\ turningDirection (state w') = None
      /\ quiescent w').
Proof.
  intros Hw Hn w' page.
  destruct (release_next w r n Hw Hn) as [T C]. fold w' page in T, C.
  split; intro Hside.
  - destruct (T Hside) as (S & Hc & Hp & _ & _ & Hd & _).
    split; [| split; [exact Hc | split; [exact Hp | split; [exact Hd |]]]].
    + apply Qltb_lt in Hside. unfold snapTarget. now rewrite Hside.
    + now apply settled_quiescent.
  - destruct (C Hside) as (S & Hc & Hp & _ & _ & Hd & Hrot & _).
    split; [| split; [| split; [exact Hp | split; [exact Hrot |
                                  split; [exact Hd |]]]]].
    + apply Qltb_ge in Hside. unfold snapTarget. now rewrite Hside.
    + rewrite Hc. apply app_nil_r.
    + now apply settled_quiescent.
Qed.

Lemma C3_midpoint_witness :
  (let w' := settle 20 (step GestureEnd (dragged (-91))) in
   snapTarget next (-91) 2 = (-180, 3%Z)
   /\ completed w' = [3%Z; 3%Z] /\ currentPage (shell w') = 3%Z
   /\ turningDirection (state w') = None /\ quiescent w')
  /\ (let w' := settle 20 (step GestureEnd (dragged (-89))) in
      snapTarget next (-89) 2 = (0, 2%Z)
      /\ completed w' = [] /\ currentPage (shell w') = 2%Z
      /\ currentRotation (state w') == 0
      /\ turningDirection (state w') = None /\ quiescent w').
Proof.
  assert (R : forall r, in_range r -> turning next r (dragged r)).
  { intros r Hr. split.
    - eexists. split; [reflexivity | split; reflexivity].
    - split; [reflexivity |]. split; [reflexivity |].
      split; [reflexivity | exact Hr]. }
  split.
  - apply (C3_midpoint (dragged (-91)) (-91) 20).
    + apply R. split; unfold Qle; simpl; lia.
    + lia.
    + reflexivity.
  - apply (C3_midpoint (dragged (-89)) (-89) 20).
    + apply R. split; unfold Qle; simpl; lia.
    + lia.
    + unfold Qle; simpl; lia.
Defined.

(** ** C2 *)

(** C2 on the code.  On page 0 of a 5-page book one flip forward, a gesture
    of -190 and its end, turns the page: the direction goes from null to
    'next' (rotation -180, snap target -180) and back to null, and
    [onPageTurnComplete] is called once, with 1; but the rotation comes to
    rest at -39.6, not at 0: the commit that delivers the new page still runs
    the snap effect of the turn, whose update is queued behind the reset.  On
    page 3, one flip backward calls [onPageTurnComplete] twice, with 2 and
    then with 1, for the same reason. *)
Theorem C2_flip_completion :
  let w0 := opened 5 0 in
  let w1 := settle 5 (triggerFlip next w0) in
  let w2 := flip next w0 in
  let v2 := flip prev (opened 5 3) in
  (quiescent w0 /\ turningDirection (state w0) = None)
  /\ (quiescent w1 /\ turningDirection (state w1) = Some next
      /\ currentRotation (state w1) == -180
      /\ snapTarget next (currentRotation (state w1)) 0 = (-180, 1%Z))
  /\ (quiescent w2 /\ turningDirection (state w2) = None
      /\ completed w2 = [1%Z] /\ currentPage (shell w2) = 1%Z
      /\ currentRotation (state w2) == -39.6)
  /\ (quiescent v2 /\ completed v2 = [2%Z; 1%Z]
      /\ currentPage (shell v2) = 1%Z).
Proof.
  unfold quiescent.
  repeat match goal with |- _ /\ _ => split end; vm_compute; reflexivity.
Qed.

(** The state a commit leaves is the state of its render. *)
Lemma commit_state (w : World) :
  scheduled w = true -> state (commit w) = snd (fst (render w)).
Proof.
  intro S. rewrite (commit_scheduled w S). cbv zeta.
  pose proof (render_eq w) as R. cbv zeta in R. rewrite R. cbn [fst snd].
  match goal with |- state (exec ?m ?w1) = ?s =>
    destruct (commit_effects w w1 (shell w, s) eq_refl eq_refl) as [[Ks _] _]
  end.
  exact Ks.
Qed.

Lemma fst_then_ret {A : Type} (m : M unit) (a : A) (w : World) :
  fst ((m ;; ret a) w) = a.
Proof.
  unfold bind, ret. now destruct (m w).
Qed.

Lemma fst_bind_ret {A : Type} (m : M A) (w : World) :
  fst ((v <- m ;; ret v) w) = fst (m w).
Proof.
  unfold bind, ret. now destruct (m w).
Qed.

(** Within 2 of the target, the commit of the snap shows the target. *)
Lemma commit_snap_near (d : Direction) (t : Q) (tp : Z) (r : Q) (w : World) :
  snapping d t tp r w ->
  Qltb (Qabs (t - r)) 2 = true ->
  currentRotation (state (commit w)) = t.
Proof.
  intros (Ha & Hs & Hr & Hq & Hd & Ht & Hrange) Hnear.
  rewrite commit_state.
  - pose proof (render_eq w) as R. cbv zeta in R. rewrite R.
    cbn [fst snd currentRotation]. rewrite Hq, Hs.
    cbn [reduceRotation currentRotation]. rewrite fst_bind_ret.
    unfold snapUpdater. cbn [targetRot]. rewrite Hnear.
    apply fst_then_ret.
  - unfold scheduled, hasUpdates. rewrite Hq. apply orb_true_r.
Qed.

(** What the updater function of [animateSnap] returns is a step of the
    snap, wherever it runs. *)
Lemma snapUpdater_snapStep (setDirection : option Direction -> M unit)
    (a : Snap) (r : Q) (w : World) :
  fst (snapUpdater setDirection a r w) = snapStep (targetRot a) r.
Proof.
  unfold snapUpdater, snapStep.
  destruct (Qltb (Qabs (targetRot a - r)) 2);
    [apply fst_then_ret | reflexivity].
Qed.

(** ** C10 *)

(** C10. For a target of 0 or -180 and a rotation in [-180, 0], a step of the
    snap stays between the rotation and the target, multiplies the remaining
    distance by exactly 0.78 as long as that distance is at least 2, returns
    the target itself once the distance is below 2, and twenty steps always
    reach the target, where the iteration stays; and the animation the snap
    effect drives sets the rotation to the target within twenty commits. *)
Theorem C10_snap_converges (t r : Q) :
  t = 0 \/ t = -180 ->
  in_range r ->
  (Qmin r t <= snapStep t r /\ snapStep t r <= Qmax r t)
  /\ (2 <= Qabs (t - r) -> t - snapStep t r == 0.78 * (t - r))
  /\ (Qabs (t - r) < 2 -> snapStep t r = t)
  /\ in_range (snapStep t r)
  /\ (forall n, (20 <= n)%nat -> Nat.iter n (snapStep t) r = t)
  /\ (forall d tp w, snapping d t tp r w ->
       exists j, (j <= 20)%nat /\ currentRotation (state (settle j w)) = t).
Proof.
  intros Ht [L U].
  assert (Between : Qmin r t <= snapStep t r /\ snapStep t r <= Qmax r t).
  { destruct (Qlt_le_dec (Qabs (t - r)) 2) as [H | H].
    - rewrite (snapStep_near t r H).
      split; [apply Q.le_min_r | apply Q.le_max_r].
    - rewrite (snapStep_far t r H).
      destruct (Q.min_spec r t) as [[m1 m2] | [m1 m2]];
        destruct (Q.max_spec r t) as [[M1 M2] | [M1 M2]]; split; lra. }
  assert (Ht' : in_range t) by (destruct Ht as [-> | ->]; split; lra).
  assert (Hdist : Qabs (t - r) <= 180).
  { destruct Ht' as [T1 T2].
    destruct (Qabs_cases (t - r)) as [[A1 A2] | [A1 A2]]; lra. }
  split; [exact Between | split; [| split; [| split; [| split]]]].
  - intro H. rewrite (snapStep_far t r H). lra.
  - apply snapStep_near.
  - destruct Between as [B1 B2]. destruct Ht' as [T1 T2].
    destruct (Q.min_spec r t) as [[m1 m2] | [m1 m2]];
      destruct (Q.max_spec r t) as [[M1 M2] | [M1 M2]]; split; lra.
  - intros n Hn.
    assert (R : Nat.iter 20 (snapStep t) r = t).
    { apply (snapStep_reaches t 19 r 180); [exact Hdist |].
      vm_compute. reflexivity. }
    replace n with ((n - 20) + 20)%nat by lia.
    rewrite Nat.iter_add, R. apply snapStep_iter_fixed.
  - intros d tp w Hsn.
    destruct (Qltb (Qabs (t - r)) 2) eqn:E.
    + exists 1%nat. split; [lia |].
      exact (commit_snap_near d t tp r w Hsn E).
    + destruct (snapping_step d t tp r w Hsn E)
        as (S1 & S0 & _).
      assert (D : Qabs (t - r) <= 90).
      { destruct Hsn as (_ & _ & _ & _ & _ & Hg & Hrange).
        exact (snapTarget_distance d r t _ tp Hg Hrange). }
      destruct (snapping_lands d t tp 15 _ _ S1 S0)
        as (j & r' & Hj & I1 & I2 & _).
      { apply Qle_lt_trans with (damp 15 (0.78 * 90));
          [| vm_compute; reflexivity].
        apply damp_mono. apply Qltb_ge in E.
        destruct (Qabs_cases (t - (r + (t - r) * 0.22)))
          as [[A1 A2] | [A1 A2]];
          destruct (Qabs_cases (t - r)) as [[B1 B2] | [B1 B2]]; lra. }
      exists (S (j + 1)). split; [lia |].
      change (settle (S (j + 1)) w) with (commit (settle (j + 1) w)).
      rewrite settle_add.
      exact (commit_snap_near d t tp r' _ I1 I2).
Qed.

Lemma C10_snap_converges_witness :
  (Qmin (-91) (-180) <= snapStep (-180) (-91)
   /\ snapStep (-180) (-91) <= Qmax (-91) (-180))
  /\ (2 <= Qabs (-180 - -91) ->
      -180 - snapStep (-180) (-91) == 0.78 * (-180 - -91))
  /\ (Qabs (-180 - -91) < 2 -> snapStep (-180) (-91) = -180)
  /\ in_range (snapStep (-180) (-91))
  /\ (forall n, (20 <= n)%nat -> Nat.iter n (snapStep (-180)) (-91) = -180)
  /\ (forall d tp w, snapping d (-180) tp (-91) w ->
       exists j, (j <= 20)%nat
                 /\ currentRotation (state (settle j w)) = -180).
Proof.
  apply (C10_snap_converges (-180) (-91)).
  - right. reflexivity.
  - split; unfold Qle; simpl; lia.
Defined.

End Book3DFacts.

(* ================================================================== *)
(** * Properties of the other inputs of BookView.tsx *)
(* ================================================================== *)

Module BookViewInputFacts.
Import BookView BookViewInput.

(** A frame before the end of the cooldown triggers nothing and leaves the
    cooldown as it is. *)
Lemma loop_before (f : Frame) (r : Refs) :
  now f < cooldownRef r ->
  snd (loop f r) = None /\ cooldownRef (fst (loop f r)) = cooldownRef r.
Proof.
  intro H.
  destruct (BookViewFacts.cooling_silent [f] r) as [S1 S2];
    [constructor; [exact H | constructor] |].
  unfold intents in S1. rewrite BookViewFacts.run_cons in S1, S2.
  cbn [run fst snd] in S1, S2. split; [| exact S2].
  destruct (snd (loop f r)); [discriminate | reflexivity].
Qed.

Lemma handleWheel_before (t deltaY : Q) (r : Refs) :
  t < cooldownRef r -> handleWheel t deltaY r = (r, None).
Proof.
  intro H. unfold handleWheel. apply Qltb_lt in H. now rewrite H.
Qed.

(** A wheel event triggers only at or after the end of the cooldown and for
    a [deltaY] beyond 30, and then starts a cooldown of 800ms. *)
Lemma handleWheel_trigger (t deltaY : Q) (r r' : Refs) (d : Direction) :
  handleWheel t deltaY r = (r', Some d) ->
  cooldownRef r <= t /\ 30 < Qabs deltaY
  /\ cooldownRef r' = t + 800
  /\ d = (if Qltb 0 deltaY then next else prev).
Proof.
  unfold handleWheel.
  destruct (Qltb t (cooldownRef r)) eqn:E1; [discriminate |].
  destruct (Qltb 30 (Qabs deltaY)) eqn:E2; [| discriminate].
  intro H. injection H as <- <-.
  apply Qltb_ge in E1. apply Qltb_lt in E2. repeat split; assumption.
Qed.

Lemma handleAll_cons (i : Input) (rest : list Input) (c : Controller) :
  handleAll (i :: rest) c =
  (fst (handleAll rest (fst (handle i c))),
   match snd (handle i c) with
   | Some d => d :: snd (handleAll rest (fst (handle i c)))
   | None => snd (handleAll rest (fst (handle i c)))
   end).
Proof.
  simpl. destruct (handle i c) as [c1 out]. simpl.
  now destruct (handleAll rest c1).
Qed.

(** A gated input before the end of the cooldown triggers nothing and leaves
    cooldown and touch state as they are. *)
Lemma handle_before (i : Input) (c : Controller) :
  is_gated i = true ->
  before (cooldownRef (refs c)) i ->
  snd (handle i c) = None
  /\ cooldownRef (refs (fst (handle i c))) = cooldownRef (refs c)
  /\ touchStartRef (fst (handle i c)) = touchStartRef c.
Proof.
  destruct i as [f | t dy | k | x y t | x y t w]; try discriminate;
    intros _ H; unfold before in H; cbn [gated] in H; cbn [handle].
  - destruct (loop_before f (refs c) H) as [L1 L2].
    destruct (loop f (refs c)) as [r out]. cbn [fst snd] in *.
    repeat split; assumption.
  - rewrite (handleWheel_before t dy (refs c) H). repeat split.
Qed.

(** Keyboard and touch inputs leave the refs of the loop as they are, and
    what they trigger depends on the touch state only. *)
Lemma handle_ungated (i : Input) (c c' : Controller) :
  is_gated i = false ->
  touchStartRef c = touchStartRef c' ->
  snd (handle i c) = snd (handle i c')
  /\ touchStartRef (fst (handle i c)) = touchStartRef (fst (handle i c'))
  /\ refs (fst (handle i c)) = refs c.
Proof.
  destruct i as [f | t dy | k | x y t | x y t w]; try discriminate;
    intros _ H; cbn [handle].
  - repeat split. exact H.
  - repeat split.
  - rewrite H.
    destruct (handleTouchEnd x y t w (touchStartRef c')) as [s out].
    repeat split.
Qed.

Lemma flips_ungated (inputs : list Input) :
  forall c c',
  Forall (fun i => is_gated i = false) inputs ->
  touchStartRef c = touchStartRef c' ->
  flips inputs c = flips inputs c'.
Proof.
  induction inputs as [| i rest IH]; intros c c' Hu Ht; [reflexivity |].
  inversion Hu as [| ? ? Hi Hrest]; subst.
  destruct (handle_ungated i c c' Hi Ht) as (H1 & H2 & _).
  unfold flips. rewrite !handleAll_cons. cbn [snd]. rewrite H1.
  specialize (IH _ _ Hrest H2). unfold flips in IH. now rewrite IH.
Qed.

(** ** The cooldown gates the loop and the wheel, and nothing else *)

(** A flip triggered by an animation frame or a wheel event comes at or after
    the end of the cooldown and starts one of at least 500ms.  As long as the
    frames and wheel events come before the end of the cooldown, the flips
    triggered are those the keyboard and touch inputs alone would trigger,
    which the cooldown does not hold back; with frames and wheel events only,
    there are none. *)
Theorem cooldown_gates_loop_and_wheel :
  (forall i c t d,
     gated i = Some t -> snd (handle i c) = Some d ->
     cooldownRef (refs c) <= t
     /\ t + 500 <= cooldownRef (refs (fst (handle i c))))
  /\ (forall inputs c,
       Forall (before (cooldownRef (refs c))) inputs ->
       flips inputs c = flips (filter (fun i => negb (is_gated i)) inputs) c)
  /\ (forall inputs c,
       Forall (before (cooldownRef (refs c))) inputs ->
       Forall (fun i => is_gated i = true) inputs ->
       flips inputs c = []).
Proof.
  assert (Filtered : forall inputs c,
            Forall (before (cooldownRef (refs c))) inputs ->
            flips inputs c =
            flips (filter (fun i => negb (is_gated i)) inputs) c).
  { induction inputs as [| i rest IH]; intros c Hb; [reflexivity |].
    inversion Hb as [| ? ? Hi Hrest]; subst.
    cbn [filter]. destruct (is_gated i) eqn:G; cbn [negb].
    - destruct (handle_before i c G Hi) as (H1 & H2 & H3).
      unfold flips at 1. rewrite handleAll_cons. cbn [snd]. rewrite H1.
      fold (flips rest (fst (handle i c))).
      rewrite IH by (now rewrite H2).
      apply flips_ungated; [| exact H3].
      apply Forall_forall. intros j Hj. apply filter_In in Hj.
      destruct Hj as [_ Hj]. now apply negb_true_iff in Hj.
    - destruct (handle_ungated i c c G eq_refl) as (_ & _ & H3).
      unfold flips. rewrite !handleAll_cons. cbn [snd].
      assert (E : cooldownRef (refs (fst (handle i c))) = cooldownRef (refs c))
        by now rewrite H3.
      rewrite <- E in Hrest. specialize (IH _ Hrest). unfold flips in IH.
      now rewrite IH. }
  split; [| split; [exact Filtered |]].
  - intros i c t d Hg Hd.
    destruct i as [f | t' dy | k | x y t' | x y t' w]; try discriminate;
      cbn [gated] in Hg; injection Hg as <-; cbn [handle] in *.
    + destruct (loop f (refs c)) as [r out] eqn:L.
      cbn [fst snd refs] in *. subst out.
      destruct (BookViewFacts.trigger_cooldown f (refs c) d) as [T1 T2];
        [now rewrite L |].
      rewrite L in T2. cbn [fst] in T2. split; [exact T1 |].
      rewrite T2. destruct (flipMode f); lra.
    + destruct (handleWheel t' dy (refs c)) as [r out] eqn:W.
      cbn [fst snd refs] in *. subst out.
      destruct (handleWheel_trigger _ _ _ _ _ W) as (W1 & _ & W3 & _).
      split; [exact W1 | rewrite W3; lra].
  - intros inputs c Hb Hg. rewrite (Filtered inputs c Hb).
    assert (E : filter (fun i => negb (is_gated i)) inputs = []).
    { clear Hb. induction Hg as [| i rest Hi _ IH]; [reflexivity |].
      cbn [filter]. rewrite Hi. exact IH. }
    now rewrite E.
Qed.

Import String.StringSyntax.
Local Open Scope string_scope.

Lemma cooldown_gates_loop_and_wheel_witness :
  let c := mkController (mkRefs 2000 neutral (mkSwipe None 0 false) None true)
                        None in
  flips [Wheel 1500 120; AnimationFrame (hand_frame 1600 (Some right_hand));
         KeyDown "ArrowLeft"; Wheel 1900 (-80)] c
  = flips [KeyDown "ArrowLeft"] c.
Proof.
  intro c.
  apply (proj1 (proj2 cooldown_gates_loop_and_wheel)).
  repeat constructor.
Defined.

Local Close Scope string_scope.

(** ** Touch *)

(** A touch end triggers a flip only as a swipe (more than 50 across, more
    than twice as far across as down, in under 500ms; to the right for 'prev',
    to the left for 'next') or as a tap (less than 10 either way, in under
    300ms) in the outer fifths of the window (left for 'prev', right for
    'next').  A touch that moved between 10 and 50 across, or lasted 500ms or
    more, triggers nothing; and every touch end clears the stored start. *)
Theorem touch_end_classified
    (clientX clientY t innerWidth : Q) (s : TouchStart) :
  let dx := clientX - touch_x s in
  let dy := clientY - touch_y s in
  let dt := t - touch_time s in
  let out := snd (handleTouchEnd clientX clientY t innerWidth (Some s)) in
  (forall d, out = Some d ->
     (50 < Qabs dx /\ Qabs dy * 2 < Qabs dx /\ dt < 500
      /\ d = (if Qltb 0 dx then prev else next))
     \/ (Qabs dx < 10 /\ Qabs dy < 10 /\ dt < 300
         /\ ((d = prev /\ clientX < innerWidth * 0.2)
             \/ (d = next /\ innerWidth * 0.2 <= clientX
                 /\ innerWidth * 0.8 < clientX))))
  /\ (10 <= Qabs dx -> Qabs dx <= 50 -> out = None)
  /\ (500 <= dt -> out = None)
  /\ fst (handleTouchEnd clientX clientY t innerWidth (Some s)) = None.
Proof.
  intros dx dy dt out. subst out. unfold handleTouchEnd. fold dx dy dt.
  cbn [fst snd].
  destruct (Qltb 50 (Qabs dx) && Qltb (Qabs dy * 2) (Qabs dx) && Qltb dt 500)
    eqn:Swipe.
  - apply andb_true_iff in Swipe. destruct Swipe as [Swipe S3].
    apply andb_true_iff in Swipe. destruct Swipe as [S1 S2].
    apply Qltb_lt in S1, S2, S3.
    split; [| split; [| split]].
    + intros d Hd. left. repeat split; try assumption.
      destruct (Qltb 0 dx); congruence.
    + intros A B. lra.
    + intro A. lra.
    + reflexivity.
  - destruct (Qltb (Qabs dx) 10 && Qltb (Qabs dy) 10 && Qltb dt 300) eqn:Tap.
    + apply andb_true_iff in Tap. destruct Tap as [Tap T3].
      apply andb_true_iff in Tap. destruct Tap as [T1 T2].
      apply Qltb_lt in T1, T2, T3.
      split; [| split; [| split]].
      * intros d Hd. right. repeat split; try assumption.
        destruct (Qltb clientX (innerWidth * 0.2)) eqn:L.
        -- left. apply Qltb_lt in L. split; congruence.
        -- destruct (Qltb (innerWidth * 0.8) clientX) eqn:R; [| discriminate].
           right. apply Qltb_ge in L. apply Qltb_lt in R.
           repeat split; congruence.
      * intros A B. lra.
      * intro A. lra.
      * reflexivity.
    + split; [| split; [| split]]; try reflexivity; discriminate.
Qed.

Lemma touch_end_classified_witness :
  snd (handleTouchEnd 130 205 1400 1000 (Some (mkTouchStart 100 200 1000)))
  = None.
Proof.
  apply (proj1 (proj2 (touch_end_classified 130 205 1400 1000
                         (mkTouchStart 100 200 1000)))).
  - vm_compute. discriminate.
  - vm_compute. discriminate.
Defined.

(** However touch starts and ends interleave with the other inputs, the touch
    ends trigger at most one flip per touch start. *)
Theorem one_flip_per_touch (inputs : list Input) :
  forall c,
  (touchFlips inputs c
   <= pending c + length (filter is_touch_start inputs))%nat.
Proof.
  induction inputs as [| i rest IH]; intro c; [simpl; lia |].
  cbn [touchFlips filter]. specialize (IH (fst (handle i c))).
  destruct i as [f | t dy | k | x y t | x y t w];
    cbn [is_touch_end is_touch_start] in *.
  - assert (E : pending (fst (handle (AnimationFrame f) c)) = pending c).
    { cbn [handle]. now destruct (loop f (refs c)). }
    lia.
  - assert (E : pending (fst (handle (Wheel t dy) c)) = pending c).
    { cbn [handle]. now destruct (handleWheel t dy (refs c)). }
    lia.
  - assert (E : pending (fst (handle (KeyDown k) c)) = pending c)
      by reflexivity.
    lia.
  - assert (E : pending (fst (handle (TouchStarted x y t) c)) = 1%nat)
      by reflexivity.
    cbn [length]. lia.
  - assert (E : pending (fst (handle (TouchEnded x y t w) c)) = 0%nat
                /\ (match snd (handle (TouchEnded x y t w) c) with
                    | Some _ => 1 | None => 0 end <= pending c)%nat).
    { cbn [handle]. unfold pending, handleTouchEnd.
      destruct (touchStartRef c) as [s |]; cbn [fst snd touchStartRef].
      - split; [reflexivity |].
        match goal with |- (match ?o with _ => _ end <= 1)%nat =>
          destruct o end; lia.
      - split; [reflexivity | lia]. }
    destruct E as [E1 E2]. lia.
Qed.

End BookViewInputFacts.

(* ================================================================== *)
(** * Properties of the orientation and swipe modes of the loop *)
(* ================================================================== *)

Module BookViewModesFacts.
Import BookView BookViewModes.

Lemma fist_held_step (f : Frame) (r : Refs) :
  fist_held f ->
  prevOrientRef (fst (loop f r)) <> neutral
  /\ (prevOrientRef r <> neutral -> snd (loop f r) = None).
Proof.
  intros (Hm & Hf & Ho). unfold loop, loop_orientation. rewrite Hm, Hf.
  cbn [negb andb]. rewrite !andb_true_r.
  destruct (Qle_bool (cooldownRef r) (now f));
    destruct (prevOrientRef r) eqn:P; cbn [Orient_eqb andb fst snd];
    try (split; [exact Ho | intros; reflexivity]);
    try (split; [exact Ho | intro C; now elim C]).
  all: destruct (HAND_ORIENT f) eqn:O; cbn [Orient_eqb fst snd];
    (split; [first [discriminate | exact Ho] | intro C; now elim C]).
Qed.

Lemma fist_held_silent (fs : list Frame) :
  forall r, Forall fist_held fs -> prevOrientRef r <> neutral ->
  intents fs r = [].
Proof.
  induction fs as [| f fs IH]; intros r Hfs Hp; [reflexivity |].
  inversion Hfs as [| ? ? Hf Hrest]; subst.
  destruct (fist_held_step f r Hf) as [S1 S2].
  unfold intents. rewrite BookViewFacts.run_cons. cbn [snd].
  rewrite (S2 Hp). apply (IH _ Hrest S1).
Qed.

(** ** One flip per fist *)

(** In the orientation mode, frames that keep showing a fist (palm or back,
    in any order) trigger at most one flip, and none when the frame before
    them showed one already: the fist must open, or turn to neutral, before
    the next flip. *)
Theorem one_flip_per_fist (fs : list Frame) (r : Refs) :
  Forall fist_held fs ->
  (length (intents fs r) <= 1)%nat
  /\ (prevOrientRef r <> neutral -> intents fs r = []).
Proof.
  intro Hfs. split; [| now apply fist_held_silent].
  destruct fs as [| f fs]; [cbn; lia |].
  inversion Hfs as [| ? ? Hf Hrest]; subst.
  destruct (fist_held_step f r Hf) as [S1 _].
  unfold intents. rewrite BookViewFacts.run_cons. cbn [snd].
  pose proof (fist_held_silent fs _ Hrest S1) as Q. unfold intents in Q.
  rewrite Q. destruct (snd (loop f r)); cbn; lia.
Qed.

Lemma one_flip_per_fist_witness :
  let fs := [mkFrame 100 orientation front true None 0;
             mkFrame 700 orientation back true None 0;
             mkFrame 1300 orientation front true None 0] in
  (length (intents fs initial) <= 1)%nat
  /\ (prevOrientRef initial <> neutral -> intents fs initial = []).
Proof.
  intro fs. apply (one_flip_per_fist fs initial).
  repeat constructor; discriminate.
Defined.

(** ** A swipe needs travel *)

Lemma swipe_within_step (a : Q) (f : Frame) (r : Refs) :
  swipe_within a f -> anchored a r ->
  snd (loop f r) = None /\ anchored a (fst (loop f r)).
Proof.
  intros (Hm & Hx1 & Hx2) Ha. unfold loop, loop_swipe. rewrite Hm.
  destruct (active (swipeStateRef r)) eqn:A; cbn [negb].
  - assert (D : Qltb 120 (pointer_x f
                          - or_else (startX (swipeStateRef r)) (pointer_x f))
                = false
                /\ Qltb (pointer_x f
                         - or_else (startX (swipeStateRef r)) (pointer_x f))
                        (-120) = false).
    { unfold or_else. destruct (startX (swipeStateRef r)) as [s |] eqn:S.
      - destruct (Ha A s S) as [S1 S2].
        destruct (Qeq_bool s 0); split; apply Qltb_ge; lra.
      - split; apply Qltb_ge; lra. }
    destruct D as [D1 D2]. rewrite D1, D2.
    assert (Keep : anchored a
              (set_swipe r (mkSwipe (startX (swipeStateRef r)) (pointer_x f)
                                    true))).
    { intros _ s Hs. cbn in Hs. now apply (Ha A). }
    destruct (Qle_bool (cooldownRef r) (now f));
      [destruct (HAND_SIDE f) as [[|] |] |]; split;
      first [reflexivity | exact Keep].
  - split; [reflexivity |]. intros _ s Hs. cbn in Hs.
    injection Hs as <-. split; assumption.
Qed.

(** In the swipe mode no flip is triggered while the pointer stays within
    120 of where the swipe started: frames whose pointer lies in an interval
    of width 120, after a swipe that started in it if one is in progress,
    trigger nothing. *)
Theorem swipe_needs_travel (a : Q) (fs : list Frame) :
  forall r, Forall (swipe_within a) fs -> anchored a r ->
  intents fs r = [].
Proof.
  induction fs as [| f fs IH]; intros r Hfs Ha; [reflexivity |].
  inversion Hfs as [| ? ? Hf Hrest]; subst.
  destruct (swipe_within_step a f r Hf Ha) as [S1 S2].
  unfold intents. rewrite BookViewFacts.run_cons. cbn [snd]. rewrite S1.
  apply (IH _ Hrest S2).
Qed.

Lemma swipe_needs_travel_witness :
  intents [mkFrame 0 swipe neutral false (Some right_hand) 300;
           mkFrame 16 swipe neutral false (Some right_hand) 360;
           mkFrame 32 swipe neutral false (Some right_hand) 420] initial = [].
Proof.
  apply (swipe_needs_travel 300).
  - repeat constructor; unfold Qle; simpl; lia.
  - intro H. discriminate H.
Defined.

End BookViewModesFacts.

(* ================================================================== *)
(** * Properties of the text handling of buildBook *)
(* ================================================================== *)

Module BookTextFacts.
Import BookPages.
Local Open Scope nat_scope.

Lemma visible_app (a b : Str) : visible (a ++ b) = visible a ++ visible b.
Proof.
  apply filter_app.
Qed.

Lemma visible_rev (a : Str) : visible (rev a) = rev (visible a).
Proof.
  unfold visible. induction a as [| c a IH]; [reflexivity |].
  cbn [rev filter]. rewrite filter_app, IH. cbn [filter].
  destruct (negb (isSpace c)); cbn [rev]; [reflexivity | apply app_nil_r].
Qed.

Lemma visible_concat (l : list Str) :
  visible (concat l) = concat (map visible l).
Proof.
  induction l as [| a l IH]; [reflexivity |].
  cbn [concat map]. now rewrite visible_app, IH.
Qed.

Lemma visible_space (c : N) (s : Str) :
  isSpace c = true -> visible (c :: s) = visible s.
Proof.
  intro H. unfold visible. cbn [filter]. now rewrite H.
Qed.

Lemma visible_mark (c : N) (s : Str) :
  isSpace c = false -> visible (c :: s) = c :: visible s.
Proof.
  intro H. unfold visible. cbn [filter]. now rewrite H.
Qed.

(** ** trim *)

Lemma trimStart_visible (s : Str) : visible (trimStart s) = visible s.
Proof.
  induction s as [| c s IH]; [reflexivity |].
  cbn [trimStart]. destruct (isSpace c) eqn:E; [| reflexivity].
  now rewrite IH, visible_space.
Qed.

Lemma trim_visible (s : Str) : visible (trim s) = visible s.
Proof.
  unfold trim, trimEnd.
  now rewrite visible_rev, trimStart_visible, visible_rev, rev_involutive,
    trimStart_visible.
Qed.

Lemma concat_truthy (l : list Str) : concat (filter truthy l) = concat l.
Proof.
  induction l as [| a l IH]; [reflexivity |].
  cbn [filter concat]. destruct a as [| c a]; cbn [truthy];
    [exact IH | cbn [concat]; now rewrite IH].
Qed.

Lemma truthy_nonempty (l : list Str) :
  Forall (fun p => p <> []) (filter truthy l).
Proof.
  apply Forall_forall. intros p Hp. apply filter_In in Hp.
  destruct Hp as [_ Hp]. now destruct p.
Qed.

(** ** Paragraphs of a plain text *)

Lemma splitBlankLines_visible (n : nat) :
  forall s piece, length s <= n ->
  visible (concat (splitBlankLines s piece)) = visible (rev piece ++ s).
Proof.
  induction n as [| n IH]; intros s piece Hn.
  - destruct s; [| cbn in Hn; lia]. cbn. now rewrite !app_nil_r.
  - destruct s as [| c rest]; [cbn; now rewrite !app_nil_r |].
    cbn [length] in Hn.
    assert (Step : visible (concat (splitBlankLines rest (c :: piece)))
                   = visible (rev piece ++ c :: rest)).
    { rewrite IH by lia. cbn [rev]. now rewrite <- app_assoc. }
    destruct rest as [| c' rest']; [exact Step |].
    cbn [splitBlankLines] in Step |- *.
    destruct ((c =? 10)%N && (c' =? 10)%N) eqn:E; [| exact Step].
    apply andb_true_iff in E. destruct E as [E1 E2].
    apply N.eqb_eq in E1, E2. subst c c'.
    cbn [concat]. rewrite visible_app, IH by (cbn [length] in Hn; lia).
    cbn [rev app]. rewrite visible_app.
    now rewrite !visible_space by reflexivity.
Qed.

Lemma paras_text_visible (s : Str) :
  visible (concat (paras (Text s))) = visible s.
Proof.
  cbn [paras]. rewrite concat_truthy, visible_concat, map_map.
  rewrite (map_ext _ visible) by (intro; apply trim_visible).
  rewrite <- visible_concat.
  now rewrite (splitBlankLines_visible (length s)) by lia.
Qed.

(** ** Splitting at blank lines, and joining again *)

Lemma hasBlankLine_cons (x y : N) (r : Str) :
  hasBlankLine (x :: y :: r) =
  (x =? 10)%N && (y =? 10)%N || hasBlankLine (y :: r).
Proof.
  reflexivity.
Qed.

Lemma hasBlankLine_app_one (a : Str) (c : N) :
  hasBlankLine (a ++ [c]) =
  hasBlankLine a
  || match rev a with
     | l :: _ => (l =? 10)%N && (c =? 10)%N
     | [] => false
     end.
Proof.
  induction a as [| x a IH]; [reflexivity |].
  destruct a as [| y a'].
  - cbn. now rewrite orb_false_r.
  - change ((x :: y :: a') ++ [c]) with (x :: y :: (a' ++ [c])).
    change (y :: (a' ++ [c])) with ((y :: a') ++ [c]) in *.
    rewrite (hasBlankLine_cons x y a').
    change (x :: (y :: a') ++ [c]) with (x :: y :: (a' ++ [c])).
    rewrite (hasBlankLine_cons x y (a' ++ [c])).
    change (y :: (a' ++ [c])) with ((y :: a') ++ [c]).
    rewrite IH, <- orb_assoc. f_equal. f_equal.
    change (rev (x :: y :: a')) with (rev (y :: a') ++ [x]).
    destruct (rev (y :: a')) as [| l t] eqn:E; [| reflexivity].
    apply (f_equal (@length N)) in E. rewrite length_rev in E.
    discriminate E.
Qed.

Lemma join_cons (sep p : Str) (l : list Str) :
  l <> [] -> join sep (p :: l) = p ++ sep ++ join sep l.
Proof.
  destruct l as [| q l]; [intro H; now elim H | intros _].
  cbn [join flat_map]. now rewrite <- app_assoc.
Qed.

Lemma splitBlankLines_eq (c c' : N) (rest piece : Str) :
  splitBlankLines (c :: c' :: rest) piece =
  if (c =? 10)%N && (c' =? 10)%N
  then rev piece :: splitBlankLines rest []
  else splitBlankLines (c' :: rest) (c :: piece).
Proof.
  reflexivity.
Qed.

Lemma splitBlankLines_cons (n : nat) :
  forall s piece, length s <= n -> splitBlankLines s piece <> [].
Proof.
  induction n as [| n IH]; intros s piece Hn.
  - destruct s; [discriminate | cbn in Hn; lia].
  - destruct s as [| c [| c' rest']]; [discriminate | discriminate |].
    rewrite splitBlankLines_eq. cbn [length] in Hn.
    destruct ((c =? 10)%N && (c' =? 10)%N); [discriminate |].
    apply IH. cbn [length]. lia.
Qed.

Lemma splitBlankLines_spec (n : nat) :
  forall s piece, length s <= n ->
  hasBlankLine (rev piece) = false ->
  match piece, s with
  | l :: _, c :: _ => (l =? 10)%N && (c =? 10)%N = false
  | _, _ => True
  end ->
  join [10; 10]%N (splitBlankLines s piece) = rev piece ++ s
  /\ Forall (fun p => hasBlankLine p = false) (splitBlankLines s piece).
Proof.
  induction n as [| n IH]; intros s piece Hn Hp Hj.
  - destruct s; [| cbn in Hn; lia]. cbn. rewrite !app_nil_r.
    split; [reflexivity | constructor; [exact Hp | constructor]].
  - destruct s as [| c rest].
    + cbn. rewrite !app_nil_r.
      split; [reflexivity | constructor; [exact Hp | constructor]].
    + cbn [length] in Hn.
      assert (Grow : hasBlankLine (rev (c :: piece)) = false).
      { cbn [rev]. rewrite hasBlankLine_app_one, Hp, rev_involutive.
        destruct piece as [| l t]; [reflexivity | exact Hj]. }
      destruct rest as [| c' rest'].
      * destruct (IH [] (c :: piece)) as [J F];
          [cbn; lia | exact Grow | exact I |].
        cbn [splitBlankLines] in J, F |- *. split; [| exact F].
        rewrite J. cbn [rev]. now rewrite <- app_assoc.
      * rewrite splitBlankLines_eq.
        destruct ((c =? 10)%N && (c' =? 10)%N) eqn:E.
        -- destruct (IH rest' []) as [J F];
             [cbn [length] in Hn; lia | reflexivity
             | destruct rest'; exact I |].
           apply andb_true_iff in E. destruct E as [E1 E2].
           apply N.eqb_eq in E1, E2. subst c c'.
           split; [| constructor; [exact Hp | exact F]].
           cbn [rev app] in J.
           pose proof (splitBlankLines_cons (length rest') rest' []
                         (Nat.le_refl _)) as Hne.
           rewrite (join_cons _ _ _ Hne), J. reflexivity.
        -- destruct (IH (c' :: rest') (c :: piece)) as [J F];
             [cbn [length] in Hn |- *; lia | exact Grow | exact E |].
           split; [| exact F]. rewrite J. cbn [rev].
           now rewrite <- app_assoc.
Qed.

(** Splitting a text at blank lines loses nothing but the blank lines: no
    piece holds two line feeds in a row, and the pieces joined by two line
    feeds are the text again. *)
Theorem split_and_join (s : Str) :
  join [10; 10]%N (splitBlankLines s []) = s
  /\ Forall (fun p => hasBlankLine p = false) (splitBlankLines s []).
Proof.
  apply (splitBlankLines_spec (length s) s []);
    [lia | reflexivity | exact I].
Qed.

(** ** Sentences *)

Lemma scanned_not_separator (c : N) : scanned c <> inSeparator.
Proof.
  unfold scanned. now destruct (endsSentence c).
Qed.

Lemma splitSentences_visible (s : Str) :
  forall piece at_,
  (at_ = inSeparator -> piece = []) ->
  visible (concat (splitSentences s piece at_)) = visible (rev piece ++ s).
Proof.
  induction s as [| c s IH]; intros piece at_ Hsep.
  - cbn. now rewrite !app_nil_r.
  - assert (Keep : visible (concat (splitSentences s (c :: piece) (scanned c)))
                   = visible (rev piece ++ c :: s)).
    { rewrite IH by (intro E; now apply scanned_not_separator in E).
      cbn [rev]. now rewrite <- app_assoc. }
    destruct at_; cbn [splitSentences]; [exact Keep | |].
    + destruct (isSpace c) eqn:E; [| exact Keep].
      cbn [concat]. rewrite !visible_app, IH by reflexivity.
      cbn [rev app]. now rewrite (visible_space c) by exact E.
    + rewrite (Hsep eq_refl) in *. cbn [rev app] in *.
      destruct (isSpace c) eqn:E; [| exact Keep].
      rewrite IH by reflexivity. cbn [rev app].
      now rewrite (visible_space c) by exact E.
Qed.

(** ** Chunks of a long paragraph *)

Lemma chunkStep_acc (ss : list Str) :
  forall chunk acc,
  fold_left chunkStep ss (chunk, acc) =
  (fst (fold_left chunkStep ss (chunk, [])),
   acc ++ snd (fold_left chunkStep ss (chunk, []))).
Proof.
  induction ss as [| sentence ss IH]; intros chunk acc.
  - cbn. now rewrite app_nil_r.
  - cbn [fold_left chunkStep].
    destruct (length (chunk ++ sentence) <=? maxCharsPerPage).
    + apply IH.
    + rewrite IH. rewrite (IH sentence (if truthy chunk then _ else _)).
      cbn [fst snd]. destruct (truthy chunk); cbn [app];
        now rewrite <- ?app_assoc.
Qed.

Lemma splitLong_chunks (acc : list Str) (para : Str) :
  splitLong acc para = acc ++ chunks para.
Proof.
  unfold chunks, splitLong.
  destruct (length para <=? maxCharsPerPage); [reflexivity |].
  rewrite (chunkStep_acc _ [] acc).
  match goal with |- context [snd ?X] => set (cut := X) end.
  change (fold_left chunkStep (splitSentences para [] plain) ([], []))
    with cut.
  destruct cut as [chunk out].
  cbn [fst snd]. destruct (truthy chunk); cbn [app];
    now rewrite <- ?app_assoc, ?app_nil_r.
Qed.

Lemma finalParas_chunks (ps : list Str) :
  forall acc, fold_left splitLong ps acc = acc ++ flat_map chunks ps.
Proof.
  induction ps as [| para ps IH]; intro acc.
  - cbn. now rewrite app_nil_r.
  - cbn [fold_left flat_map]. now rewrite IH, splitLong_chunks, <- app_assoc.
Qed.

(** What the cutting keeps: the chunks made and the chunk being made hold
    the visible characters read so far; every chunk made is nonempty; every
    chunk is one of the sentences or has at most 601 code units. *)
Lemma chunkStep_inv (all : list Str) (ss : list Str) :
  forall chunk out,
  incl ss all ->
  Forall (fun c => c <> []) out ->
  Forall (fun c => length c <= S maxCharsPerPage \/ In c all) out ->
  (chunk = [] \/ length chunk <= S maxCharsPerPage \/ In chunk all) ->
  let (chunk', out') := fold_left chunkStep ss (chunk, out) in
  visible (concat out' ++ chunk') = visible (concat out ++ chunk ++ concat ss)
  /\ Forall (fun c => c <> []) out'
  /\ Forall (fun c => length c <= S maxCharsPerPage \/ In c all) out'
  /\ (chunk' = [] \/ length chunk' <= S maxCharsPerPage \/ In chunk' all).
Proof.
  induction ss as [| sentence ss IH]; intros chunk out Hin Hne Hb Hc.
  - cbn [fold_left concat]. rewrite app_nil_r. repeat split; assumption.
  - cbn [fold_left chunkStep].
    assert (Hin' : incl ss all) by (intros x Hx; apply Hin; now right).
    assert (Hs : In sentence all) by (apply Hin; now left).
    destruct (length (chunk ++ sentence) <=? maxCharsPerPage) eqn:E.
    + apply Nat.leb_le in E.
      specialize (IH (chunk ++ (if truthy chunk then [32%N] else []) ++ sentence)
                     out Hin' Hne Hb).
      destruct (fold_left chunkStep ss _) as [chunk' out'].
      destruct IH as (I1 & I2 & I3 & I4).
      * right. left. rewrite !length_app in *.
        destruct (truthy chunk); cbn [length]; lia.
      * repeat split; try assumption. rewrite I1. cbn [concat].
        rewrite !visible_app.
        destruct (truthy chunk); cbn [app];
          rewrite ?visible_space by reflexivity;
          now rewrite ?visible_app, <- ?app_assoc.
    + specialize (IH sentence (if truthy chunk then out ++ [chunk] else out)
                     Hin').
      destruct (fold_left chunkStep ss _) as [chunk' out'].
      destruct IH as (I1 & I2 & I3 & I4).
      * destruct chunk; cbn [truthy]; [exact Hne |].
        apply Forall_app. split; [exact Hne |].
        constructor; [discriminate | constructor].
      * destruct chunk as [| c chunk]; cbn [truthy]; [exact Hb |].
        apply Forall_app. split; [exact Hb |].
        constructor; [| constructor].
        destruct Hc as [Hc | Hc]; [discriminate | exact Hc].
      * right. right. exact Hs.
      * repeat split; try assumption. rewrite I1. cbn [concat].
        destruct chunk as [| c chunk]; cbn [truthy app]; [reflexivity |].
        rewrite concat_app. cbn [concat]. rewrite app_nil_r.
        now rewrite <- !app_assoc.
Qed.

Lemma chunks_inv (para : Str) :
  visible (concat (chunks para)) = visible para
  /\ (para <> [] -> Forall (fun c => c <> []) (chunks para))
  /\ Forall (fun c => length c <= S maxCharsPerPage
                     \/ In c (splitSentences para [] plain)) (chunks para).
Proof.
  unfold chunks, splitLong.
  destruct (length para <=? maxCharsPerPage) eqn:E.
  - apply Nat.leb_le in E. cbn [app concat]. rewrite app_nil_r.
    repeat split.
    + intro H. constructor; [exact H | constructor].
    + constructor; [left; lia | constructor].
  - pose proof (chunkStep_inv (splitSentences para [] plain)
                  (splitSentences para [] plain) [] []
                  (incl_refl _) (Forall_nil _) (Forall_nil _)
                  (or_introl eq_refl)) as H.
    destruct (fold_left chunkStep _ _) as [chunk out].
    destruct H as (H1 & H2 & H3 & H4).
    cbn [concat app] in H1.
    rewrite splitSentences_visible in H1 by discriminate.
    cbn [rev app] in H1.
    destruct chunk as [| c chunk]; cbn [truthy].
    + rewrite app_nil_r in H1.
      split; [exact H1 | split; [intros _; exact H2 | exact H3]].
    + rewrite concat_app. cbn [concat]. rewrite app_nil_r.
      split; [exact H1 | split].
      * intros _. apply Forall_app. split; [exact H2 |].
        constructor; [discriminate | constructor].
      * apply Forall_app. split; [exact H3 |].
        constructor; [| constructor].
        destruct H4 as [H4 | H4]; [discriminate | exact H4].
Qed.

Lemma chunks_visible (ps : list Str) :
  visible (concat (flat_map chunks ps)) = visible (concat ps).
Proof.
  induction ps as [| para ps IH]; [reflexivity |].
  cbn [flat_map concat]. rewrite concat_app, !visible_app, IH.
  now rewrite (proj1 (chunks_inv para)).
Qed.

Lemma chunks_nonempty (ps : list Str) :
  Forall (fun p => p <> []) ps ->
  Forall (fun p => p <> []) (flat_map chunks ps).
Proof.
  induction 1 as [| para ps Hp _ IH]; [constructor |].
  cbn [flat_map]. apply Forall_app. split; [| exact IH].
  now apply (proj1 (proj2 (chunks_inv para))).
Qed.

(** ** Markers of points *)

Lemma bullet_nonempty (p : Str) : p <> [] -> bullet p <> [].
Proof.
  intro H. unfold bullet.
  destruct (startsWith [8226%N] p || startsWith [45%N] p || matchNumbered p);
    [exact H | discriminate].
Qed.

(** ** trim, at both ends *)

Lemma trimStart_head (s : Str) :
  match trimStart s with [] => True | c :: _ => isSpace c = false end.
Proof.
  induction s as [| c s IH]; [exact I |].
  cbn [trimStart]. destruct (isSpace c) eqn:E; [exact IH | exact E].
Qed.

Lemma trimStart_last (a : Str) (c : N) :
  isSpace c = false -> trimStart (a ++ [c]) = trimStart a ++ [c].
Proof.
  intro H. induction a as [| x a IH].
  - cbn. now rewrite H.
  - cbn [app trimStart]. destruct (isSpace x); [exact IH | reflexivity].
Qed.

Lemma trimEnd_head (c : N) (s : Str) :
  isSpace c = false -> trimEnd (c :: s) = c :: trimEnd s.
Proof.
  intro H. unfold trimEnd. cbn [rev].
  now rewrite trimStart_last, rev_app_distr by exact H.
Qed.

Lemma trimEnd_last (s : Str) :
  match rev (trimEnd s) with [] => True | c :: _ => isSpace c = false end.
Proof.
  unfold trimEnd. rewrite rev_involutive. apply trimStart_head.
Qed.

Lemma trim_ends (s : Str) :
  trim s <> [] ->
  exists first last_ middle middle',
    trim s = first :: middle /\ trim s = middle' ++ [last_]
    /\ isSpace first = false /\ isSpace last_ = false.
Proof.
  unfold trim. intro H.
  pose proof (trimStart_head s) as Hh.
  pose proof (trimEnd_last (trimStart s)) as Hl.
  destruct (trimStart s) as [| c rest] eqn:E; [now elim H |].
  rewrite (trimEnd_head c rest Hh) in *.
  destruct (rev (c :: trimEnd rest)) as [| l m] eqn:R.
  - apply (f_equal (@rev N)) in R. rewrite rev_involutive in R. discriminate.
  - exists c, l, (trimEnd rest), (rev m).
    repeat split; try assumption.
    apply (f_equal (@rev N)) in R. rewrite rev_involutive in R. exact R.
Qed.

End BookTextFacts.

(* ================================================================== *)
(** * Properties of buildBook *)
(* ================================================================== *)

Module BookPagesFacts.
Import BookPages.
Local Open Scope nat_scope.

(** ** Text pages *)

Lemma textPages_numbers (t : Str) (groups : list (list Str)) :
  forall n, map pageNumber (textPages n t groups) = seq n (length groups).
Proof.
  induction groups as [| c rest IH]; intro n; [reflexivity |].
  cbn [textPages map length seq pageNumber]. now rewrite IH.
Qed.

Lemma textPages_length (t : Str) (groups : list (list Str)) :
  forall n, length (textPages n t groups) = length groups.
Proof.
  induction groups as [| c rest IH]; intro n; [reflexivity |].
  cbn [textPages length]. now rewrite IH.
Qed.

Lemma textPages_app (t : Str) (g1 g2 : list (list Str)) :
  forall n,
  textPages n t (g1 ++ g2) =
  textPages n t g1 ++ textPages (n + length g1) t g2.
Proof.
  induction g1 as [| c rest IH]; intro n.
  - cbn [app textPages length]. now rewrite Nat.add_0_r.
  - cbn [app textPages length]. rewrite IH.
    now replace (S n + length rest) with (n + S (length rest)) by lia.
Qed.

Lemma textPages_no_title (t : Str) (groups : list (list Str)) :
  forall n, filter is_chapter_title (textPages n t groups) = [].
Proof.
  induction groups as [| c rest IH]; intro n; [reflexivity |].
  cbn [textPages filter is_chapter_title type]. apply IH.
Qed.

Lemma textPages_content (t : Str) (groups : list (list Str)) :
  forall n, flat_map content (textPages n t groups) = concat groups.
Proof.
  induction groups as [| c rest IH]; intro n; [reflexivity |].
  cbn [textPages flat_map concat content]. now rewrite IH.
Qed.

Lemma textPages_In (t : Str) (groups : list (list Str)) (p : BookPage) :
  forall n, In p (textPages n t groups) ->
  type p = text /\ title p = t /\ In (content p) groups.
Proof.
  induction groups as [| c rest IH]; intros n H; [destruct H |].
  destruct H as [<- | H].
  - repeat split. now left.
  - destruct (IH _ H) as (A & B & C). repeat split; try assumption.
    now right.
Qed.

(** ** Grouping paragraphs into pages *)

Lemma total_app (a b : list Str) : total (a ++ b) = total a + total b.
Proof.
  unfold total. rewrite map_app. apply list_sum_app.
Qed.

Lemma groupStep_flush (t : Str) (g : Group) (para : Str) :
  (0 <? length (currentPageContent g))
  && (maxCharsPerPage <? currentLength g + length para) = true ->
  builder (groupStep t g para) = push (builder g) t (currentPageContent g) text
  /\ currentPageContent (groupStep t g para) = [para]
  /\ currentLength (groupStep t g para) = length para.
Proof.
  intro H. unfold groupStep. rewrite H. repeat split.
Qed.

Lemma groupStep_keep (t : Str) (g : Group) (para : Str) :
  (0 <? length (currentPageContent g))
  && (maxCharsPerPage <? currentLength g + length para) = false ->
  builder (groupStep t g para) = builder g
  /\ currentPageContent (groupStep t g para) = currentPageContent g ++ [para]
  /\ currentLength (groupStep t g para) = currentLength g + length para.
Proof.
  intro H. unfold groupStep. rewrite H. repeat split.
Qed.

Lemma total_one (p : Str) : total [p] = length p.
Proof.
  unfold total. cbn. lia.
Qed.

Lemma group_fold (t : Str) (ps : list Str) :
  forall g,
  currentLength g = total (currentPageContent g) ->
  currentPageContent g = [] \/ fits (currentPageContent g) ->
  exists groups,
    let g' := fold_left (groupStep t) ps g in
    let b' := if 0 <? length (currentPageContent g')
              then push (builder g') t (currentPageContent g') text
              else builder g' in
    built b' = built (builder g) ++ textPages (pageNo (builder g)) t groups
    /\ pageNo b' = pageNo (builder g) + length groups
    /\ concat groups = currentPageContent g ++ ps
    /\ Forall fits groups
    /\ Forall (fun c => c <> []) groups.
Proof.
  induction ps as [| para ps IH]; intros g Hlen Hfit.
  - cbn [fold_left]. destruct (currentPageContent g) as [| p cur] eqn:C.
    + exists []. cbn. rewrite app_nil_r. repeat split; try constructor. lia.
    + exists [p :: cur]. cbn [length Nat.ltb Nat.leb push built pageNo
                                textPages concat].
      rewrite app_nil_r. repeat split.
      * lia.
      * constructor; [| constructor]. destruct Hfit as [H | H];
          [discriminate | exact H].
      * constructor; [discriminate | constructor].
  - cbn [fold_left]. set (g1 := groupStep t g para).
    destruct ((0 <? length (currentPageContent g))
              && (maxCharsPerPage <? currentLength g + length para)) eqn:Flush.
    + destruct (groupStep_flush t g para Flush) as (B & C & L).
      fold g1 in B, C, L.
      apply andb_true_iff in Flush. destruct Flush as [F1 F2].
      apply Nat.ltb_lt in F1.
      assert (Cur : currentPageContent g <> [])
        by (intro E; rewrite E in F1; cbn in F1; lia).
      destruct (IH g1) as (groups & H1 & H2 & H3 & H4 & H5).
      * rewrite L, C. now rewrite total_one.
      * right. left. now rewrite C.
      * exists (currentPageContent g :: groups).
        rewrite B in H1, H2. rewrite C in H3.
        cbn [push built pageNo] in H1, H2.
        repeat match goal with |- _ /\ _ => split end.
        -- rewrite H1. rewrite <- app_assoc. reflexivity.
        -- rewrite H2. cbn [length]. lia.
        -- cbn [concat]. rewrite H3. reflexivity.
        -- constructor; [| exact H4].
           destruct Hfit as [E | F]; [contradiction | exact F].
        -- constructor; assumption.
    + destruct (groupStep_keep t g para Flush) as (B & C & L).
      fold g1 in B, C, L.
      destruct (IH g1) as (groups & H1 & H2 & H3 & H4 & H5).
      * rewrite L, C, total_app, Hlen, total_one. reflexivity.
      * right. rewrite C.
        destruct (currentPageContent g) as [| p cur] eqn:E.
        -- left. reflexivity.
        -- right. rewrite total_app, total_one, <- Hlen.
           cbn [length Nat.ltb Nat.leb andb] in Flush.
           apply Nat.ltb_ge in Flush. exact Flush.
      * exists groups. rewrite B in H1, H2. rewrite C in H3.
        repeat match goal with |- _ /\ _ => split end; try assumption.
        rewrite H3, <- app_assoc. reflexivity.
Qed.

(** ** One level *)

Lemma addLevel_shape (b : Builder) (lvl : Level) :
  exists groups,
    built (addLevel b lvl) =
    built b ++ mkPage (pageNo b) (level_title lvl) [] chapter_title
            :: textPages (S (pageNo b)) (level_title lvl) groups
    /\ pageNo (addLevel b lvl) = S (pageNo b) + length groups
    /\ concat groups = paragraphs lvl
    /\ Forall fits groups
    /\ Forall (fun c => c <> []) groups.
Proof.
  destruct lvl as [t c]. unfold addLevel, paragraphs.
  cbn [level_title level_content].
  set (b0 := push b t [] chapter_title).
  assert (Grouped : forall ps, exists groups,
    let g' := fold_left (groupStep t) ps (mkGroup b0 [] 0) in
    let b' := if 0 <? length (currentPageContent g')
              then push (builder g') t (currentPageContent g') text
              else builder g' in
    built b' = built b ++ mkPage (pageNo b) t [] chapter_title
                       :: textPages (S (pageNo b)) t groups
    /\ pageNo b' = S (pageNo b) + length groups
    /\ concat groups = ps
    /\ Forall fits groups
    /\ Forall (fun c => c <> []) groups).
  { intro ps.
    destruct (group_fold t ps (mkGroup b0 [] 0)) as (groups & H);
      [reflexivity | now left |].
    exists groups. cbv zeta in H |- *.
    cbn [builder currentPageContent app] in H.
    destruct H as (H1 & H2 & H3 & H4 & H5).
    assert (B0 : built b0 = built b ++ [mkPage (pageNo b) t [] chapter_title])
      by reflexivity.
    assert (P0 : pageNo b0 = S (pageNo b)) by reflexivity.
    rewrite B0, P0, <- app_assoc in H1. rewrite P0 in H2.
    repeat match goal with |- _ /\ _ => split end; assumption. }
  destruct c as [s | ps].
  - destruct (isHtml (Text s)) eqn:Html.
    + exists [[s]]. unfold b0. cbn [push built pageNo textPages length concat].
      rewrite <- app_assoc. cbn [app].
      repeat match goal with |- _ /\ _ => split end; try reflexivity.
      * lia.
      * constructor; [now left | constructor].
      * constructor; [discriminate | constructor].
    + apply Grouped.
  - cbn [isHtml]. apply Grouped.
Qed.

(** ** The book *)

Lemma built_fold_numbers (levels : list Level) :
  forall b,
  map pageNumber (built b) = seq 1 (length (built b)) ->
  pageNo b = S (length (built b)) ->
  let b' := fold_left addLevel levels b in
  map pageNumber (built b') = seq 1 (length (built b')).
Proof.
  induction levels as [| lvl levels IH]; intros b Hn Hp; [exact Hn |].
  cbn [fold_left]. destruct (addLevel_shape b lvl) as (groups & H1 & H2 & _).
  apply IH.
  - rewrite H1, map_app, length_app. cbn [map length pageNumber].
    rewrite textPages_numbers, textPages_length, Hn, Hp.
    replace (length (built b) + S (length groups))
      with (length (built b) + (1 + length groups)) by lia.
    rewrite seq_app. cbn [seq Nat.add]. reflexivity.
  - rewrite H2, H1, length_app. cbn [length]. rewrite textPages_length. lia.
Qed.

Lemma built_fold_titles (levels : list Level) :
  forall b,
  map title (filter is_chapter_title (built (fold_left addLevel levels b))) =
  map title (filter is_chapter_title (built b)) ++ map level_title levels.
Proof.
  induction levels as [| lvl levels IH]; intro b.
  - cbn. now rewrite app_nil_r.
  - cbn [fold_left]. rewrite IH.
    destruct (addLevel_shape b lvl) as (groups & H1 & _).
    rewrite H1, filter_app. cbn [filter is_chapter_title type].
    rewrite textPages_no_title, map_app, <- app_assoc. reflexivity.
Qed.

Lemma built_fold_content (levels : list Level) :
  forall b,
  flat_map content (built (fold_left addLevel levels b)) =
  flat_map content (built b) ++ flat_map paragraphs levels.
Proof.
  induction levels as [| lvl levels IH]; intro b.
  - cbn. now rewrite app_nil_r.
  - cbn [fold_left]. rewrite IH.
    destruct (addLevel_shape b lvl) as (groups & H1 & _ & H3 & _).
    rewrite H1, flat_map_app. cbn [flat_map content app].
    rewrite textPages_content, H3, <- app_assoc. reflexivity.
Qed.

Lemma built_fold_pages (P : BookPage -> Prop) (levels : list Level) :
  (forall n lvl, In lvl levels -> P (mkPage n (level_title lvl) [] chapter_title)) ->
  (forall n lvl c, In lvl levels -> c <> [] -> fits c ->
     incl c (paragraphs lvl) -> P (mkPage n (level_title lvl) c text)) ->
  forall b, Forall P (built b) ->
  Forall P (built (fold_left addLevel levels b)).
Proof.
  induction levels as [| lvl levels IH]; intros Ht Hc b Hb; [exact Hb |].
  cbn [fold_left]. apply IH.
  - intros n l Hl. apply Ht. now right.
  - intros n l c Hl. apply Hc. now right.
  - destruct (addLevel_shape b lvl) as (groups & H1 & _ & H3 & H4 & H5).
    rewrite H1. apply Forall_app. split; [exact Hb |].
    constructor; [apply Ht; now left |].
    apply Forall_forall. intros p Hp.
    destruct (textPages_In _ _ _ _ Hp) as (A & B & C).
    destruct p as [n t c ty]. cbn [type title content] in A, B, C. subst.
    rewrite Forall_forall in H4, H5.
    apply Hc; [now left | now apply H5 | now apply H4 |].
    intros x Hx. rewrite <- H3. apply in_concat. now exists c.
Qed.

End BookPagesFacts.

(* ================================================================== *)
(** * The book that buildBook makes *)
(* ================================================================== *)

Module BookFacts.
Import BookPages BookTextFacts BookPagesFacts.
Local Open Scope nat_scope.

Lemma paragraphs_chunks (lvl : Level) :
  paragraphs lvl =
  if isHtml (level_content lvl)
  then match level_content lvl with Text s => [s] | Points _ => [] end
  else flat_map chunks (paras (level_content lvl)).
Proof.
  unfold paragraphs. destruct (level_content lvl) as [s | ps].
  - destruct (isHtml (Text s)); [reflexivity |].
    now rewrite finalParas_chunks.
  - cbn [isHtml]. now rewrite finalParas_chunks.
Qed.

Lemma paragraphs_nonempty (lvl : Level) :
  Forall (fun p => p <> []) (paragraphs lvl).
Proof.
  rewrite paragraphs_chunks. destruct (level_content lvl) as [s | ps].
  - destruct (isHtml (Text s)) eqn:H.
    + constructor; [| constructor]. cbn [isHtml] in H.
      destruct s; [discriminate H | discriminate].
    + apply chunks_nonempty. cbn [paras]. apply truthy_nonempty.
  - cbn [isHtml]. apply chunks_nonempty. cbn [paras].
    apply Forall_forall. intros p Hp. apply in_map_iff in Hp.
    destruct Hp as (q & <- & Hq). apply bullet_nonempty.
    apply filter_In in Hq. destruct Hq as [_ Hq]. now destruct q.
Qed.

Lemma paragraphs_visible (lvl : Level) :
  visible (concat (paragraphs lvl)) = visible (source lvl).
Proof.
  rewrite paragraphs_chunks. unfold source.
  destruct (level_content lvl) as [s | ps].
  - destruct (isHtml (Text s)).
    + cbn [concat]. now rewrite app_nil_r.
    + now rewrite chunks_visible, paras_text_visible.
  - cbn [isHtml paras]. apply chunks_visible.
Qed.

(** ** Numbering *)

(** The pages of the book are numbered 1, 2, 3, ... in the order they come,
    whatever the levels hold. *)
Theorem pages_numbered (levels : list Level) (bookTitle : option Str) :
  map pageNumber (book_pages levels bookTitle)
  = seq 1 (length (book_pages levels bookTitle)).
Proof.
  unfold book_pages, buildBook. cbn [fst pages].
  now apply built_fold_numbers.
Qed.

(** ** Chapters *)

(** The book has exactly one chapter-title page per level, in the order of
    the levels and with the level's title; empty levels included. *)
Theorem chapter_titles (levels : list Level) (bookTitle : option Str) :
  map title (filter is_chapter_title (book_pages levels bookTitle))
  = map level_title levels.
Proof.
  unfold book_pages, buildBook. cbn [fst pages].
  now rewrite built_fold_titles.
Qed.

(** ** Pages *)

(** A chapter-title page has no paragraph.  A text page has at least one
    paragraph, no empty paragraph, and either one paragraph only or paragraphs
    of at most 600 code units together. *)
Theorem pages_well_formed (levels : list Level) (bookTitle : option Str) :
  Forall well_formed (book_pages levels bookTitle).
Proof.
  unfold book_pages, buildBook. cbn [fst pages].
  apply built_fold_pages; [| | constructor].
  - intros n lvl _. reflexivity.
  - intros n lvl c _ Hc Hf Hin. unfold well_formed. cbn [type content].
    repeat split; try assumption.
    pose proof (paragraphs_nonempty lvl) as Hp.
    rewrite Forall_forall in Hp. apply Forall_forall.
    intros para Hpara. apply Hp, Hin, Hpara.
Qed.

(** ** Nothing is lost *)

(** Read in order, the paragraphs of the pages are the paragraphs of the
    levels; and their visible characters are, in order, those of the levels'
    texts and points (with the markers added to points): cutting into
    paragraphs, chunks and pages drops and adds white space only. *)
Theorem pages_show_the_text (levels : list Level) (bookTitle : option Str) :
  flat_map content (book_pages levels bookTitle) = flat_map paragraphs levels
  /\ visible (concat (flat_map content (book_pages levels bookTitle)))
     = visible (concat (map source levels)).
Proof.
  assert (E : flat_map content (book_pages levels bookTitle)
              = flat_map paragraphs levels).
  { unfold book_pages, buildBook. cbn [fst pages].
    now rewrite built_fold_content. }
  split; [exact E |]. rewrite E. clear E.
  induction levels as [| lvl levels IH]; [reflexivity |].
  cbn [flat_map map concat].
  now rewrite concat_app, !visible_app, IH, paragraphs_visible.
Qed.

(** ** Long paragraphs *)

(** A paragraph of at most 600 code units is kept whole.  Every chunk of a
    longer one has at most 601 code units or is a single sentence of the
    paragraph; 601 is reached, by two sentences of 300 code units.  The chunks
    of a nonempty paragraph are nonempty, and they hold the visible characters
    of the paragraph in order. *)
Theorem chunks_bounded (para : Str) :
  (length para <= maxCharsPerPage -> chunks para = [para])
  /\ Forall (fun c => length c <= S maxCharsPerPage
                      \/ In c (splitSentences para [] plain)) (chunks para)
  /\ (para <> [] -> Forall (fun c => c <> []) (chunks para))
  /\ visible (concat (chunks para)) = visible para
  /\ (length twoSentences = S maxCharsPerPage
      /\ chunks twoSentences = [twoSentences]).
Proof.
  destruct (chunks_inv para) as (H1 & H2 & H3).
  repeat match goal with |- _ /\ _ => split end; try assumption.
  - intro H. unfold chunks, splitLong.
    apply Nat.leb_le in H. now rewrite H.
  - vm_compute. reflexivity.
  - vm_compute. reflexivity.
Qed.

(** ** Paragraphs of a plain text *)

(** Every paragraph taken from a plain text is nonempty and starts and ends
    with a character that is not white space. *)
Theorem plain_paragraphs_trimmed (s para : Str) :
  In para (paras (Text s)) ->
  exists a z, first para = Some a /\ last_ para = Some z
              /\ isSpace a = false /\ isSpace z = false.
Proof.
  cbn [paras]. intro H. apply filter_In in H. destruct H as [H Ht].
  apply in_map_iff in H. destruct H as (piece & <- & _).
  destruct (trim_ends piece) as (a & z & m & m' & E1 & E2 & Ha & Hz).
  - now destruct (trim piece).
  - exists a, z. unfold first, last_. repeat split; try assumption.
    + now rewrite E1.
    + rewrite E2, rev_app_distr. reflexivity.
Qed.

Import String.StringSyntax.
Local Open Scope string_scope.

Lemma plain_paragraphs_trimmed_witness :
  exists a z,
    first (str "Two.") = Some a /\ last_ (str "Two.") = Some z
    /\ isSpace a = false /\ isSpace z = false.
Proof.
  apply (plain_paragraphs_trimmed
           ([32%N] ++ str "One." ++ [10%N; 10%N; 10%N] ++ str "Two."
            ++ [32%N; 10%N])%list).
  vm_compute. right. left. reflexivity.
Defined.

Local Close Scope string_scope.

End BookFacts.

(* ================================================================== *)
(** * Properties of handleTurnComplete *)
(* ================================================================== *)

Module TurnCompleteFacts.
Import BookPages BookPagesFacts TurnComplete.
Local Open Scope Z_scope.

Lemma same_refl (a : Str) : same a a = true.
Proof.
  unfold same. now destruct (list_eq_dec N.eq_dec a a).
Qed.

Lemma same_eq (a b : Str) : same a b = true -> a = b.
Proof.
  unfold same. now destruct (list_eq_dec N.eq_dec a b).
Qed.

Lemma findIndex_first (key : Level -> Str) (levels : list Level) :
  forall (k : nat) (lvl : Level) (i : Z),
  NoDup (map key levels) ->
  nth_error levels k = Some lvl ->
  findIndex (fun l => same (key l) (key lvl)) levels i = i + Z.of_nat k.
Proof.
  induction levels as [| l rest IH]; intros k lvl i Hd Hk.
  - destruct k; discriminate.
  - cbn [map] in Hd. inversion Hd as [| ? ? Hnot Hd']; subst.
    destruct k as [| k]; cbn [nth_error] in Hk; cbn [findIndex].
    + injection Hk as ->. rewrite same_refl. lia.
    + destruct (same (key l) (key lvl)) eqn:E.
      * apply same_eq in E. exfalso. apply Hnot. rewrite E.
        apply in_map. eapply nth_error_In. exact Hk.
      * rewrite (IH k lvl (i + 1) Hd' Hk). lia.
Qed.

Lemma built_fold_prefix (levels : list Level) :
  forall b, exists rest,
  built (fold_left addLevel levels b) = built b ++ rest.
Proof.
  induction levels as [| lvl levels IH]; intro b.
  - exists []. cbn. now rewrite app_nil_r.
  - cbn [fold_left]. destruct (IH (addLevel b lvl)) as (rest & E).
    destruct (addLevel_shape b lvl) as (groups & H1 & _).
    rewrite E, H1, <- app_assoc. eexists. reflexivity.
Qed.

Lemma textPages_last (t : Str) (groups : list (list Str)) :
  groups <> [] ->
  forall n, exists p front,
  textPages n t groups = front ++ [p] /\ type p = text.
Proof.
  induction groups as [| c rest IH]; intros Hne n; [now elim Hne |].
  destruct rest as [| c' rest'].
  - exists (mkPage n t c text), []. split; reflexivity.
  - destruct (IH ltac:(discriminate) (S n)) as (p & front & E & Hp).
    exists p, (mkPage n t c text :: front). split; [| exact Hp].
    cbn [textPages] in E |- *. rewrite E. reflexivity.
Qed.

Lemma item_middle {A : Type} (front back : list A) (a : A) :
  item (front ++ a :: back) (Z.of_nat (length front)) = Some a.
Proof.
  unfold item. destruct (Z.of_nat (length front) <? 0) eqn:E;
    [apply Z.ltb_lt in E; lia |].
  rewrite Nat2Z.id, nth_error_app2 by lia.
  now rewrite Nat.sub_diag.
Qed.

(** The pages around the start of level [k]: those of the levels before it,
    its chapter-title page, and the rest. *)
Lemma pages_at_level (levels : list Level) (k : nat) (lvl : Level)
    (bookTitle : option Str) :
  nth_error levels k = Some lvl ->
  exists n back,
    book_pages levels bookTitle =
    book_pages (firstn k levels) None
    ++ mkPage n (level_title lvl) [] chapter_title :: back.
Proof.
  intro Hk. destruct (nth_error_split levels k Hk) as (l1 & l2 & E & Hlen).
  assert (F : firstn k levels = l1).
  { rewrite E, <- Hlen. rewrite firstn_app, Nat.sub_diag, firstn_all.
    cbn [firstn]. apply app_nil_r. }
  rewrite F. clear F Hk. subst levels.
  unfold book_pages, buildBook. cbn [fst pages].
  rewrite fold_left_app. cbn [fold_left].
  set (b1 := fold_left addLevel l1 (mkBuilder [] 1%nat)).
  destruct (built_fold_prefix l2 (addLevel b1 lvl)) as (rest & R).
  destruct (addLevel_shape b1 lvl) as (groups & H1 & _).
  rewrite R, H1, <- app_assoc. cbn [app]. eexists. eexists. reflexivity.
Qed.

(** The last page of a book whose last level has paragraphs is a text page. *)
Lemma pages_end_text (levels : list Level) (lvl : Level) :
  paragraphs lvl <> [] ->
  exists p front,
    book_pages (levels ++ [lvl]) None = front ++ [p] /\ type p = text.
Proof.
  intro Hp. unfold book_pages, buildBook. cbn [fst pages].
  rewrite fold_left_app. cbn [fold_left].
  set (b1 := fold_left addLevel levels (mkBuilder [] 1%nat)).
  destruct (addLevel_shape b1 lvl) as (groups & H1 & _ & H3 & _).
  assert (G : groups <> []) by (intro E; rewrite E in H3; now apply Hp).
  destruct (textPages_last (level_title lvl) groups G (S (pageNo b1)))
    as (p & front & E & T).
  exists p. eexists. split; [| exact T].
  rewrite H1, E. rewrite app_comm_cons, app_assoc. reflexivity.
Qed.

Lemma firstn_next {A : Type} (l : list A) (k : nat) (a : A) :
  nth_error l k = Some a -> firstn (S k) l = firstn k l ++ [a].
Proof.
  revert k. induction l as [| x l IH]; intros k H.
  - destruct k; discriminate.
  - destruct k as [| k]; cbn [nth_error] in H.
    + injection H as ->. reflexivity.
    + cbn [firstn app]. f_equal. now apply IH.
Qed.

(** ** The quiz of the chapter just read *)

(** With level titles that differ beyond case: when a forward turn from the
    last text page of level [k] arrives at the chapter-title page of level
    [k + 1], [onChapterQuiz] is called with [k], the index of the level just
    read; and the page arrived at becomes the current page. *)
Theorem quiz_after_chapter (toLowerCase : Str -> Str)
    (levels : list Level) (k : nat) (read arrived : Level)
    (bookTitle : option Str) :
  NoDup (map (fun l => toLowerCase (level_title l)) levels) ->
  nth_error levels k = Some read ->
  nth_error levels (S k) = Some arrived ->
  paragraphs read <> [] ->
  let book := fst (buildBook levels bookTitle) in
  let newPage := titlePage levels (S k) in
  handleTurnComplete toLowerCase levels book (newPage - 1) newPage
  = mkTurned (newPage - 1) newPage (Some (Z.of_nat k)).
Proof.
  intros Hd Hread Harr Hp book newPage.
  destruct (pages_at_level levels (S k) arrived bookTitle Harr)
    as (n & back & E).
  destruct (pages_end_text (firstn k levels) read Hp) as (p & front & F & T).
  rewrite <- (firstn_next levels k read Hread) in F.
  assert (N : newPage = Z.of_nat (length front) + 1).
  { unfold newPage, titlePage. rewrite F, length_app. cbn [length]. lia. }
  assert (Pages : pages book
                  = front ++ p :: mkPage n (level_title arrived) []
                                         chapter_title :: back).
  { change (pages book) with (book_pages levels bookTitle).
    rewrite E, F, <- app_assoc. reflexivity. }
  assert (I1 : item (pages book) (newPage - 1) = Some p).
  { rewrite Pages, N.
    replace (Z.of_nat (length front) + 1 - 1) with (Z.of_nat (length front))
      by lia.
    apply item_middle. }
  assert (I2 : item (pages book) newPage
               = Some (mkPage n (level_title arrived) [] chapter_title)).
  { change (pages book) with (book_pages levels bookTitle).
    rewrite E. apply item_middle. }
  unfold handleTurnComplete. rewrite I1, I2, T. cbn [type title].
  assert (L : (newPage - 1 <? newPage) = true) by (apply Z.ltb_lt; lia).
  rewrite L.
  rewrite (findIndex_first (fun l => toLowerCase (level_title l))
             levels (S k) arrived 0 Hd Harr).
  replace (Z.max 0 (0 + Z.of_nat (S k) - 1)) with (Z.of_nat k) by lia.
  assert (P : (0 <=? Z.of_nat k) = true) by (apply Z.leb_le; lia).
  now rewrite P.
Qed.

Import String.StringSyntax.
Local Open Scope string_scope.

Lemma quiz_after_chapter_witness :
  let levels := [mkLevel (str "One") (Text (str "Read me."));
                 mkLevel (str "Two") (Points [])] in
  handleTurnComplete (fun s => s) levels (fst (buildBook levels None))
    (titlePage levels 1 - 1) (titlePage levels 1)
  = mkTurned (titlePage levels 1 - 1) (titlePage levels 1) (Some 0).
Proof.
  intro levels.
  apply (quiz_after_chapter (fun s => s) levels 0
           (mkLevel (str "One") (Text (str "Read me.")))
           (mkLevel (str "Two") (Points [])) None).
  - vm_compute. repeat constructor; cbn; intuition discriminate.
  - reflexivity.
  - reflexivity.
  - vm_compute. discriminate.
Defined.

Local Close Scope string_scope.

End TurnCompleteFacts.

(* ================================================================== *)
(** * Properties of the frames of useOpticalFlow.ts *)
(* ================================================================== *)

Module OpticalFlowRunFacts.
Import OpticalFlow OpticalFlowRun.
Local Open Scope Z_scope.

(** ** The sample grid *)

(** The offset of a sample point lies in the search window. *)
Lemma bestDx_window (prevFrame currentFrame : Buffer) (y x b : Z) :
  bestDx_at prevFrame currentFrame y x = Some b -> -4 <= b <= 4.
Proof.
  unfold bestDx_at.
  destruct (Z.abs (px prevFrame (y * width + x - 1)
                   - px prevFrame (y * width + x + 1)) <? 30);
    [discriminate |].
  set (prevVal := px prevFrame (y * width + x)).
  set (zeroDiff := Z.abs (px currentFrame (y * width + x) - prevVal)).
  pose proof (OpticalFlowFacts.search_spec currentFrame y x prevVal zeroDiff)
    as (_ & _ & Hnz).
  set (found := search currentFrame y x prevVal zeroDiff) in *.
  intro H. assert (E : snd found = b) by congruence.
  destruct (Z.eq_dec b 0) as [-> | Hb]; [lia |].
  rewrite E in Hnz. destruct (Hnz Hb) as (I & _).
  now apply OpticalFlowFacts.range_offsets.
Qed.

(** On an unchanged frame the offset of every sample point is zero. *)
Lemma bestDx_still (frame : Buffer) (y x b : Z) :
  bestDx_at frame frame y x = Some b -> b = 0.
Proof.
  unfold bestDx_at.
  destruct (Z.abs (px frame (y * width + x - 1)
                   - px frame (y * width + x + 1)) <? 30);
    [discriminate |].
  set (prevVal := px frame (y * width + x)).
  replace (Z.abs (prevVal - prevVal)) with 0 by lia.
  pose proof (OpticalFlowFacts.search_spec frame y x prevVal 0)
    as (_ & _ & Hnz).
  set (found := search frame y x prevVal 0) in *.
  intro H. assert (E : snd found = b) by congruence.
  destruct (Z.eq_dec b 0) as [-> | Hb]; [reflexivity |].
  rewrite E in Hnz. destruct (Hnz Hb) as (_ & _ & I).
  unfold offset_error in I. lia.
Qed.

Lemma sample_counted (p c : Buffer) (y x n : Z) (st : Z * Z) :
  counted n st -> counted (n + 1) (sample p c y st x).
Proof.
  unfold counted, sample. intros (H1 & H2).
  destruct (bestDx_at p c y x) as [b |] eqn:E; [| lia].
  apply bestDx_window in E.
  destruct (b =? 0); cbn [negb fst snd]; lia.
Qed.

Lemma sample_row_counted (p c : Buffer) (y : Z) (xs : list Z) :
  forall n st,
  counted n st ->
  counted (n + Z.of_nat (length xs)) (fold_left (sample p c y) xs st).
Proof.
  induction xs as [| x xs IH]; intros n st H.
  - cbn [fold_left length]. now rewrite Z.add_0_r.
  - cbn [fold_left length]. rewrite Nat2Z.inj_succ.
    replace (n + Z.succ (Z.of_nat (length xs)))
      with (n + 1 + Z.of_nat (length xs)) by lia.
    apply IH. now apply sample_counted.
Qed.

Lemma grid_columns : length (range 10 (width - 10) 4) = 11%nat.
Proof.
  reflexivity.
Qed.

Lemma grid_rows : length (range 10 (height - 10) 4) = 7%nat.
Proof.
  reflexivity.
Qed.

Lemma rows_counted (p c : Buffer) (ys : list Z) :
  forall n st,
  counted n st ->
  counted (n + 11 * Z.of_nat (length ys)) (fold_left (sample_row p c) ys st).
Proof.
  induction ys as [| y ys IH]; intros n st H.
  - cbn [fold_left length]. now rewrite Z.mul_0_r, Z.add_0_r.
  - cbn [fold_left length]. rewrite Nat2Z.inj_succ.
    replace (n + 11 * Z.succ (Z.of_nat (length ys)))
      with (n + 11 + 11 * Z.of_nat (length ys)) by lia.
    apply IH. unfold sample_row.
    pose proof (sample_row_counted p c y (range 10 (width - 10) 4) n st H)
      as R.
    rewrite grid_columns in R. exact R.
Qed.

Lemma flow_counted (p c : Buffer) :
  Z.abs (deltaX p c) <= 4 * validPoints p c /\ 0 <= validPoints p c <= 77.
Proof.
  pose proof (rows_counted p c (range 10 (height - 10) 4) 0 (0, 0)) as R.
  rewrite grid_rows in R. apply R. unfold counted. cbn [fst snd]. lia.
Qed.

Lemma flow_still (frame : Buffer) : flow frame frame = (0, 0).
Proof.
  unfold flow.
  assert (Point : forall y x st, sample frame frame y st x = st).
  { intros y x st. unfold sample.
    destruct (bestDx_at frame frame y x) as [b |] eqn:E; [| reflexivity].
    now rewrite (bestDx_still frame y x b E). }
  assert (Row : forall y st, sample_row frame frame st y = st).
  { intros y st. unfold sample_row.
    induction (range 10 (width - 10) 4) as [| x xs IH]; [reflexivity |].
    cbn [fold_left]. now rewrite Point. }
  induction (range 10 (height - 10) 4) as [| y ys IH]; [reflexivity |].
  cbn [fold_left]. now rewrite Row.
Qed.

Lemma rawInput_still (frame : Buffer) : rawInput frame frame = None.
Proof.
  unfold rawInput, validPoints. now rewrite flow_still.
Qed.

Lemma rawInput_bounds (p c : Buffer) (raw : Q) :
  rawInput p c = Some raw ->
  5 < validPoints p c <= 77 /\ (0.5 < Qabs raw /\ Qabs raw <= 4)%Q.
Proof.
  unfold rawInput. destruct (Z.ltb_spec 5 (validPoints p c)) as [Hv |];
    [| discriminate].
  destruct (Qltb 0.5 (Qabs (avgDx p c))) eqn:E; [| discriminate].
  intro H. injection H as <-. apply Qltb_lt in E.
  destruct (flow_counted p c) as [C1 C2].
  split; [lia | split; [exact E |]].
  apply Qabs_Qle_condition. unfold avgDx.
  destruct (validPoints p c) as [| v | v]; try lia.
  unfold Qle, Qdiv, Qmult, Qinv, inject_Z.
  cbn [Qnum Qden Z.mul Pos.mul Qopp Z.opp]. split; lia.
Qed.

(** ** The deltas passed on *)

Lemma onGesture_bounds (i : Input) (r : Refs) (d : Q) :
  In (onGesture d) (snd (processFrame i r)) ->
  (15 < Qabs d /\ Qabs d <= 120)%Q
  /\ exists prevFrame,
       prevFrameRef r = Some prevFrame
       /\ 5 < validPoints prevFrame (currentFrame i) <= 77.
Proof.
  intro H. apply OpticalFlowFacts.gestures_In in H.
  rewrite OpticalFlowFacts.gestures_processFrame in H.
  destruct (prevFrameRef r) as [prevFrame |]; [| destruct H].
  destruct (rawInput prevFrame (currentFrame i)) as [raw |] eqn:E;
    [| destruct H].
  destruct H as [<- | []].
  destruct (rawInput_bounds _ _ _ E) as (V & R1 & R2).
  split; [| exists prevFrame; split; [reflexivity | exact V]].
  rewrite Qabs_Qmult. change (Qabs 30) with 30%Q. split; lra.
Qed.

(** Every delta passed to [onGesture] is more than 15 and at most 120 in
    magnitude: it is 30 times an average of more than 5 and at most 77
    offsets, each within the search window of 4 pixels either way, that
    exceeds the dead zone of 0.5. *)
Theorem gesture_delta_bounded (i : Input) (r : Refs) (d : Q) :
  In (onGesture d) (snd (processFrame i r)) ->
  (15 < Qabs d /\ Qabs d <= 120)%Q
  /\ exists prevFrame,
       prevFrameRef r = Some prevFrame
       /\ 5 < validPoints prevFrame (currentFrame i) <= 77.
Proof.
  apply onGesture_bounds.
Qed.

Lemma gesture_delta_bounded_witness :
  let p := edges_before [(10, 10, 2); (10, 30, 2); (10, 50, 2); (14, 10, 2);
                         (14, 30, 2); (14, 50, 2)] in
  let c := edges_after [(10, 10, 2); (10, 30, 2); (10, 50, 2); (14, 10, 2);
                        (14, 30, 2); (14, 50, 2)] in
  ((15 < Qabs (360 # 6) /\ Qabs (360 # 6) <= 120)%Q
   /\ exists prevFrame,
        prevFrameRef (mkRefs (Some p) false 0 0) = Some prevFrame
        /\ 5 < validPoints prevFrame (currentFrame (mkInput c 1000 1000)) <= 77).
Proof.
  intros p c.
  apply (gesture_delta_bounded (mkInput c 1000 1000)
           (mkRefs (Some p) false 0 0) (360 # 6)).
  vm_compute. left. reflexivity.
Defined.

(** ** A still scene *)

Lemma processFrame_prev (i : Input) (r : Refs) :
  prevFrameRef (fst (processFrame i r)) = Some (currentFrame i).
Proof.
  unfold processFrame.
  repeat match goal with
         | |- context [let '(_, _) := ?x in _] => destruct x
         end.
  reflexivity.
Qed.

(** While the camera shows one and the same frame, [onGesture] is never
    called, whatever the frame holds. *)
Theorem still_scene_silent (frame : Buffer) (inputs : list Input) :
  forall r,
  Forall (fun i => currentFrame i = frame) inputs ->
  prevFrameRef r = None \/ prevFrameRef r = Some frame ->
  gestures (snd (run inputs r)) = [].
Proof.
  induction inputs as [| i rest IH]; intros r Hall Hprev; [reflexivity |].
  inversion Hall as [| ? ? Hi Hrest]; subst.
  cbn [run]. pose proof (processFrame_prev i r) as P.
  pose proof (OpticalFlowFacts.gestures_processFrame i r) as G.
  destruct (processFrame i r) as [r1 out]. cbn [fst snd] in P, G.
  specialize (IH r1 Hrest (or_intror P)).
  destruct (run rest r1) as [r2 outs]. cbn [snd] in IH |- *.
  unfold gestures in *. rewrite flat_map_app, IH, app_nil_r, G.
  destruct Hprev as [-> | ->]; [reflexivity |].
  now rewrite rawInput_still.
Qed.

Lemma still_scene_silent_witness :
  gestures (snd (run [mkInput (edges_before moved) 0 0;
                      mkInput (edges_before moved) 33 33;
                      mkInput (edges_before moved) 66 66] initial)) = [].
Proof.
  apply (still_scene_silent (edges_before moved)).
  - repeat constructor.
  - left. reflexivity.
Defined.

(** ** Gestures open and close *)

Lemma follows_app (a b : list Callback) :
  forall open,
  follows open (a ++ b) =
  match follows open a with
  | Some open' => follows open' b
  | None => None
  end.
Proof.
  induction a as [| c a IH]; intro open; [reflexivity |].
  destruct c; cbn [app follows]; [apply IH |].
  destruct open; [apply IH | reflexivity].
Qed.

Lemma processFrame_follows (i : Input) (r : Refs) :
  follows (isActiveRef r) (snd (processFrame i r))
  = Some (isActiveRef (fst (processFrame i r))).
Proof.
  unfold processFrame.
  destruct (prevFrameRef r) as [prevFrame |];
    [destruct (rawInput prevFrame (currentFrame i)) as [raw |] |];
    cbn [isActiveRef lastMotionTime andb];
    match goal with |- context [if ?c then _ else _] => destruct c eqn:E end;
    cbn [fst snd app follows isActiveRef]; try reflexivity;
    try (apply andb_true_iff in E; destruct E as [E _]; now rewrite E).
Qed.

(** Over any frames, the callbacks alternate as a consumer expects:
    [onGestureEnd] is called only after an [onGesture] that no
    [onGestureEnd] has followed yet, so never first and never twice in a row,
    and the hook is active exactly when a gesture is open. *)
Theorem gestures_open_and_close (inputs : list Input) :
  forall r,
  follows (isActiveRef r) (snd (run inputs r))
  = Some (isActiveRef (fst (run inputs r))).
Proof.
  induction inputs as [| i rest IH]; intro r; [reflexivity |].
  cbn [run]. pose proof (processFrame_follows i r) as P.
  destruct (processFrame i r) as [r1 out]. cbn [fst snd] in P.
  specialize (IH r1). destruct (run rest r1) as [r2 outs].
  cbn [fst snd] in IH |- *. now rewrite follows_app, P.
Qed.

(** ** Grayscale *)

Lemma pixels_ind (P : list Z -> Prop) :
  (forall l, (length l < 4)%nat -> P l) ->
  (forall r g b a rest, P rest -> P (r :: g :: b :: a :: rest)) ->
  forall l, P l.
Proof.
  intros Short Pixel.
  fix IH 1. intros [| r [| g [| b [| a rest]]]];
    try (apply Short; cbn; lia).
  apply Pixel, IH.
Qed.

Lemma toUint8_mean (r g b : Z) :
  byte r -> byte g -> byte b ->
  toUint8 (r + g + b) 3 = (r + g + b) / 3.
Proof.
  unfold byte, toUint8. intros Hr Hg Hb.
  rewrite Z.quot_div_nonneg by lia.
  apply Z.mod_small.
  split; [apply Z.div_pos; lia | apply Z.div_lt_upper_bound; lia].
Qed.

(** The grayscale buffer has one byte per pixel of the image data: the mean
    of its red, green and blue bytes, rounded down, which lies between the
    least and the greatest of them; the alpha byte is not read. *)
Theorem grayscale_mean (data : list Z) :
  Forall byte data ->
  length (grayscale data) = (length data / 4)%nat
  /\ Forall byte (grayscale data)
  /\ forall k, (k < length (grayscale data))%nat ->
       let r := nth (4 * k) data 0 in
       let g := nth (4 * k + 1) data 0 in
       let b := nth (4 * k + 2) data 0 in
       let v := nth k (grayscale data) 0 in
       3 * v <= r + g + b < 3 * v + 3
       /\ Z.min r (Z.min g b) <= v <= Z.max r (Z.max g b).
Proof.
  induction data as [l Hl | r g b a rest IH] using pixels_ind; intro Hb.
  - assert (E : grayscale l = []).
    { destruct l as [| ? [| ? [| ? [| ? ?]]]]; try reflexivity.
      cbn in Hl. lia. }
    rewrite E. cbn [length].
    repeat split; try constructor; try (intros; lia).
    symmetry. now apply Nat.div_small.
  - inversion Hb as [| ? ? Br H1]; subst.
    inversion H1 as [| ? ? Bg H2]; subst.
    inversion H2 as [| ? ? Bb H3]; subst.
    inversion H3 as [| ? ? _ Hrest]; subst.
    destruct (IH Hrest) as (L & B & V).
    cbn [grayscale]. rewrite (toUint8_mean r g b Br Bg Bb).
    assert (M : 3 * ((r + g + b) / 3) <= r + g + b < 3 * ((r + g + b) / 3) + 3).
    { pose proof (Z.div_mod (r + g + b) 3 ltac:(lia)).
      pose proof (Z.mod_pos_bound (r + g + b) 3 ltac:(lia)). lia. }
    repeat match goal with |- _ /\ _ => split end.
    + cbn [length]. rewrite L.
      change (S (S (S (S (length rest))))) with (4 + length rest)%nat.
      replace (4 + length rest)%nat with (length rest + 1 * 4)%nat by lia.
      rewrite Nat.div_add by lia. lia.
    + constructor; [| exact B]. unfold byte in *. lia.
    + intros [| k] Hk.
      * cbn [nth Nat.mul Nat.add]. unfold byte in *. cbv zeta. lia.
      * cbn [length] in Hk.
        replace (4 * S k)%nat with (S (S (S (S (4 * k))))) by lia.
        cbn [nth Nat.add]. apply V. lia.
Qed.

Lemma grayscale_mean_witness :
  length (grayscale twoPixels) = (length twoPixels / 4)%nat
  /\ Forall byte (grayscale twoPixels)
  /\ forall k, (k < length (grayscale twoPixels))%nat ->
       let r := nth (4 * k) twoPixels 0 in
       let g := nth (4 * k + 1) twoPixels 0 in
       let b := nth (4 * k + 2) twoPixels 0 in
       let v := nth k (grayscale twoPixels) 0 in
       3 * v <= r + g + b < 3 * v + 3
       /\ Z.min r (Z.min g b) <= v <= Z.max r (Z.max g b).
Proof.
  apply (grayscale_mean twoPixels).
  repeat constructor; discriminate.
Defined.

End OpticalFlowRunFacts.

(* ================================================================== *)
(** * Properties of the animator under gestures and keys *)
(* ================================================================== *)

Module AnimatorFacts.
Import Book3D Book3DFacts App.

Lemma scheduled_false (w : World) :
  scheduled w = false ->
  pendingProps (fiber w) = false
  /\ rotationQueue (fiber w) = [] /\ directionQueue (fiber w) = [].
Proof.
  unfold scheduled, hasUpdates. intro H.
  apply orb_false_iff in H. destruct H as [H1 H2].
  split; [exact H1 |].
  destruct (rotationQueue (fiber w)); [| discriminate H2].
  destruct (directionQueue (fiber w)); [| discriminate H2].
  split; reflexivity.
Qed.

(** ** The start of a turn *)

(** A gesture at rest whose delta starts a turn: three commits.  The gesture
    effect runs for the new signal and sets the direction; it runs once more
    because the direction is among its dependencies, adds the delta again and
    sets the rotation; the third commit shows that rotation. *)
Lemma gesture_starts (w : World) (delta : Q) (i : Z) (d : Direction) :
  idle w ->
  Qeq_bool delta 0 = false ->
  starts (shell w) (dragAccumulator w + delta * 1) = Some d ->
  let w3 := settle 3 (step (Gesture delta i) w) in
  let acc := dragAccumulator w + delta * 1 + delta * 1 in
  settled w3
  /\ shell w3 = gestured delta i w
  /\ fresh w3 = S (fresh w)
  /\ state w3 = mkState (dragRotation d acc) (Some d)
  /\ dragAccumulator w3 = acc
  /\ completed w3 = completed w.
Proof.
  intros (Hr & Hsch & Ha & Hd & Hf) Hz Hs.
  destruct (scheduled_false w Hsch) as (Hpp & Hrq & Hdq).
  unfold starts in Hs.
  open_idle w. subst act dir af pp rq dq rd.
  destruct (Qle_bool (acc + delta * 1) (-10) && (page <? len - 1)%Z) eqn:B1;
    [| destruct (Qle_bool 10 (acc + delta * 1) && (0 <? page)%Z) eqn:B2;
       [| discriminate Hs]];
    injection Hs as <-.
  all: match goal with |- context [dragRotation ?d ?a] =>
         pose proof (Qeq_bool_sym rot (dragRotation d a)) as Es;
         destruct (Qeq_bool rot (dragRotation d a)) eqn:E1; symmetry in Es
       end.
  all: change (settle 3 ?X) with (commit (commit (commit X))).
  all: gesture_start.
  all: do 3 commit_once.
  all: unfold settled, gestured, scheduled, hasUpdates;
    cbn [shell state rendered fiber completed animationFrame dragAccumulator
         fresh pendingProps rotationQueue directionQueue orb
         currentPage content_pages_length];
    repeat match goal with |- _ /\ _ => split end; reflexivity.
Qed.

Lemma in_range_eq (a b : Q) : a == b -> in_range b -> in_range a.
Proof.
  intros E [L U]. split; rewrite E; assumption.
Qed.

(** After the gesture that starts a turn the drag is in progress. *)
Lemma gesture_drags (w : World) (delta : Q) (i : Z) (d : Direction)
    (n : nat) :
  idle w ->
  Qeq_bool delta 0 = false ->
  starts (shell w) (dragAccumulator w + delta * 1) = Some d ->
  (3 <= n)%nat ->
  let w' := settle n (step (Gesture delta i) w) in
  let acc := dragAccumulator w + delta * 1 + delta * 1 in
  dragging d w'
  /\ turning d (dragRotation d acc) w'
  /\ dragAccumulator w' = acc
  /\ completed w' = completed w
  /\ currentPage (shell w') = currentPage (shell w)
  /\ content_pages_length (shell w') = content_pages_length (shell w)
  /\ quiescent w'.
Proof.
  intros Hi Hz Hs Hn w' acc. subst w'.
  destruct (gesture_starts w delta i d Hi Hz Hs)
    as (S3 & Hsh & Hfr & Hst & Hacc & Hc).
  replace n with ((n - 3) + 3)%nat by lia.
  rewrite settle_add, settle_fixed by now apply settled_commit.
  set (w3 := settle 3 (step (Gesture delta i) w)) in *.
  fold acc in Hst, Hacc.
  destruct S3 as (Sr & Ssch & Sf).
  destruct (scheduled_false w3 Ssch) as (_ & Hrq & Hdq).
  split; [| split; [| split; [exact Hacc | split; [exact Hc |]]]].
  - split; [exact Sr |]. split; [exact Ssch |].
    rewrite Hsh, Hst, Hacc, Hfr. cbn [gestured isGestureActive
      turningDirection currentRotation gestureSignal addr].
    split; [reflexivity |]. split; [reflexivity |].
    split; [reflexivity |]. split; [exact Sf | lia].
  - split.
    + eexists. split; [exact Sr |]. rewrite Hsh. split; reflexivity.
    + split; [exact Hst |]. split; [exact Hrq |]. split; [exact Hdq |].
      apply dragRotation_range.
  - rewrite Hsh. split; [reflexivity |]. split; [reflexivity |].
    apply settled_quiescent. split; [exact Sr | split; assumption].
Qed.

(** One more gesture during a drag: two commits.  The gesture effect adds
    the delta and sets the rotation, which React computes at the call since
    the render was caused by the parent; it schedules a render unless the
    rotation is the one shown. *)
Lemma drag_step (w : World) (delta : Q) (i : Z) (d : Direction) :
  dragging d w ->
  let w2 := settle 2 (step (Gesture delta i) w) in
  dragging d w2
  /\ dragAccumulator w2 == dragAccumulator w + delta
  /\ completed w2 = completed w
  /\ currentPage (shell w2) = currentPage (shell w).
Proof.
  intros (Hr & Hsch & Ha & Hd & Hrot & Hf & Hfresh).
  destruct (scheduled_false w Hsch) as (Hpp & Hrq & Hdq).
  open_idle w. subst act dir af pp rq dq rd.
  assert (Hsig : Nat.eqb (addr sig) fr = false)
    by (apply Nat.eqb_neq; lia).
  destruct (Nat.eqb cb fr) eqn:Hcb;
    destruct (Qeq_bool delta 0) eqn:Hz;
    pose proof (Qeq_bool_sym rot (dragRotation d (acc + delta * 1))) as Es;
    destruct (Qeq_bool rot (dragRotation d (acc + delta * 1))) eqn:E1;
    symmetry in Es.
  all: change (settle 2 ?X) with (commit (commit X)).
  all: gesture_start.
  all: do 2 commit_once.
  all: unfold dragging, scheduled, hasUpdates;
    cbn [shell state rendered fiber completed animationFrame dragAccumulator
         fresh pendingProps rotationQueue directionQueue orb gestureSignal
         addr currentPage isGestureActive turningDirection currentRotation];
    repeat match goal with |- _ /\ _ => split end;
    try reflexivity; try lia.
  all: try exact Hrot.
  all: try (apply Qeq_bool_iff in Hz; rewrite Hz; ring).
  all: try ring.
  all: try (apply Qeq_bool_iff; exact E1).
Qed.

(** A drag in progress is a turn at the rotation shown. *)
Lemma dragging_turning (w : World) (d : Direction) :
  dragging d w -> turning d (currentRotation (state w)) w.
Proof.
  intros (Hr & Hsch & Ha & Hd & Hrot & Hf & Hfresh).
  destruct (scheduled_false w Hsch) as (Hpp & Hrq & Hdq).
  split.
  - eexists. split; [exact Hr |]. split; [exact Ha | reflexivity].
  - split; [| split; [exact Hrq | split; [exact Hdq |]]].
    + destruct (state w) as [rot dir]. cbn in Hd |- *. now subst dir.
    + exact (in_range_eq _ _ Hrot (dragRotation_range d _)).
Qed.

(** ** The first delta of a turn *)

(** A gesture at rest whose delta starts a turn is counted twice: React
    renders three times and comes to rest with the accumulator two deltas
    further, the direction set and the rotation that of the accumulator.  The
    gesture effect runs once for the new signal and once more because the
    direction it has set is among its dependencies. *)
Theorem turn_starts_with_delta_twice (w : World) (delta : Q) (i : Z)
    (d : Direction) (n : nat) :
  idle w ->
  ~ delta == 0 ->
  starts (shell w) (dragAccumulator w + delta * 1) = Some d ->
  (3 <= n)%nat ->
  let w' := settle n (step (Gesture delta i) w) in
  dragging d w'
  /\ dragAccumulator w' == dragAccumulator w + 2 * delta
  /\ completed w' = completed w
  /\ quiescent w'.
Proof.
  intros Hi Hz Hs Hn w'. subst w'.
  apply Qeq_bool_false in Hz.
  destruct (gesture_drags w delta i d n Hi Hz Hs Hn)
    as (D & _ & A & C & _ & _ & Q).
  split; [exact D | split; [| split; [exact C | exact Q]]].
  rewrite A. ring.
Qed.

Lemma opened_idle : idle (opened 5 2).
Proof.
  repeat split.
Qed.

Lemma turn_starts_with_delta_twice_witness :
  let w' := settle 3 (step (Gesture (-30) 7) (opened 5 2)) in
  dragging next w'
  /\ dragAccumulator w' == dragAccumulator (opened 5 2) + 2 * -30
  /\ completed w' = completed (opened 5 2)
  /\ quiescent w'.
Proof.
  apply (turn_starts_with_delta_twice (opened 5 2) (-30) 7 next 3).
  - exact opened_idle.
  - intro H. discriminate H.
  - reflexivity.
  - lia.
Defined.

(** ** A drag *)

(** During a drag every further gesture adds its delta to the accumulator
    once, and React comes to rest with the rotation of the accumulator: after
    any gestures the accumulator has moved by the sum of their deltas, the
    drag goes on, and no page turn has completed. *)
Theorem drag_accumulates (d : Direction) (gestures : list (Q * Z)) :
  forall w,
  dragging d w ->
  let w' := drag gestures w in
  dragging d w'
  /\ dragAccumulator w' == dragAccumulator w + Qsum (map fst gestures)
  /\ completed w' = completed w
  /\ currentPage (shell w') = currentPage (shell w).
Proof.
  induction gestures as [| [delta i] rest IH]; intros w Hd.
  - cbn [drag map Qsum fold_right].
    split; [exact Hd | split; [ring | split; reflexivity]].
  - cbn [drag map fst Qsum fold_right].
    destruct (drag_step w delta i d Hd) as (D & A & C & P).
    destruct (IH _ D) as (D' & A' & C' & P').
    cbv zeta in *. fold (Qsum (map fst rest)).
    split; [exact D' | split; [| split]].
    + rewrite A', A. unfold Qsum. ring.
    + now rewrite C'.
    + now rewrite P'.
Qed.

Lemma drag_accumulates_witness :
  let w := settle 3 (step (Gesture (-30) 7) (opened 5 2)) in
  let w' := drag [(-20, 8%Z); (0, 9%Z); (15, 10%Z)] w in
  dragging next w'
  /\ dragAccumulator w' == dragAccumulator w
                           + Qsum (map fst [(-20, 8%Z); (0, 9%Z); (15, 10%Z)])
  /\ completed w' = completed w
  /\ currentPage (shell w') = currentPage (shell w).
Proof.
  intros w.
  apply (drag_accumulates next [(-20, 8%Z); (0, 9%Z); (15, 10%Z)] w).
  exact (proj1 (gesture_drags (opened 5 2) (-30) 7 next 3 opened_idle
                  eq_refl eq_refl (le_n 3))).
Defined.

(** ** The release of a turn back *)

(** When the gesture ends during a drag in direction 'prev', the snap
    compares the rotation with -90.  Above it React comes to rest two pages
    back, at rotation 0 with the direction null: [onPageTurnComplete] is
    called with the page before, twice (once when the rotation was within 2
    of 0 at the release), and then, in the commit that delivers that page,
    with the page before that one, whether it exists or not.  At or below it
    React comes to rest with no call, the page unchanged, the direction null
    and the rotation at -180. *)
Theorem release_of_turn_back (w : World) (r : Q) (n : nat) :
  turning prev r w ->
  (21 <= n)%nat ->
  let w' := settle n (step GestureEnd w) in
  let page := currentPage (shell w) in
  (-90 < r ->
     completed w' =
     completed w ++ (if Qltb (Qabs (0 - r)) 2
                     then [(page - 1)%Z; (page - 2)%Z]
                     else [(page - 1)%Z; (page - 1)%Z; (page - 2)%Z])
     /\ currentPage (shell w') = (page - 2)%Z
     /\ currentRotation (state w') == 0
     /\ turningDirection (state w') = None
     /\ quiescent w')
  /\ (r <= -90 ->
      completed w' = completed w
      /\ currentPage (shell w') = page
      /\ currentRotation (state w') == -180
      /\ turningDirection (state w') = None
      /\ quiescent w').
Proof.
  intros Hw Hn w' page.
  destruct (release_prev w r n Hw Hn) as [T C]. fold w' page in T, C.
  replace (page - 1 - 1)%Z with (page - 2)%Z in T by lia.
  split; intro Hside.
  - destruct (T Hside) as (S & Hc & Hp & _ & _ & Hd & Hrot & _).
    split; [exact Hc | split; [exact Hp | split; [exact Hrot |
                                  split; [exact Hd |]]]].
    now apply settled_quiescent.
  - destruct (C Hside) as (S & Hc & Hp & _ & _ & Hd & Hrot & _).
    split; [| split; [exact Hp | split; [exact Hrot | split; [exact Hd |]]]].
    + rewrite Hc. apply app_nil_r.
    + now apply settled_quiescent.
Qed.

Lemma release_of_turn_back_witness :
  (let w' := settle 21 (step GestureEnd (dragged_back (-89))) in
   completed w' = [1%Z; 1%Z; 0%Z] /\ currentPage (shell w') = 0%Z
   /\ currentRotation (state w') == 0
   /\ turningDirection (state w') = None /\ quiescent w')
  /\ (let w' := settle 21 (step GestureEnd (dragged_back (-91))) in
      completed w' = [] /\ currentPage (shell w') = 2%Z
      /\ currentRotation (state w') == -180
      /\ turningDirection (state w') = None /\ quiescent w').
Proof.
  assert (R : forall r, in_range r -> turning prev r (dragged_back r)).
  { intros r Hr. split.
    - eexists. split; [reflexivity | split; reflexivity].
    - split; [reflexivity |]. split; [reflexivity |].
      split; [reflexivity | exact Hr]. }
  split.
  - apply (release_of_turn_back (dragged_back (-89)) (-89) 21).
    + apply R. split; unfold Qle; simpl; lia.
    + lia.
    + reflexivity.
  - apply (release_of_turn_back (dragged_back (-91)) (-91) 21).
    + apply R. split; unfold Qle; simpl; lia.
    + lia.
    + unfold Qle; simpl; lia.
Defined.

(** ** One gesture and its end *)

(** What [landed] says, for the world before the gesture. *)
Lemma landed_after (calls : list Z) (page : Z) (rot : Q) (w w1 w' : World) :
  landed calls page rot w1 w' ->
  completed w1 = completed w ->
  completed w' = completed w ++ calls
  /\ currentPage (shell w') = page
  /\ turningDirection (state w') = None
  /\ currentRotation (state w') == rot
  /\ quiescent w'.
Proof.
  intros (S & Hc & Hp & _ & _ & Hd & Hrot & _) E.
  split; [now rewrite <- E |]. split; [exact Hp |]. split; [exact Hd |].
  split; [exact Hrot | now apply settled_quiescent].
Qed.

(** A gesture towards 'next' on a page at rest with an empty accumulator,
    and its end: the turn is at the rotation of twice the delta when the
    gesture ends. *)
Lemma gesture_next (w : World) (delta : Q) (i : Z) (n m : nat)
    (calls : list Z) (page : Z) (rot : Q) :
  idle w ->
  dragAccumulator w = 0 ->
  (currentPage (shell w) < content_pages_length (shell w) - 1)%Z ->
  delta <= -10 ->
  (3 <= n)%nat ->
  (forall w1,
     turning next (dragRotation next (0 + delta * 1 + delta * 1)) w1 ->
     currentPage (shell w1) = currentPage (shell w) ->
     landed calls page rot w1 (settle m (step GestureEnd w1))) ->
  let w' := settle m (step GestureEnd (settle n (step (Gesture delta i) w))) in
  completed w' = completed w ++ calls
  /\ currentPage (shell w') = page
  /\ turningDirection (state w') = None
  /\ currentRotation (state w') == rot
  /\ quiescent w'.
Proof.
  intros Hi Hacc Hpage Hd Hn Hrel w'. subst w'.
  assert (Hz : Qeq_bool delta 0 = false)
    by (apply Qeq_bool_false; intro E; rewrite E in Hd; lra).
  assert (Hs : starts (shell w) (dragAccumulator w + delta * 1) = Some next).
  { unfold starts. rewrite Hacc.
    assert (L : Qle_bool (0 + delta * 1) (-10) = true)
      by (apply Qle_bool_iff; lra).
    apply Z.ltb_lt in Hpage. now rewrite L, Hpage. }
  destruct (gesture_drags w delta i next n Hi Hz Hs Hn)
    as (_ & Tu & _ & C & P & _).
  rewrite Hacc in Tu.
  exact (landed_after _ _ _ w _ _ (Hrel _ Tu P) C).
Qed.

Lemma gesture_prev (w : World) (delta : Q) (i : Z) (n m : nat)
    (calls : list Z) (page : Z) (rot : Q) :
  idle w ->
  dragAccumulator w = 0 ->
  (0 < currentPage (shell w))%Z ->
  10 <= delta ->
  (3 <= n)%nat ->
  (forall w1,
     turning prev (dragRotation prev (0 + delta * 1 + delta * 1)) w1 ->
     currentPage (shell w1) = currentPage (shell w) ->
     landed calls page rot w1 (settle m (step GestureEnd w1))) ->
  let w' := settle m (step GestureEnd (settle n (step (Gesture delta i) w))) in
  completed w' = completed w ++ calls
  /\ currentPage (shell w') = page
  /\ turningDirection (state w') = None
  /\ currentRotation (state w') == rot
  /\ quiescent w'.
Proof.
  intros Hi Hacc Hpage Hd Hn Hrel w'. subst w'.
  assert (Hz : Qeq_bool delta 0 = false)
    by (apply Qeq_bool_false; intro E; rewrite E in Hd; lra).
  assert (Hs : starts (shell w) (dragAccumulator w + delta * 1) = Some prev).
  { unfold starts. rewrite Hacc.
    assert (L1 : Qle_bool (0 + delta * 1) (-10) = false)
      by (apply Qle_bool_false; lra).
    assert (L2 : Qle_bool 10 (0 + delta * 1) = true)
      by (apply Qle_bool_iff; lra).
    apply Z.ltb_lt in Hpage. now rewrite L1, L2, Hpage. }
  destruct (gesture_drags w delta i prev n Hi Hz Hs Hn)
    as (_ & Tu & _ & C & P & _).
  rewrite Hacc in Tu.
  exact (landed_after _ _ _ w _ _ (Hrel _ Tu P) C).
Qed.

(** ** The arrow keys of App.tsx *)

Import String.StringSyntax.
Local Open Scope string_scope.

(** On a page at rest whose accumulator is 0, with the book ready:
    ArrowRight, a gesture of -30 that ends 100ms later, turns one page
    forward when there is one, and calls [onPageTurnComplete] twice with that
    page; ArrowLeft, a gesture of 30, goes two pages back from any page but
    the first, with three calls: the page before twice, then the one before
    that. *)
Theorem arrow_keys (w : World) (now : Z) (n : nat) :
  idle w ->
  dragAccumulator w = 0 ->
  (21 <= n)%nat ->
  let page := currentPage (shell w) in
  ((page < content_pages_length (shell w) - 1)%Z ->
   let w' := keyPress READY "ArrowRight" now n w in
   completed w' = completed w ++ [(page + 1)%Z; (page + 1)%Z]
   /\ currentPage (shell w') = (page + 1)%Z
   /\ turningDirection (state w') = None
   /\ quiescent w')
  /\ ((0 < page)%Z ->
      let w' := keyPress READY "ArrowLeft" now n w in
      completed w' = completed w ++ [(page - 1)%Z; (page - 1)%Z; (page - 2)%Z]
      /\ currentPage (shell w') = (page - 2)%Z
      /\ turningDirection (state w') = None
      /\ quiescent w').
Proof.
  intros Hi Hacc Hn page. subst page. split; intros Hpage w'; subst w'.
  - change (keyPress READY "ArrowRight" now n w)
      with (settle n (step GestureEnd (settle n (step (Gesture (-30) now) w)))).
    destruct (gesture_next w (-30) now n n
                [(currentPage (shell w) + 1)%Z; (currentPage (shell w) + 1)%Z]
                (currentPage (shell w) + 1) (0 + (-180 - 0) * 0.22)
                Hi Hacc Hpage) as (C & P & D & _ & Q).
    + unfold Qle; simpl; lia.
    + lia.
    + intros w1 Tu Pg.
      destruct (release_next w1 _ n Tu ltac:(lia)) as [T _].
      cbv zeta in T. rewrite Pg in T.
      change (Qltb (Qabs (-180 - dragRotation next (0 + -30 * 1 + -30 * 1))) 2)
        with false in T.
      apply T. vm_compute. reflexivity.
    + split; [exact C | split; [exact P | split; [exact D | exact Q]]].
  - change (keyPress READY "ArrowLeft" now n w)
      with (settle n (step GestureEnd (settle n (step (Gesture 30 now) w)))).
    destruct (gesture_prev w 30 now n n
                [(currentPage (shell w) - 1)%Z; (currentPage (shell w) - 1)%Z;
                 (currentPage (shell w) - 2)%Z]
                (currentPage (shell w) - 2) 0
                Hi Hacc Hpage) as (C & P & D & _ & Q).
    + unfold Qle; simpl; lia.
    + lia.
    + intros w1 Tu Pg.
      destruct (release_prev w1 _ n Tu Hn) as [T _].
      cbv zeta in T. rewrite Pg in T.
      change (Qltb (Qabs (0 - dragRotation prev (0 + 30 * 1 + 30 * 1))) 2)
        with false in T.
      replace (currentPage (shell w) - 1 - 1)%Z
        with (currentPage (shell w) - 2)%Z in T by lia.
      apply T. vm_compute. reflexivity.
    + split; [exact C | split; [exact P | split; [exact D | exact Q]]].
Qed.

Lemma opened_idle_1 : idle (opened 5 1).
Proof.
  repeat split.
Qed.

Lemma arrow_keys_witness :
  (let w' := keyPress READY "ArrowRight" 1000 21 (opened 5 1) in
   completed w' = [2%Z; 2%Z] /\ currentPage (shell w') = 2%Z
   /\ turningDirection (state w') = None /\ quiescent w')
  /\ (let w' := keyPress READY "ArrowLeft" 1000 21 (opened 5 1) in
      completed w' = [0%Z; 0%Z; (-1)%Z] /\ currentPage (shell w') = (-1)%Z
      /\ turningDirection (state w') = None /\ quiescent w').
Proof.
  destruct (arrow_keys (opened 5 1) 1000 21) as [R L].
  - exact opened_idle_1.
  - reflexivity.
  - lia.
  - split; [apply R | apply L]; reflexivity.
Defined.

Local Close Scope string_scope.

(** ** The flips of BookView.tsx *)

(** A gesture at rest that carries the page to within 2 of the end of the
    turn, and its end. *)
Lemma full_gesture_next (w : World) (delta : Q) (i : Z) (n m : nat) :
  idle w ->
  dragAccumulator w = 0 ->
  (currentPage (shell w) < content_pages_length (shell w) - 1)%Z ->
  delta <= -10 ->
  Qltb (dragRotation next (0 + delta * 1 + delta * 1)) (-90) = true ->
  Qltb (Qabs (-180 - dragRotation next (0 + delta * 1 + delta * 1))) 2
  = true ->
  (3 <= n)%nat -> (3 <= m)%nat ->
  let w' := settle m (step GestureEnd (settle n (step (Gesture delta i) w))) in
  completed w' = completed w ++ [(currentPage (shell w) + 1)%Z]
  /\ currentPage (shell w') = (currentPage (shell w) + 1)%Z
  /\ turningDirection (state w') = None
  /\ currentRotation (state w') == -39.6
  /\ quiescent w'.
Proof.
  intros Hi Hacc Hpage Hd Hlow Hnear Hn Hm.
  destruct (gesture_next w delta i n m
              [(currentPage (shell w) + 1)%Z] (currentPage (shell w) + 1)
              (0 + (-180 - 0) * 0.22) Hi Hacc Hpage Hd Hn)
    as (C & P & D & R & Q).
  - intros w1 Tu Pg. rewrite <- Pg.
    apply landed_later with (k := 3%nat); [| exact Hm].
    exact (release_near_turn_next w1 _ Tu Hlow Hnear).
  - split; [exact C | split; [exact P | split; [exact D | split; [| exact Q]]]].
    rewrite R. reflexivity.
Qed.

Lemma full_gesture_prev (w : World) (delta : Q) (i : Z) (n m : nat) :
  idle w ->
  dragAccumulator w = 0 ->
  (0 < currentPage (shell w))%Z ->
  10 <= delta ->
  Qltb (-90) (dragRotation prev (0 + delta * 1 + delta * 1)) = true ->
  Qltb (Qabs (0 - dragRotation prev (0 + delta * 1 + delta * 1))) 2 = true ->
  (3 <= n)%nat -> (4 <= m)%nat ->
  let w' := settle m (step GestureEnd (settle n (step (Gesture delta i) w))) in
  completed w' = completed w ++ [(currentPage (shell w) - 1)%Z;
                                 (currentPage (shell w) - 2)%Z]
  /\ currentPage (shell w') = (currentPage (shell w) - 2)%Z
  /\ turningDirection (state w') = None
  /\ currentRotation (state w') == 0
  /\ quiescent w'.
Proof.
  intros Hi Hacc Hpage Hd Hhigh Hnear Hn Hm.
  apply (gesture_prev w delta i n m _ _ 0 Hi Hacc Hpage Hd Hn).
  intros w1 Tu Pg. rewrite <- Pg.
  replace (currentPage (shell w1) - 2)%Z
    with (currentPage (shell w1) - 1 - 1)%Z by lia.
  apply landed_later with (k := 4%nat); [| exact Hm].
  exact (release_near_turn_prev w1 _ Tu Hhigh Hnear).
Qed.

(** On a page at rest whose accumulator is 0, one flip of BookView (a
    gesture of -190 or 190, made inactive 120ms later): a flip forward turns
    one page when there is one, with one call of [onPageTurnComplete], and
    leaves the rotation at -39.6 with the direction null; a flip back goes
    two pages back from any page but the first, with two calls. *)
Theorem flip_from_rest (w : World) :
  idle w ->
  dragAccumulator w = 0 ->
  ((currentPage (shell w) < content_pages_length (shell w) - 1)%Z ->
   let w' := flip next w in
   completed w' = completed w ++ [(currentPage (shell w) + 1)%Z]
   /\ currentPage (shell w') = (currentPage (shell w) + 1)%Z
   /\ turningDirection (state w') = None
   /\ currentRotation (state w') == -39.6
   /\ quiescent w')
  /\ ((0 < currentPage (shell w))%Z ->
      let w' := flip prev w in
      completed w' = completed w ++ [(currentPage (shell w) - 1)%Z;
                                     (currentPage (shell w) - 2)%Z]
      /\ currentPage (shell w') = (currentPage (shell w) - 2)%Z
      /\ turningDirection (state w') = None
      /\ currentRotation (state w') == 0
      /\ quiescent w').
Proof.
  intros Hi Hacc. split; intros Hpage.
  - exact (full_gesture_next w (-190) (id (gestureSignal (shell w)) + 1)
             5 5 Hi Hacc Hpage ltac:(unfold Qle; simpl; lia) eq_refl eq_refl
             (le_S _ _ (le_S _ _ (le_n 3))) (le_S _ _ (le_S _ _ (le_n 3)))).
  - exact (full_gesture_prev w 190 (id (gestureSignal (shell w)) + 1)
             5 5 Hi Hacc Hpage ltac:(unfold Qle; simpl; lia) eq_refl eq_refl
             (le_S _ _ (le_S _ _ (le_n 3))) (le_S _ _ (le_n 4))).
Qed.

Lemma opened_idle_3 : idle (opened 5 3).
Proof.
  repeat split.
Qed.

Lemma flip_from_rest_witness :
  (let w' := flip next (opened 5 3) in
   completed w' = [4%Z] /\ currentPage (shell w') = 4%Z
   /\ turningDirection (state w') = None
   /\ currentRotation (state w') == -39.6
   /\ quiescent w')
  /\ (let w' := flip prev (opened 5 3) in
      completed w' = [2%Z; 1%Z] /\ currentPage (shell w') = 1%Z
      /\ turningDirection (state w') = None
      /\ currentRotation (state w') == 0
      /\ quiescent w').
Proof.
  destruct (flip_from_rest (opened 5 3)) as [R L].
  - exact opened_idle_3.
  - reflexivity.
  - split; [apply R | apply L]; reflexivity.
Defined.

(** ** What the render shows *)

Lemma rotAbs_in_range (r : Q) :
  in_range r -> rotAbs r == - r.
Proof.
  intros [L U]. unfold rotAbs.
  rewrite (Qabs_neg r U).
  rewrite (Q.max_r 0 (- r)) by lra.
  apply Q.min_r. lra.
Qed.

(** In every render the component can reach, the clamp of [rotAbs] is idle:
    [rotAbs] is the rotation without its sign, [curlT] lies in [0, 1], and the
    opacities and the lift computed from them stay in their ranges: at most
    0.08 and 0.10 for the shadows on the static pages, 0.25 to 0.40 for the
    drop shadow, at most 180/650 for the shine, and at most 8 pixels of
    lift. *)
Theorem shading_bounded (len page : Z) (es : list Event) (p : Props)
    (s : State) :
  rendered (steps es (mount len page)) = Some (p, s) ->
  rotAbs (currentRotation s) == - currentRotation s
  /\ (0 <= curlT (currentRotation s) /\ curlT (currentRotation s) <= 1)
  /\ (0 <= leftShadow s /\ leftShadow s <= 0.08)
  /\ (0 <= rightShadow s /\ rightShadow s <= 0.10)
  /\ (0.25 <= dropShadow s /\ dropShadow s <= 0.40)
  /\ (0 <= shine s /\ shine s <= 180 / 650)
  /\ (0 <= lift s /\ lift s <= 8).
Proof.
  intro Hr.
  destruct (good_steps es (mount len page) (good_mount len page))
    as (_ & G & _).
  pose proof (G (p, s) Hr) as Hrange. cbn [snd] in Hrange.
  pose proof (rotAbs_in_range _ Hrange) as A.
  destruct Hrange as [L U].
  unfold leftShadow, rightShadow, dropShadow, shine, lift, curlT.
  set (a := rotAbs (currentRotation s)) in *.
  assert (Hl : Qabs (currentRotation s / 180) == - currentRotation s / 180).
  { rewrite Qabs_neg.
    - unfold Qdiv. ring.
    - unfold Qdiv. change (/ 180) with (1 # 180). lra. }
  rewrite Hl. unfold Qdiv.
  change (/ 180) with (1 # 180). change (/ 650) with (1 # 650).
  split; [exact A |].
  destruct (turningDirection s) as [[|] |];
    repeat match goal with |- _ /\ _ => split end; lra.
Qed.

Lemma shading_bounded_witness :
  let s := mkState (-810180000 # 5832000) (Some next) in
  rotAbs (currentRotation s) == - currentRotation s
  /\ (0 <= curlT (currentRotation s) /\ curlT (currentRotation s) <= 1)
  /\ (0 <= leftShadow s /\ leftShadow s <= 0.08)
  /\ (0 <= rightShadow s /\ rightShadow s <= 0.10)
  /\ (0.25 <= dropShadow s /\ dropShadow s <= 0.40)
  /\ (0 <= shine s /\ shine s <= 180 / 650)
  /\ (0 <= lift s /\ lift s <= 8).
Proof.
  intro s.
  apply (shading_bounded 5 2
           [Gesture (-35) 7; Commit; Commit; Commit]
           (mkProps 5 (mkSignal (-35) 7 2%nat) true 2%nat 2) s).
  vm_compute. reflexivity.
Defined.

(** ** The easing of a drag *)

Lemma cube_mono (a b : Q) : 0 <= a -> a <= b -> a ^ 3 <= b ^ 3.
Proof.
  intros H0 H1. simpl.
  assert (S : a * a <= b * b) by nra.
  nra.
Qed.

Lemma cube_le_self (u : Q) : 0 <= u -> u <= 1 -> u ^ 3 <= u.
Proof.
  intros H0 H1. simpl. assert (S : u * u <= u) by nra. nra.
Qed.

Lemma clamp_mono (a b : Q) :
  a <= b -> Qmax (-180) (Qmin 0 a) <= Qmax (-180) (Qmin 0 b).
Proof.
  intro H. apply Q.max_le_compat_l. now apply Q.min_le_compat_l.
Qed.

(** The rotation of a drag, as a function of the clamped rotation. *)
Lemma dragRotation_next_eq (acc : Q) :
  let rot := Qmax (-180) (Qmin 0 acc) in
  dragRotation next acc == -180 + 180 * (1 + rot / 180) ^ 3.
Proof.
  intro rot. unfold dragRotation. fold rot.
  destruct (clamp_range acc) as [L U]. fold rot in L, U.
  rewrite (Qabs_neg rot U). simpl. unfold Qdiv. ring.
Qed.

Lemma dragRotation_prev_eq (acc : Q) :
  let rot := Qmax (-180) (Qmin 0 (-180 + acc)) in
  dragRotation prev acc == -180 * (- rot / 180) ^ 3.
Proof.
  intro rot. unfold dragRotation. fold rot. simpl. unfold Qdiv.
  change (/ 180) with (1 # 180). ring.
Qed.

(** The rotation of a drag follows the hand and runs ahead of it: it grows
    with the accumulator, it is at least as far from the start of the turn as
    the clamped accumulator itself, and it is at the start and at the end of
    the turn exactly when the clamped accumulator is. *)
Theorem drag_eased (acc acc' : Q) :
  acc <= acc' ->
  (dragRotation next acc <= dragRotation next acc'
   /\ dragRotation prev acc <= dragRotation prev acc')
  /\ (dragRotation next acc <= Qmax (-180) (Qmin 0 acc)
      /\ Qmax (-180) (Qmin 0 (-180 + acc)) <= dragRotation prev acc)
  /\ ((0 <= acc -> dragRotation next acc == 0)
      /\ (acc <= -180 -> dragRotation next acc == -180)
      /\ (acc <= 0 -> dragRotation prev acc == -180)
      /\ (180 <= acc -> dragRotation prev acc == 0)).
Proof.
  intro H.
  pose proof (dragRotation_next_eq acc) as N.
  pose proof (dragRotation_next_eq acc') as N'.
  pose proof (dragRotation_prev_eq acc) as P.
  pose proof (dragRotation_prev_eq acc') as P'.
  cbv zeta in N, N', P, P'.
  pose proof (clamp_mono acc acc' H) as Mn.
  assert (H' : -180 + acc <= -180 + acc') by lra.
  pose proof (clamp_mono _ _ H') as Mp.
  destruct (clamp_range acc) as [Ln Un].
  destruct (clamp_range acc') as [Ln' Un'].
  destruct (clamp_range (-180 + acc)) as [Lp Up].
  destruct (clamp_range (-180 + acc')) as [Lp' Up'].
  set (rn := Qmax (-180) (Qmin 0 acc)) in *.
  set (rn' := Qmax (-180) (Qmin 0 acc')) in *.
  set (rp := Qmax (-180) (Qmin 0 (-180 + acc))) in *.
  set (rp' := Qmax (-180) (Qmin 0 (-180 + acc'))) in *.
  unfold Qdiv in N, N', P, P'. change (/ 180) with (1 # 180) in *.
  assert (Un1 : 0 <= 1 + rn * (1 # 180)) by lra.
  assert (Un2 : 1 + rn * (1 # 180) <= 1 + rn' * (1 # 180)) by lra.
  assert (Un3 : 1 + rn * (1 # 180) <= 1) by lra.
  assert (Up1 : 0 <= - rp' * (1 # 180)) by lra.
  assert (Up2 : - rp' * (1 # 180) <= - rp * (1 # 180)) by lra.
  assert (Up3 : - rp * (1 # 180) <= 1) by lra.
  assert (Up4 : 0 <= - rp * (1 # 180)) by lra.
  pose proof (cube_mono _ _ Un1 Un2) as Cn.
  pose proof (cube_le_self _ Un1 Un3) as Sn.
  pose proof (cube_mono _ _ Up1 Up2) as Cp.
  pose proof (cube_le_self _ Up4 Up3) as Sp.
  split; [split; lra | split; [split; lra |]].
  repeat match goal with |- _ /\ _ => split end; intro E.
  - assert (R : rn == 0).
    { apply Qle_antisym; [exact Un |].
      apply Qle_trans with (Qmin 0 acc); [| apply Q.le_max_r].
      apply Q.min_glb; lra. }
    rewrite N, R. reflexivity.
  - assert (R : rn == -180).
    { apply Qle_antisym; [| exact Ln].
      apply Q.max_lub; [lra |].
      apply Qle_trans with acc; [apply Q.le_min_r | exact E]. }
    rewrite N, R. reflexivity.
  - assert (R : rp == -180).
    { apply Qle_antisym; [| exact Lp].
      apply Q.max_lub; [lra |].
      apply Qle_trans with (-180 + acc); [apply Q.le_min_r | lra]. }
    rewrite P, R. reflexivity.
  - assert (R : rp == 0).
    { apply Qle_antisym; [exact Up |].
      apply Qle_trans with (Qmin 0 (-180 + acc)); [| apply Q.le_max_r].
      apply Q.min_glb; lra. }
    rewrite P, R. reflexivity.
Qed.

Lemma drag_eased_witness :
  (dragRotation next (-60) <= dragRotation next (-30)
   /\ dragRotation prev (-60) <= dragRotation prev (-30))
  /\ (dragRotation next (-60) <= Qmax (-180) (Qmin 0 (-60))
      /\ Qmax (-180) (Qmin 0 (-180 + -60)) <= dragRotation prev (-60))
  /\ ((0 <= -60 -> dragRotation next (-60) == 0)
      /\ (-60 <= -180 -> dragRotation next (-60) == -180)
      /\ (-60 <= 0 -> dragRotation prev (-60) == -180)
      /\ (180 <= -60 -> dragRotation prev (-60) == 0)).
Proof.
  apply (drag_eased (-60) (-30)). unfold Qle. simpl. lia.
Defined.

Lemma dragRotation_next_mono (acc acc' : Q) :
  acc <= acc' -> dragRotation next acc <= dragRotation next acc'.
Proof.
  intro H.
  pose proof (dragRotation_next_eq acc) as N.
  pose proof (dragRotation_next_eq acc') as N'.
  cbv zeta in N, N'.
  pose proof (clamp_mono acc acc' H) as Mn.
  destruct (clamp_range acc) as [Ln Un].
  destruct (clamp_range acc') as [Ln' Un'].
  set (rn := Qmax (-180) (Qmin 0 acc)) in *.
  set (rn' := Qmax (-180) (Qmin 0 acc')) in *.
  unfold Qdiv in N, N'. change (/ 180) with (1 # 180) in *.
  assert (Un1 : 0 <= 1 + rn * (1 # 180)) by lra.
  assert (Un2 : 1 + rn * (1 # 180) <= 1 + rn' * (1 # 180)) by lra.
  pose proof (cube_mono _ _ Un1 Un2) as Cn. lra.
Qed.

(** ** One gesture and its end *)

(** On a page at rest that is not the last, with an accumulator of 0, a
    single gesture towards 'next' and its end decide the turn by the size of
    the delta alone, which the gesture effect counts twice.  A delta of -19
    or beyond turns the page: down to -69 the snap animates and
    [onPageTurnComplete] is called twice with the next page, from -70 on the
    page is within 2 of the end of the turn when the gesture ends and the
    call is made once.  A delta from -18 to -10 starts the turn and lets it
    snap back, with no call. *)
Theorem one_gesture_decides (w : World) (delta : Q) (i : Z) (n : nat) :
  idle w ->
  dragAccumulator w = 0 ->
  (currentPage (shell w) < content_pages_length (shell w) - 1)%Z ->
  (20 <= n)%nat ->
  let w' := settle n (step GestureEnd (settle n (step (Gesture delta i) w))) in
  let page := currentPage (shell w) in
  (delta <= -70 ->
     completed w' = completed w ++ [(page + 1)%Z]
     /\ currentPage (shell w') = (page + 1)%Z
     /\ turningDirection (state w') = None
     /\ quiescent w')
  /\ (-69 <= delta -> delta <= -19 ->
      completed w' = completed w ++ [(page + 1)%Z; (page + 1)%Z]
      /\ currentPage (shell w') = (page + 1)%Z
      /\ turningDirection (state w') = None
      /\ quiescent w')
  /\ (-18 <= delta -> delta <= -10 ->
      completed w' = completed w
      /\ currentPage (shell w') = page
      /\ turningDirection (state w') = None
      /\ currentRotation (state w') == 0
      /\ quiescent w').
Proof.
  intros Hi Hacc Hpage Hn w' page. subst w' page.
  set (r := dragRotation next (0 + delta * 1 + delta * 1)).
  assert (Hr : in_range r) by apply dragRotation_range.
  assert (Rel : forall calls pg rot,
            delta <= -10 ->
            (forall w1, turning next r w1 ->
               currentPage (shell w1) = currentPage (shell w) ->
               landed calls pg rot w1 (settle n (step GestureEnd w1))) ->
            completed (settle n (step GestureEnd
                         (settle n (step (Gesture delta i) w))))
            = completed w ++ calls
            /\ currentPage (shell (settle n (step GestureEnd
                         (settle n (step (Gesture delta i) w))))) = pg
            /\ turningDirection (state (settle n (step GestureEnd
                         (settle n (step (Gesture delta i) w))))) = None
            /\ currentRotation (state (settle n (step GestureEnd
                         (settle n (step (Gesture delta i) w))))) == rot
            /\ quiescent (settle n (step GestureEnd
                         (settle n (step (Gesture delta i) w))))).
  { intros calls pg rot Hd Hrel.
    exact (gesture_next w delta i n n calls pg rot Hi Hacc Hpage Hd
             ltac:(lia) Hrel). }
  split; [| split].
  - intro Hd.
    assert (Low : r <= dragRotation next (-140))
      by (apply dragRotation_next_mono; lra).
    assert (V : dragRotation next (-140) < -178) by (vm_compute; reflexivity).
    assert (Near : Qltb (Qabs (-180 - r)) 2 = true).
    { apply Qltb_lt. destruct Hr as [L U].
      destruct (Qabs_cases (-180 - r)) as [[A1 A2] | [A1 A2]]; lra. }
    destruct (Rel [(currentPage (shell w) + 1)%Z]
                  (currentPage (shell w) + 1)%Z (0 + (-180 - 0) * 0.22))
      as (C & P & D & _ & Q); [lra | |].
    + intros w1 Tu Pg.
      destruct (release_next w1 r n Tu Hn) as [T _].
      cbv zeta in T. rewrite Pg, Near in T. apply T. lra.
    + split; [exact C | split; [exact P | split; [exact D | exact Q]]].
  - intros Hl Hd.
    assert (Low : r <= dragRotation next (-38))
      by (apply dragRotation_next_mono; lra).
    assert (High : dragRotation next (-138) <= r)
      by (apply dragRotation_next_mono; lra).
    assert (V1 : dragRotation next (-38) < -90) by (vm_compute; reflexivity).
    assert (V2 : -178 <= dragRotation next (-138))
      by (vm_compute; discriminate).
    assert (Far : Qltb (Qabs (-180 - r)) 2 = false).
    { apply Qltb_ge. destruct Hr as [L U].
      destruct (Qabs_cases (-180 - r)) as [[A1 A2] | [A1 A2]]; lra. }
    destruct (Rel [(currentPage (shell w) + 1)%Z;
                   (currentPage (shell w) + 1)%Z]
                  (currentPage (shell w) + 1)%Z (0 + (-180 - 0) * 0.22))
      as (C & P & D & _ & Q); [lra | |].
    + intros w1 Tu Pg.
      destruct (release_next w1 r n Tu Hn) as [T _].
      cbv zeta in T. rewrite Pg, Far in T. apply T. lra.
    + split; [exact C | split; [exact P | split; [exact D | exact Q]]].
  - intros Hl Hd.
    assert (High : dragRotation next (-36) <= r)
      by (apply dragRotation_next_mono; lra).
    assert (V : -90 <= dragRotation next (-36))
      by (vm_compute; discriminate).
    destruct (Rel [] (currentPage (shell w)) 0)
      as (C & P & D & R & Q); [lra | |].
    + intros w1 Tu Pg.
      destruct (release_next w1 r n Tu Hn) as [_ T].
      cbv zeta in T. rewrite Pg in T. apply T. lra.
    + rewrite app_nil_r in C.
      split; [exact C | split; [exact P | split; [exact D |
                                  split; [exact R | exact Q]]]].
Qed.

Lemma one_gesture_decides_witness :
  (let w' := settle 20 (step GestureEnd
                          (settle 20 (step (Gesture (-80) 7) (opened 5 2)))) in
   completed w' = [3%Z] /\ currentPage (shell w') = 3%Z
   /\ turningDirection (state w') = None /\ quiescent w')
  /\ (let w' := settle 20 (step GestureEnd
                          (settle 20 (step (Gesture (-19) 7) (opened 5 2)))) in
      completed w' = [3%Z; 3%Z] /\ currentPage (shell w') = 3%Z
      /\ turningDirection (state w') = None /\ quiescent w')
  /\ (let w' := settle 20 (step GestureEnd
                          (settle 20 (step (Gesture (-15) 7) (opened 5 2)))) in
      completed w' = [] /\ currentPage (shell w') = 2%Z
      /\ turningDirection (state w') = None
      /\ currentRotation (state w') == 0 /\ quiescent w').
Proof.
  split; [| split].
  - apply (one_gesture_decides (opened 5 2) (-80) 7 20 opened_idle eq_refl
             eq_refl (le_n 20)).
    unfold Qle; simpl; lia.
  - apply (one_gesture_decides (opened 5 2) (-19) 7 20 opened_idle eq_refl
             eq_refl (le_n 20)); unfold Qle; simpl; lia.
  - apply (one_gesture_decides (opened 5 2) (-15) 7 20 opened_idle eq_refl
             eq_refl (le_n 20)); unfold Qle; simpl; lia.
Defined.

End AnimatorFacts.

(* ================================================================== *)
(** * From the camera to the page *)
(* ================================================================== *)

Module PipelineFacts.
Import Book3D Book3DFacts App AnimatorFacts.

(** Whatever the hook reports starts a turn on a page at rest whose
    accumulator is 0 (as it is after a mount, a completed turn or a snap
    back, but not after a gesture that started no turn): a delta passed to
    [onGesture] is beyond the 10 the animator asks for, so it sets the
    direction of its sign, and leaves the accumulator more than 30 from zero,
    whenever the book has a page in that direction. *)
Theorem reported_gesture_starts_turn (i : OpticalFlow.Input)
    (r : OpticalFlow.Refs) (delta : Q) (w : World) (now : Z) (n : nat) :
  In (OpticalFlow.onGesture delta) (snd (OpticalFlow.processFrame i r)) ->
  idle w ->
  dragAccumulator w = 0 ->
  (3 <= n)%nat ->
  let w' := settle n (handleGesture READY delta now w) in
  (delta < 0 ->
   (currentPage (shell w) < content_pages_length (shell w) - 1)%Z ->
   dragging next w' /\ dragAccumulator w' < -30)
  /\ (0 < delta -> (0 < currentPage (shell w))%Z ->
      dragging prev w' /\ 30 < dragAccumulator w').
Proof.
  intros Hin Hi Hacc Hn w'. subst w'.
  destruct (OpticalFlowRunFacts.onGesture_bounds i r delta Hin)
    as ((B & _) & _).
  cbn [handleGesture].
  assert (Twice : forall d,
            starts (shell w) (dragAccumulator w + delta * 1) = Some d ->
            ~ delta == 0 ->
            dragging d (settle n (step (Gesture delta now) w))
            /\ dragAccumulator (settle n (step (Gesture delta now) w))
               == 2 * delta).
  { intros d Hs Hz. apply Qeq_bool_false in Hz.
    destruct (gesture_drags w delta now d n Hi Hz Hs Hn) as (D & _ & A & _).
    split; [exact D |]. rewrite A, Hacc. ring. }
  rewrite Hacc in Twice.
  split.
  - intros Hneg Hpage.
    rewrite (Qabs_neg delta) in B by lra.
    destruct (Twice next) as [D A]; [| lra |].
    + unfold starts.
      assert (L : Qle_bool (0 + delta * 1) (-10) = true)
        by (apply Qle_bool_iff; lra).
      apply Z.ltb_lt in Hpage. now rewrite L, Hpage.
    + split; [exact D | rewrite A; lra].
  - intros Hpos Hpage.
    rewrite (Qabs_pos delta) in B by lra.
    destruct (Twice prev) as [D A]; [| lra |].
    + unfold starts.
      assert (L1 : Qle_bool (0 + delta * 1) (-10) = false)
        by (apply Qle_bool_false; lra).
      assert (L2 : Qle_bool 10 (0 + delta * 1) = true)
        by (apply Qle_bool_iff; lra).
      apply Z.ltb_lt in Hpage. now rewrite L1, L2, Hpage.
    + split; [exact D | rewrite A; lra].
Qed.

Lemma reported_gesture_starts_turn_witness :
  let p := OpticalFlow.edges_before
             [(10, 10, 2); (10, 30, 2); (10, 50, 2); (14, 10, 2);
              (14, 30, 2); (14, 50, 2)]%Z in
  let c := OpticalFlow.edges_after
             [(10, 10, 2); (10, 30, 2); (10, 50, 2); (14, 10, 2);
              (14, 30, 2); (14, 50, 2)]%Z in
  let w' := settle 3 (handleGesture READY (360 # 6) 1000 (opened 5 2)) in
  ((360 # 6) < 0 ->
   (currentPage (shell (opened 5 2))
    < content_pages_length (shell (opened 5 2)) - 1)%Z ->
   dragging next w' /\ dragAccumulator w' < -30)
  /\ (0 < (360 # 6) -> (0 < currentPage (shell (opened 5 2)))%Z ->
      dragging prev w' /\ 30 < dragAccumulator w').
Proof.
  intros p c.
  apply (reported_gesture_starts_turn
           (OpticalFlow.mkInput c 1000 1000)
           (OpticalFlow.mkRefs (Some p) false 0 0) (360 # 6)
           (opened 5 2) 1000 3).
  - vm_compute. left. reflexivity.
  - exact opened_idle.
  - reflexivity.
  - lia.
Defined.

End PipelineFacts.
